(** * TinyWebServer: buffer, HTTP request parser, response builder,
      SQL connection pool and log file naming, embedded from the C++ sources
      under [code/] and checked against the written specification. *)

From Stdlib Require Import ZArith Ascii String List Lia DecimalString.
From stdpp Require Import base option list gmap strings.

Local Open Scope Z_scope.

(** ** Abnormal termination

    The C++ code can leave a function otherwise than by returning: a failed
    [assert], a [std::out_of_range] or [std::length_error] thrown by the
    standard library, or behaviour the language leaves undefined.  [OutOfFuel]
    belongs to the embedding only: loops are unrolled with a bound, and the
    theorems show that the bound is never hit. *)

Inductive fault : Type :=
| AssertFail
| OutOfRange
| LengthError
| Undefined
| OutOfFuel.

Inductive result (A : Type) : Type :=
| Ok (a : A)
| Fault (f : fault).

Arguments Ok {A} a.
Arguments Fault {A} f.

#[global] Instance result_ret : MRet result := fun A a => Ok a.
#[global] Instance result_bind : MBind result := fun A B k m =>
  match m with
  | Ok a => k a
  | Fault f => Fault f
  end.

Definition assert (b : bool) : result unit :=
  if b then Ok tt else Fault AssertFail.


(** ** Machine integers used by the sources *)

(** [size_t] on the 64-bit target: arithmetic is modulo [2^64]. *)
Definition size_t (z : Z) : Z := z mod 2 ^ 64.

(** [std::vector<char>::max_size()]. *)
Definition vector_max_size : Z := 2 ^ 63 - 1.

Definition NUL : ascii := Ascii.zero.
Definition CR : ascii := ascii_of_nat 13.
Definition LF : ascii := ascii_of_nat 10.
Definition DQUOTE : ascii := ascii_of_nat 34.

(** The two characters that end a line of HTTP. *)
Definition crlf : string := String CR (String LF EmptyString).

(** ** code/buffer/buffer.cpp *)

Module Buffer.

Record t : Type := mk {
  buffer_ : list ascii;       (* std::vector<char> *)
  readPos_ : Z;               (* std::atomic<std::size_t> *)
  writePos_ : Z
}.

Definition size (b : t) : Z := Z.of_nat (length (buffer_ b)).

(** [Buffer::Buffer(int initBuffSize)] *)
Definition init (initBuffSize : nat) : t :=
  mk (repeat NUL initBuffSize) 0 0.

Definition WritableBytes (b : t) : Z := size_t (size b - writePos_ b).
Definition ReadableBytes (b : t) : Z := size_t (writePos_ b - readPos_ b).
Definition PrependableBytes (b : t) : Z := readPos_ b.

(** Pointers into the vector are kept as offsets from [BeginPtr_()]. *)
Definition Peek (b : t) : Z := readPos_ b.
Definition BeginWrite (b : t) : Z := writePos_ b.
Definition BeginWriteConst (b : t) : Z := writePos_ b.

(** The bytes of the half-open range [[from, to)] of the storage. *)
Definition range (v : list ascii) (from to : Z) : list ascii :=
  take (Z.to_nat (to - from)) (drop (Z.to_nat from) v).

(** The readable region [[readPos_, writePos_)]. *)
Definition readable (b : t) : list ascii :=
  range (buffer_ b) (readPos_ b) (writePos_ b).

Definition HasWritten (len : Z) (b : t) : t :=
  mk (buffer_ b) (readPos_ b) (size_t (writePos_ b + len)).

Definition Retrieve (len : Z) (b : t) : result t :=
  _ ← assert (len <=? ReadableBytes b);
  let r := size_t (readPos_ b + len) in
  if r =? writePos_ b
  then Ok (mk (buffer_ b) 0 0)
  else Ok (mk (buffer_ b) r (writePos_ b)).

Definition RetrieveUntil (end_ : Z) (b : t) : result t :=
  _ ← assert (Peek b <=? end_);
  _ ← assert (end_ <=? writePos_ b);
  Retrieve (size_t (end_ - Peek b)) b.

Definition RetrieveAll (b : t) : t := mk (buffer_ b) 0 0.

Definition RetrieveAllToStr (b : t) : string * t :=
  (string_of_list_ascii (readable b), RetrieveAll b).

(** [std::vector<char>::resize(n)]: truncates, or pads with zero bytes. *)
Definition resize (n : Z) (v : list ascii) : result (list ascii) :=
  if vector_max_size <? n then Fault LengthError
  else Ok (take (Z.to_nat n) v ++ repeat NUL (Z.to_nat n - length v)).

(** [std::copy(first, first + n, d_first)] inside one vector: elements are
    assigned one by one, front to back. *)
Fixpoint copy_within (n : nat) (src dst : nat) (v : list ascii)
  : result (list ascii) :=
  match n with
  | O => Ok v
  | S n' =>
      match v !! src with
      | Some c =>
          if decide (dst < length v)%nat
          then copy_within n' (S src) (S dst) (<[dst := c]> v)
          else Fault Undefined
      | None => Fault Undefined
      end
  end.

(** [std::copy(d, d + len, BeginWrite())] from memory outside the vector. *)
Fixpoint copy_in (data : list ascii) (dst : nat) (v : list ascii)
  : result (list ascii) :=
  match data with
  | [] => Ok v
  | c :: data' =>
      if decide (dst < length v)%nat
      then copy_in data' (S dst) (<[dst := c]> v)
      else Fault Undefined
  end.

Definition MakeSpace_ (len : Z) (b : t) : result t :=
  if size_t (WritableBytes b + PrependableBytes b) <? len then
    v ← resize (size_t (writePos_ b + len + 1)) (buffer_ b);
    Ok (mk v (readPos_ b) (writePos_ b))
  else
    let readable := ReadableBytes b in
    v ← copy_within (Z.to_nat (writePos_ b - readPos_ b))
          (Z.to_nat (readPos_ b)) 0 (buffer_ b);
    let b' := mk v 0 (size_t (0 + readable)) in
    _ ← assert (readable =? ReadableBytes b');
    Ok b'.

Definition EnsureWriteable (len : Z) (b : t) : result t :=
  b1 ← (if WritableBytes b <? len then MakeSpace_ len b else Ok b);
  _ ← assert (len <=? WritableBytes b1);
  Ok b1.

(** [Buffer::Append(const void* data, size_t len)]; the caller's [len] is
    the number of bytes at [data]. *)
Definition Append (data : list ascii) (b : t) : result t :=
  let len := size_t (Z.of_nat (length data)) in
  b1 ← EnsureWriteable len b;
  v ← copy_in data (Z.to_nat (BeginWrite b1)) (buffer_ b1);
  Ok (HasWritten len (mk v (readPos_ b1) (writePos_ b1))).

Definition Append_str (str : string) (b : t) : result t :=
  Append (list_ascii_of_string str) b.

(** [Buffer::Append(const Buffer& buff)] *)
Definition Append_buffer (other : t) (b : t) : result t :=
  Append (readable other) b.

(** *** File descriptors

    What the kernel does on one [readv] or [write] call is an input of the
    model. *)

(** Outcome of [readv]: [-1] with [errno], or the bytes the descriptor
    delivers to this call. *)
Inductive fd_input : Type :=
| ReadError (errno : Z)
| ReadData (data : list ascii).

(** [readv(fd, iov, iovcnt)]: the delivered bytes fill the regions in array
    order, each up to its [iov_len]; the result is the byte count and
    what was stored in each region. *)
Fixpoint readv (data : list ascii) (iov_len : list Z)
  : Z * list (list ascii) :=
  match iov_len with
  | [] => (0, [])
  | n :: rest =>
      let chunk := take (Z.to_nat n) data in
      let '(m, chunks) := readv (drop (Z.to_nat n) data) rest in
      (Z.of_nat (length chunk) + m, chunk :: chunks)
  end.

(** [sizeof(buff)] of the stack array in [ReadFd]. *)
Definition scratch_size : Z := 65536.

(** The [iov_len] fields of the two-entry vector built by [ReadFd]. *)
Definition ReadFd_iov (b : t) : list Z := [WritableBytes b; scratch_size].

(** [Buffer::ReadFd]: returns the value of [len], the buffer, and the
    value stored through [Errno], if any. *)
Definition ReadFd (inp : fd_input) (b : t) : result (Z * t * option Z) :=
  let writable := WritableBytes b in
  match inp with
  | ReadError errno => Ok (-1, b, Some errno)
  | ReadData data =>
      match readv data (ReadFd_iov b) with
      | (len, [tail; buff]) =>
          (* the kernel has written [tail] at [BeginPtr_() + writePos_] *)
          v ← copy_in tail (Z.to_nat (writePos_ b)) (buffer_ b);
          let b0 := mk v (readPos_ b) (writePos_ b) in
          if size_t len <=? writable then
            Ok (len, mk v (readPos_ b) (size_t (writePos_ b + len)), None)
          else
            b1 ← Append (take (Z.to_nat (size_t (len - writable))) buff)
                   (mk v (readPos_ b) (size b0));
            Ok (len, b1, None)
      | _ => Fault Undefined
      end
  end.

(** [Buffer::WriteFd]; [ret] is what [write(fd, Peek(), readSize)]
    returned. *)
Definition WriteFd (ret : Z) (errno : Z) (b : t) : Z * t * option Z :=
  let len := ret in
  if len <? 0 then (len, b, Some errno)
  else
    let r := size_t (readPos_ b + len) in
    if r =? writePos_ b
    then (len, mk (buffer_ b) 0 0, None)
    else (len, mk (buffer_ b) r (writePos_ b), None).

End Buffer.

(** ** [std::string] and [std::unordered_map] operations used by the sources *)

Definition char_code (c : ascii) : Z := Z.of_N (N_of_ascii c).
Definition char_of (z : Z) : ascii := ascii_of_N (Z.to_N (z mod 256)).

Definition str_size (s : string) : Z := Z.of_nat (String.length s).

(** [s[k]] read: the terminator is readable at [k = size()]. *)
Definition str_at (s : string) (k : Z) : result ascii :=
  if (k <? 0) || (str_size s <? k) then Fault Undefined
  else match String.get (Z.to_nat k) s with
       | Some c => Ok c
       | None => Ok NUL
       end.

Fixpoint str_update (k : nat) (c : ascii) (s : string) : string :=
  match s with
  | EmptyString => EmptyString
  | String d s' =>
      match k with
      | O => String c s'
      | S k' => String d (str_update k' c s')
      end
  end.

(** [s[k] = c]: only positions below [size()] may be assigned. *)
Definition str_set (s : string) (k : Z) (c : ascii) : result string :=
  if (0 <=? k) && (k <? str_size s) then Ok (str_update (Z.to_nat k) c s)
  else Fault Undefined.

(** [std::string::npos] *)
Definition npos : Z := 2 ^ 64 - 1.

(** [s.substr(pos, len)]: throws when [pos] is beyond the size; the length
    is cut down to what is left of the string.  Both arguments arrive as
    [size_t], where a negative [int] is larger than any size. *)
Definition substr (s : string) (pos len : Z) : result string :=
  if (pos <? 0) || (str_size s <? pos) then Fault OutOfRange
  else
    let rest := str_size s - pos in
    let rlen := if len <? 0 then rest else Z.min len rest in
    Ok (String.substring (Z.to_nat pos) (Z.to_nat rlen) s).

(** [s.find_last_of(c)]; [None] is [npos]. *)
Fixpoint find_last_of (c : ascii) (s : string) : option nat :=
  match s with
  | EmptyString => None
  | String d s' =>
      match find_last_of c s' with
      | Some k => Some (S k)
      | None => if Ascii.eqb d c then Some O else None
      end
  end.

(** [s.substr(pos)] with [pos] the result of a [find]: [npos] is larger than
    any size, so the call throws. *)
Definition substr_from (s : string) (pos : option nat) : result string :=
  match pos with
  | None => Fault OutOfRange
  | Some k => substr s (Z.of_nat k) npos
  end.

(** [m[k]] on an [unordered_map<string, string>]: a missing key is inserted
    with the empty string. *)
Definition map_index (k : string) (m : gmap string string)
  : string * gmap string string :=
  match m !! k with
  | Some v => (v, m)
  | None => (EmptyString, <[k := EmptyString]> m)
  end.

(** [m.count(k)] *)
Definition map_count (k : string) (m : gmap string string) : Z :=
  match m !! k with Some _ => 1 | None => 0 end.

(** [std::search(first, last, s_first, s_last)], as the offset of the result
    from [first]; the length of the haystack stands for [last]. *)
Fixpoint search (hay needle : list ascii) : nat :=
  if decide (needle `prefix_of` hay) then O
  else match hay with
       | [] => O
       | _ :: hay' => S (search hay' needle)
       end.

(** ** [std::regex] (ECMAScript grammar), for the two patterns of the parser

    A backtracking matcher: quantifiers are greedy and give characters back
    when the rest of the pattern fails.  [.] matches any character except
    the line terminators. *)

Module Regex.

Inductive charset : Type :=
| Only (c : ascii)        (* a literal character *)
| Except (c : ascii)      (* [^c] *)
| Dot.                    (* . *)

Definition accepts (cs : charset) (c : ascii) : bool :=
  match cs with
  | Only d => Ascii.eqb c d
  | Except d => negb (Ascii.eqb c d)
  | Dot => negb (Ascii.eqb c LF) && negb (Ascii.eqb c CR)
  end.

Inductive t : Type :=
| Empty
| One (cs : charset)      (* one character of the set *)
| Star (cs : charset)     (* cs* *)
| Opt (cs : charset)      (* cs? *)
| Group (r : t)           (* ( r ), numbered in order of appearance *)
| Seq (r1 r2 : t).

Section Matcher.
Context {R : Type}.

Fixpoint star (cs : charset) (s : string) (k : string -> option R)
  : option R :=
  match s with
  | String c s' =>
      if accepts cs c then
        match star cs s' k with
        | Some r => Some r
        | None => k s
        end
      else k s
  | EmptyString => k s
  end.
End Matcher.

Definition consumed (before after : string) : string :=
  String.substring 0 (String.length before - String.length after) before.

(** [run r s caps k]: match [r] at the front of [s], then continue with [k]
    on the rest and the captures made so far. *)
Fixpoint run (r : t) (s : string) (caps : list string)
    (k : string -> list string -> option (list string))
  : option (list string) :=
  match r with
  | Empty => k s caps
  | One cs =>
      match s with
      | String c s' => if accepts cs c then k s' caps else None
      | EmptyString => None
      end
  | Star cs => star cs s (fun s' => k s' caps)
  | Opt cs =>
      match s with
      | String c s' =>
          if accepts cs c then
            match k s' caps with
            | Some res => Some res
            | None => k s caps
            end
          else k s caps
      | EmptyString => k s caps
      end
  | Group r' => run r' s caps (fun s' caps' => k s' (caps' ++ [consumed s s']))
  | Seq r1 r2 => run r1 s caps (fun s' caps' => run r2 s' caps' k)
  end.

(** Reading a pattern: an optional leading [^] and trailing [$], groups,
    classes of the form "[^c]", [.], literal characters, and the
    quantifiers [*], [+] and [?] after a single character or class. *)
Definition quantified (cs : charset) (s : string) : t * string :=
  match s with
  | String "*" s' => (Star cs, s')
  | String "+" s' => (Seq (One cs) (Star cs), s')
  | String "?" s' => (Opt cs, s')
  | _ => (One cs, s)
  end.

Fixpoint parse_seq (fuel : nat) (s : string) : option (t * string) :=
  match fuel with
  | O => None
  | S fuel' =>
      let continue (rs : t * string) :=
        '(r2, s2) ← parse_seq fuel' rs.2; Some (Seq rs.1 r2, s2) in
      match s with
      | EmptyString => Some (Empty, EmptyString)
      | String ")" _ => Some (Empty, s)
      | String "$" EmptyString => Some (Empty, EmptyString)
      | String "(" s1 =>
          match parse_seq fuel' s1 with
          | Some (r, String ")" s2) => continue (Group r, s2)
          | _ => None
          end
      | String "[" (String "^" (String c (String "]" s1))) =>
          continue (quantified (Except c) s1)
      | String "." s1 => continue (quantified Dot s1)
      | String c s1 => continue (quantified (Only c) s1)
      end
  end.

Definition compile (pat : string) : option t :=
  let body := match pat with String "^" s => s | _ => pat end in
  match parse_seq (S (String.length body)) body with
  | Some (r, EmptyString) => Some r
  | _ => None
  end.

(** [std::regex_match]: the whole of [s] has to match; the result lists
    the sub-matches 1, 2, ... *)
Definition regex_match (r : t) (s : string) : option (list string) :=
  run r s [] (fun s' caps =>
    match s' with EmptyString => Some caps | _ => None end).

End Regex.

(** ** code/http/httprequest.cpp *)

Module HttpRequest.

Inductive PARSE_STATE : Type := REQUEST_LINE | HEADERS | BODY | FINISH.

#[global] Instance PARSE_STATE_eq_dec : EqDecision PARSE_STATE.
Proof. solve_decision. Defined.

Record t : Type := mk {
  state_ : PARSE_STATE;
  method_ : string;
  path_ : string;
  version_ : string;
  body_ : string;
  header_ : gmap string string;
  post_ : gmap string string
}.

(** [HttpRequest::Init] *)
Definition Init : t :=
  mk REQUEST_LINE EmptyString EmptyString EmptyString EmptyString ∅ ∅.

Definition set_state (st : PARSE_STATE) (r : t) : t :=
  mk st (method_ r) (path_ r) (version_ r) (body_ r) (header_ r) (post_ r).
Definition set_path (p : string) (r : t) : t :=
  mk (state_ r) (method_ r) p (version_ r) (body_ r) (header_ r) (post_ r).
Definition set_body (b : string) (r : t) : t :=
  mk (state_ r) (method_ r) (path_ r) (version_ r) b (header_ r) (post_ r).
Definition set_header (h : gmap string string) (r : t) : t :=
  mk (state_ r) (method_ r) (path_ r) (version_ r) (body_ r) h (post_ r).
Definition set_post (p : gmap string string) (r : t) : t :=
  mk (state_ r) (method_ r) (path_ r) (version_ r) (body_ r) (header_ r) p.

Definition DEFAULT_HTML : list string :=
  ["/index"; "/register"; "/login"; "/welcome"; "/video"; "/picture";
   "/favicon.ico"]%string.

Definition DEFAULT_HTML_TAG : gmap string Z :=
  <["/register.html"%string := 0]> (<["/login.html"%string := 1]> ∅).

(** The pattern of [ParseRequestLine_]. *)
Definition request_line_source : string :=
  "^([^ ]*) ([^ ]*) HTTP/([^ ]*)$".

Definition request_line_patten : Regex.t :=
  Eval vm_compute in
    match Regex.compile request_line_source with
    | Some r => r
    | None => Regex.Empty
    end.

(** The pattern of [ParseHeader_]. *)
Definition header_source : string := "^([^:]*): ?(.*)$".

Definition header_patten : Regex.t :=
  Eval vm_compute in
    match Regex.compile header_source with
    | Some r => r
    | None => Regex.Empty
    end.

Definition ParsePath_ (r : t) : result t :=
  if String.eqb (path_ r) "/" then Ok (set_path "/index.html" r)
  else
    let last_slash := find_last_of "/" (path_ r) in
    last_part ← substr_from (path_ r) last_slash;
    if bool_decide (last_part ∈ DEFAULT_HTML)
    then Ok (set_path (path_ r ++ ".html") r)
    else Ok r.

Definition ParseRequestLine_ (line : string) (r : t) : result (bool * t) :=
  match Regex.regex_match request_line_patten line with
  | Some [m; p; v] =>
      let r1 := mk (state_ r) m p v (body_ r) (header_ r) (post_ r) in
      if String.eqb m "GET" || String.eqb m "POST" then
        r2 ← ParsePath_ r1;
        Ok (true, r2)
      else Ok (false, r1)
  | _ => Ok (false, r)
  end.

Definition ParseHeader_ (line : string) (r : t) : t :=
  match Regex.regex_match header_patten line with
  | Some [key; value] => set_header (<[key := value]> (header_ r)) r
  | _ => r
  end.

(** [HttpRequest::ConverHex] *)
Definition ConverHex (ch : ascii) : Z :=
  let c := char_code ch in
  if (char_code "0" <=? c) && (c <=? char_code "9") then c - char_code "0"
  else if (char_code "a" <=? c) && (c <=? char_code "f")
       then c - char_code "a" + 10
  else if (char_code "A" <=? c) && (c <=? char_code "F")
       then c - char_code "A" + 10
  else -1.

(** The variables of [ParseFromUrlencoded_] that its loop changes. *)
Record form_vars : Type := mk_form {
  fv_i : Z;
  fv_j : Z;
  fv_key : string;
  fv_value : string;
  fv_body : string;
  fv_post : gmap string string
}.

(** One pass through the body of [while (i < n)], the [++i] included.
    [/] and [%] on [int] truncate towards zero. *)
Definition form_step (s : form_vars) : result form_vars :=
  let '(mk_form i j key value body post) := s in
  ch ← str_at body i;
  if Ascii.eqb ch "=" then
    key' ← substr body j (i - j);
    Ok (mk_form (i + 1) (i + 1) key' value body post)
  else if Ascii.eqb ch "+" then
    body' ← str_set body i " ";
    Ok (mk_form (i + 1) j key value body' post)
  else if Ascii.eqb ch "%" then
    h1 ← str_at body (i + 1);
    h2 ← str_at body (i + 2);
    let num := ConverHex h1 * 16 + ConverHex h2 in
    body1 ← str_set body (i + 2) (char_of (Z.rem num 10 + char_code "0"));
    body2 ← str_set body1 (i + 1) (char_of (Z.quot num 10 + char_code "0"));
    Ok (mk_form (i + 2 + 1) j key value body2 post)
  else if Ascii.eqb ch "&" then
    value' ← substr body j (i - j);
    Ok (mk_form (i + 1) (i + 1) EmptyString EmptyString body (<[key := value']> post))
  else
    Ok (mk_form (i + 1) j key value body post).

Fixpoint form_loop (fuel : nat) (n : Z) (s : form_vars) : result form_vars :=
  if fv_i s <? n then
    match fuel with
    | O => Fault OutOfFuel
    | S fuel' => s' ← form_step s; form_loop fuel' n s'
    end
  else Ok s.

(** [HttpRequest::ParseFromUrlencoded_]; [n] and the indices are [int]s,
    and a body is far shorter than [INT_MAX]. *)
Definition ParseFromUrlencoded_ (r : t) : result t :=
  if String.eqb (body_ r) EmptyString then Ok r
  else
    let n := str_size (body_ r) in
    s ← form_loop (Z.to_nat n) n (mk_form 0 0 EmptyString EmptyString (body_ r) (post_ r));
    let '(mk_form i j key value body post) := s in
    if String.eqb key EmptyString && (j <? i) then
      key' ← substr body j (i - j);
      Ok (set_post (<[key' := EmptyString]> post) (set_body body r))
    else if negb (String.eqb key EmptyString) && (j <? i) then
      value' ← substr body j (i - j);
      Ok (set_post (<[key := value']> post) (set_body body r))
    else Ok (set_post post (set_body body r)).

(** What one pass through the body of the [while] loop of [parse] does. *)
Inductive step : Type :=
| Break                               (* no complete line: leave the loop *)
| ReturnFalse (buff : Buffer.t) (r : t)
| Continue (buff : Buffer.t) (r : t).

Definition CRLF : list ascii := [CR; LF].

Section WithDatabase.

(** [HttpRequest::UserVerify] talks to MySQL through the connection
    pool; its answer is an input of the model. *)
Variable UserVerify : string -> string -> bool -> result bool.

Definition ParsePost_ (r : t) : result t :=
  if String.eqb (method_ r) "POST" then
    let '(ctype, h) := map_index "Content-Type" (header_ r) in
    let r := set_header h r in
    if String.eqb ctype "application/x-www-form-urlencoded" then
      r ← ParseFromUrlencoded_ r;
      match DEFAULT_HTML_TAG !! path_ r with
      | Some tag =>
          if (tag =? 0) || (tag =? 1) then
            let isLogin := tag =? 1 in
            let '(name, p1) := map_index "username" (post_ r) in
            let '(pwd, p2) := map_index "password" p1 in
            let r := set_post p2 r in
            ok ← UserVerify name pwd isLogin;
            if ok : bool then Ok (set_path "/welcome.html" r)
            else Ok (set_path "/error.html" r)
          else Ok r
      | None => Ok r
      end
    else Ok r
  else Ok r.

Definition ParseBody_ (line : string) (r : t) : result t :=
  ParsePost_ (set_body line r).

(** The [if] / [else if] chain over [state_] inside the loop of [parse],
    for the line just taken out of [buff]. *)
Definition handle_line (line : string) (buff : Buffer.t) (r : t) : result step :=
  match state_ r with
  | REQUEST_LINE =>
      '(ok, r) ← ParseRequestLine_ line r;
      if ok : bool then Ok (Continue buff (set_state HEADERS r))
      else Ok (ReturnFalse buff r)
  | HEADERS =>
      if String.eqb line EmptyString then
        if 0 <? map_count "Content-Length" (header_ r)
        then Ok (Continue buff (set_state BODY r))
        else Ok (Continue buff (set_state FINISH r))
      else Ok (Continue buff (ParseHeader_ line r))
  | BODY =>
      r ← ParseBody_ line r;
      Ok (Continue buff (set_state FINISH r))
  | FINISH => Ok (Continue buff r)
  end.

Definition parse_step (buff : Buffer.t) (r : t) : result step :=
  let line_end := search (Buffer.readable buff) CRLF in
  if Buffer.Peek buff + Z.of_nat line_end =? Buffer.BeginWrite buff
  then Ok Break
  else
    let line :=
      string_of_list_ascii (take line_end (Buffer.readable buff)) in
    buff ← Buffer.RetrieveUntil
             (Buffer.Peek buff + Z.of_nat line_end + 2) buff;
    handle_line line buff r.

Fixpoint parse_loop (fuel : nat) (buff : Buffer.t) (r : t)
  : result (bool * Buffer.t * t) :=
  if (0 <? Buffer.ReadableBytes buff)
     && negb (bool_decide (state_ r = FINISH)) then
    match fuel with
    | O => Fault OutOfFuel
    | S fuel' =>
        s ← parse_step buff r;
        match s with
        | Break => Ok (true, buff, r)
        | ReturnFalse buff' r' => Ok (false, buff', r')
        | Continue buff' r' => parse_loop fuel' buff' r'
        end
    end
  else Ok (true, buff, r).

(** [HttpRequest::parse]; every pass through the loop takes at least
    the two bytes of a CRLF out of the buffer. *)
Definition parse (buff : Buffer.t) (r : t) : result (bool * Buffer.t * t) :=
  if Buffer.ReadableBytes buff <=? 0 then Ok (false, buff, r)
  else parse_loop (Z.to_nat (Buffer.ReadableBytes buff)) buff r.

End WithDatabase.

(** [HttpRequest::IsKeepAlive] *)
Definition IsKeepAlive (r : t) : bool :=
  match header_ r !! "Connection"%string with
  | Some v => String.eqb v "keep-alive" && String.eqb (version_ r) "1.1"
  | None => false
  end.

End HttpRequest.

(** [std::to_string(int)], also the conversion [%d] of [printf]. *)
Definition to_string (z : Z) : string := NilZero.string_of_int (Z.to_int z).

(** ** code/http/httpresponse.cpp *)

Module HttpResponse.

(** What the operating system answers for one path name: the [st_mode] and
    [st_size] that [stat] stores, and whether [open(O_RDONLY)] and [mmap]
    succeed.  A path that is not in the map makes [stat] and [open] fail. *)
Record file : Type := mk_file {
  st_mode : Z;
  st_size : Z;
  can_open : bool;
  can_mmap : bool
}.

Definition S_IFMT : Z := 61440.      (* 0170000 *)
Definition S_IFDIR : Z := 16384.     (* 0040000 *)
Definition S_IFREG : Z := 32768.     (* 0100000 *)
Definition S_IROTH : Z := 4.         (* 0004 *)
Definition S_ISDIR (m : Z) : bool := Z.land m S_IFMT =? S_IFDIR.

Inductive mapping : Type :=
| Null                               (* nullptr *)
| MapFailed                          (* MAP_FAILED *)
| Mapped (name : string).

Record t : Type := mk {
  code_ : Z;
  isKeepAlive_ : bool;
  path_ : string;
  srcDir_ : string;
  mmFile_ : mapping;
  mmFileStat_ : Z * Z                (* st_mode, st_size *)
}.

Definition set_code (c : Z) (r : t) : t :=
  mk c (isKeepAlive_ r) (path_ r) (srcDir_ r) (mmFile_ r) (mmFileStat_ r).
Definition set_path (p : string) (r : t) : t :=
  mk (code_ r) (isKeepAlive_ r) p (srcDir_ r) (mmFile_ r) (mmFileStat_ r).
Definition set_stat (st : Z * Z) (r : t) : t :=
  mk (code_ r) (isKeepAlive_ r) (path_ r) (srcDir_ r) (mmFile_ r) st.
Definition set_file (m : mapping) (r : t) : t :=
  mk (code_ r) (isKeepAlive_ r) (path_ r) (srcDir_ r) m (mmFileStat_ r).

Definition CODE_STATUS : gmap Z string :=
  list_to_map [(200, "OK"); (400, "Bad Request"); (403, "Forbidden");
               (404, "Not Found"); (500, "Internal Server Error")]%string.

Definition CODE_PATH : gmap Z string :=
  list_to_map [(400, "/400.html"); (403, "/403.html"); (404, "/404.html");
               (500, "/500.html")]%string.

Definition SUFFIX_TYPE : gmap string string :=
  list_to_map
    [(".html", "text/html"); (".xml", "text/xml");
     (".xhtml", "application/xhtml+xml"); (".txt", "text/plain");
     (".rtf", "application/rtf"); (".pdf", "application/pdf");
     (".word", "application/msword"); (".png", "image/png");
     (".gif", "image/gif"); (".jpg", "image/jpeg");
     (".jpeg", "image/jpeg"); (".au", "audio/basic");
     (".mpeg", "video/mpeg"); (".mpg", "video/mpeg");
     (".avi", "video/x-msvideo"); (".gz", "application/x-gzip");
     (".tar", "application/x-tar"); (".css", "text/css");
     (".js", "text/javascript")]%string.

(** [HttpResponse::Init] on a response that holds no mapping. *)
Definition Init (srcDir path : string) (isKeepAlive : bool) (code : Z) : t :=
  mk code isKeepAlive path srcDir Null (0, 0).

Section WithFiles.

Variable fs : gmap string file.

(** [stat(name, &mmFileStat_)]: the result, and the response with the
    buffer filled in on success. *)
Definition stat (name : string) (r : t) : Z * t :=
  match fs !! name with
  | Some f => (0, set_stat (st_mode f, st_size f) r)
  | None => (-1, r)
  end.

(** The first statement of [MakeResponse]: the [if] chain over [stat]. *)
Definition check_file (r : t) : t :=
  let '(rc, r) := stat (srcDir_ r ++ path_ r) r in
  if (rc <? 0) || S_ISDIR (fst (mmFileStat_ r)) then set_code 404 r
  else if Z.land (fst (mmFileStat_ r)) S_IROTH =? 0 then set_code 403 r
  else if code_ r =? -1 then set_code 200 r
  else r.

Definition ErrorHtml_ (r : t) : t :=
  match CODE_PATH !! code_ r with
  | Some p =>
      let r := set_path p r in
      let '(rc, r) := stat (srcDir_ r ++ path_ r) r in
      if rc <? 0 then set_code 404 r else r
  | None => r
  end.

Definition AddStateLine_ (buff : Buffer.t) (r : t) : result (Buffer.t * t) :=
  let '(status, r) :=
    match CODE_STATUS !! code_ r with
    | Some st => (st, r)
    | None => (default EmptyString (CODE_STATUS !! 400), set_code 400 r)
    end in
  buff ← Buffer.Append_str
           ("HTTP/1.1 " ++ to_string (code_ r) ++ " " ++ status
              ++ String CR (String LF EmptyString)) buff;
  Ok (buff, r).

Definition GetFileType_ (r : t) : string :=
  match find_last_of "." (path_ r) with
  | Some idx =>
      let suffix := String.substring idx (String.length (path_ r)) (path_ r) in
      match SUFFIX_TYPE !! suffix with
      | Some ty => ty
      | None => "text/plain"
      end
  | None => "text/plain"
  end.

Definition eol : string := String CR (String LF EmptyString).

Definition AddHeader_ (buff : Buffer.t) (r : t) : result Buffer.t :=
  buff ← Buffer.Append_str "Connection: " buff;
  buff ← (if isKeepAlive_ r then
            buff ← Buffer.Append_str ("keep-alive" ++ eol) buff;
            Buffer.Append_str ("Keep-Alive: max=6, timeout=120" ++ eol) buff
          else Buffer.Append_str ("close" ++ eol) buff);
  Buffer.Append_str ("Content-Type: " ++ GetFileType_ r ++ eol) buff.

Definition ErrorContent (buff : Buffer.t) (message : string) (r : t)
  : result Buffer.t :=
  let status :=
    match CODE_STATUS !! code_ r with
    | Some st => st
    | None => "Bad Request"
    end in
  let body :=
    ("<html><title>Error</title>"
     ++ ("<body bgcolor=" ++ String DQUOTE ("ffffff" ++ String DQUOTE ">"))
     ++ (to_string (code_ r) ++ " : " ++ status ++ String LF EmptyString)
     ++ ("<p>" ++ message ++ "</p>")
     ++ "<hr><em> Liu's Web Server</em></body></html>")%string in
  buff ← Buffer.Append_str
           ("Content-Length: " ++ to_string (str_size body) ++ eol) buff;
  buff ← Buffer.Append_str ("Content-Type: text/html" ++ eol) buff;
  buff ← Buffer.Append_str eol buff;
  Buffer.Append_str body buff.

Definition AddContent_ (buff : Buffer.t) (r : t) : result (Buffer.t * t) :=
  let name := (srcDir_ r ++ path_ r)%string in
  match fs !! name with
  | Some f =>
      if can_open f then
        let r := set_file (if can_mmap f then Mapped name else MapFailed) r in
        buff ← (if can_mmap f then Ok buff
                else ErrorContent buff "File Not Found!" r);
        buff ← Buffer.Append_str
                 ("Content-Length: " ++ to_string (snd (mmFileStat_ r))
                    ++ eol) buff;
        buff ← Buffer.Append_str eol buff;
        Ok (buff, r)
      else
        buff ← ErrorContent buff "File Not Found!" r; Ok (buff, r)
  | None => buff ← ErrorContent buff "File Not Found!" r; Ok (buff, r)
  end.

(** The status and path with which the status line is written. *)
Definition resolve (r : t) : t := ErrorHtml_ (check_file r).

Definition MakeResponse (buff : Buffer.t) (r : t) : result (Buffer.t * t) :=
  let r := resolve r in
  '(buff, r) ← AddStateLine_ buff r;
  buff ← AddHeader_ buff r;
  AddContent_ buff r.

End WithFiles.

End HttpResponse.

(** ** code/pool/sqlconnpool.cpp *)

Module SqlConnPool.

(** A [MYSQL*]: the address of the connection object. *)
Definition MYSQL : Type := Z.
Definition nullptr : MYSQL := 0.

Record t : Type := mk {
  MAX_CONN_ : Z;
  connQue_ : list MYSQL;             (* std::queue<MYSQL*>, front first *)
  semId_ : Z                         (* the value of the semaphore *)
}.

(** How a call ends for the calling thread: it returns, it is suspended
    inside [sem_wait], or it is stopped by a failing [assert]. *)
Inductive outcome (A : Type) : Type :=
| Returns (a : A) (s : t)
| Blocks (s : t)
| Aborts.

Arguments Returns {A} a s.
Arguments Blocks {A} s.
Arguments Aborts {A}.

(** The pool object before [Init]. *)
Definition fresh : t := mk 0 [] 0.

(** [SqlConnPool::GetConn] *)
Definition GetConn (s : t) : outcome MYSQL :=
  match connQue_ s with
  | [] => Returns nullptr s                       (* "SqlConnPool busy!" *)
  | front :: rest =>
      if 0 <? semId_ s                            (* sem_wait *)
      then Returns front (mk (MAX_CONN_ s) rest (semId_ s - 1))
      else Blocks s
  end.

(** [SqlConnPool::FreeConn] *)
Definition FreeConn (conn : MYSQL) (s : t) : outcome unit :=
  if conn =? nullptr then Aborts
  else Returns tt (mk (MAX_CONN_ s) (connQue_ s ++ [conn]) (semId_ s + 1)).

(** [SqlConnPool::GetFreeConnCount] *)
Definition GetFreeConnCount (s : t) : Z := Z.of_nat (length (connQue_ s)).

(** [SqlConnPool::Init]; [connect i] is what [mysql_real_connect] returns
    in round [i] of the loop, [nullptr] when the connection fails. *)
Definition Init (connSize : Z) (connect : nat -> MYSQL) (s : t) : outcome unit :=
  if 0 <? connSize then
    Returns tt
      (mk connSize (connQue_ s ++ map connect (seq 0 (Z.to_nat connSize)))
          connSize)
  else Aborts.

(** [SqlConnPool::ClosePool] *)
Definition ClosePool (s : t) : t := mk (MAX_CONN_ s) [] (semId_ s).

(** The calls a single thread makes on the pool, one after the other. *)
Inductive call : Type :=
| CallGet
| CallFree (conn : MYSQL).

(** [run s calls]: the pool after the calls, with the connections that
    the [GetConn] calls returned (latest first); [None] when a call did
    not return. *)
Fixpoint run (s : t) (got : list MYSQL) (calls : list call)
  : option (t * list MYSQL) :=
  match calls with
  | [] => Some (s, got)
  | CallGet :: calls' =>
      match GetConn s with
      | Returns c s' => run s' (c :: got) calls'
      | _ => None
      end
  | CallFree c :: calls' =>
      match FreeConn c s with
      | Returns _ s' => run s' got calls'
      | _ => None
      end
  end.

(** [SqlConnRAII::SqlConnRAII] (sqlconnpool.h): the connection that
    [GetConn] returns is stored through [sql] and kept in [sql_].  The
    pool handed in is the one of [Instance()], so [assert(connpool)]
    holds. *)
Definition SqlConnRAII (s : t) : outcome MYSQL := GetConn s.

(** [SqlConnRAII::~SqlConnRAII] *)
Definition SqlConnRAII_destroy (sql_ : MYSQL) (s : t) : outcome unit :=
  if sql_ =? nullptr then Returns tt s else FreeConn sql_ s.

(** A block that holds one [SqlConnRAII] object and makes no other call on
    the pool; the result is the connection the block worked with. *)
Definition scoped (s : t) : outcome MYSQL :=
  match SqlConnRAII s with
  | Returns sql s1 =>
      match SqlConnRAII_destroy sql s1 with
      | Returns _ s2 => Returns sql s2
      | Blocks s2 => Blocks s2
      | Aborts => Aborts
      end
  | Blocks s1 => Blocks s1
  | Aborts => Aborts
  end.

(** The connections handed back by the calls of a run. *)
Definition freed (calls : list call) : list MYSQL :=
  omap (fun c => match c with CallFree conn => Some conn | CallGet => None end)
       calls.

(** The connections among the results of [GetConn], the null results left
    out. *)
Definition leased (got : list MYSQL) : list MYSQL :=
  filter (fun c => c <> nullptr) got.

End SqlConnPool.

(** ** code/log/log.cpp *)

Module Log.

(** The fields of [struct tm] that the log reads. *)
Record tm : Type := mk_tm {
  tm_year : Z;                       (* years since 1900 *)
  tm_mon : Z;                        (* 0 .. 11 *)
  tm_mday : Z                        (* 1 .. 31 *)
}.

Record t : Type := mk {
  lineCount_ : Z;
  toDay_ : Z;
  path_ : string;
  suffix_ : string;
  MAX_LINES_ : Z;
  fp_ : option string                (* the name the open file was opened by *)
}.

(** The conversion [%0wd] of [printf]. *)
Definition pad0 (w : nat) (z : Z) : string :=
  let digits := to_string (Z.abs z) in
  let sign := if z <? 0 then "-"%string else EmptyString in
  let fill := (w - String.length sign - String.length digits)%nat in
  (sign ++ string_of_list_ascii (repeat "0"%char fill) ++ digits)%string.

(** [snprintf(dst, size, ...)] into an array of [capacity] bytes, given
    the fully formatted text: at most [size - 1] characters are stored,
    then the terminator. *)
Definition snprintf (capacity size : Z) (text : string) : result string :=
  let size := size_t size in
  if size =? 0 then Fault Undefined
  else
    let stored := String.substring 0 (Z.to_nat (size - 1)) text in
    if capacity <? str_size stored + 1 then Fault Undefined
    else Ok stored.

Section WithConstants.

(** [log.h] is not among the sources; its constants are kept abstract. *)
Variables LOG_PATH_LEN LOG_NAME_LEN MAX_LINES : Z.

(** The state set up by the constructor. *)
Definition fresh : t := mk 0 0 EmptyString EmptyString MAX_LINES None.

(** The file name built by [Log::init]. *)
Definition init_fileName (path suffix : string) (now : tm) : result string :=
  snprintf LOG_PATH_LEN (LOG_PATH_LEN - 1)
    (path ++ "/" ++ pad0 4 (tm_year now + 1900) ++ "_"
       ++ pad0 2 (tm_mon now + 1) ++ "_" ++ pad0 2 (tm_mday now)
       ++ suffix).

(** [std::lock_guard<std::mutex> locker(mtx_)], given whether the calling
    thread holds [mtx_] already.  A [std::mutex] is not recursive: to lock
    one that the thread owns is undefined, and where the library does not
    check the thread waits for itself for ever. *)
Definition lock_guard (held : bool) : result unit :=
  if held then Fault Undefined else Ok tt.

(** [Log::flush], as far as the lock goes: it takes [mtx_] before it
    flushes the file, whoever calls it. *)
Definition flush (held : bool) (l : t) : result t :=
  _ ← lock_guard held;
  Ok l.

(** [Log::init], as far as the file and the counters go.  With a file open
    already, [flush] is called inside the block that holds [mtx_]. *)
Definition init (path suffix : string) (now : tm) (l : t) : result t :=
  fileName ← init_fileName path suffix now;
  _ ← lock_guard false;
  l' ← match fp_ l with
       | Some _ => flush true l
       | None => Ok l
       end;
  Ok (mk 0 (tm_mday now) path suffix (MAX_LINES_ l') (Some fileName)).

(** The test that opens the first block of [Log::write]; [MAX_LINES_] is
    positive, [%] by zero being undefined. *)
Definition must_roll (now : tm) (l : t) : bool :=
  negb (toDay_ l =? tm_mday now)
  || (negb (lineCount_ l =? 0)
      && (Z.rem (lineCount_ l) (MAX_LINES_ l) =? 0)).

(** The name of the file that [Log::write] opens when it rolls. *)
Definition roll_fileName (now : tm) (l : t) : result string :=
  tail ← snprintf 36 36
           (path_ l ++ "." ++ pad0 4 (Z.quot (toDay_ l) 10000) ++ "_"
              ++ pad0 2 (Z.quot (Z.rem (toDay_ l) 10000) 100) ++ "_"
              ++ pad0 2 (Z.rem (toDay_ l) 100) ++ suffix_ l);
  if negb (toDay_ l =? tm_mday now) then
    snprintf LOG_PATH_LEN (LOG_NAME_LEN - 72)
      (path_ l ++ "/" ++ tail ++ suffix_ l)
  else
    snprintf LOG_PATH_LEN (LOG_NAME_LEN - 72)
      (path_ l ++ "/" ++ tail ++ "."
         ++ to_string (Z.quot (lineCount_ l) (MAX_LINES_ l)) ++ suffix_ l).

(** [Log::write], as far as the file and the counters go: the first
    block rolls the file, the second one counts the line.  The first block
    holds [mtx_] from its first line on; when the file is to be rolled it
    builds the new name, sets the counters for a new day, and then calls
    [flush], which takes [mtx_] again, before [fclose] and [fopen]. *)
Definition write (now : tm) (l : t) : result t :=
  _ ← lock_guard false;
  l1 ← (if must_roll now l then
          newFile ← roll_fileName now l;
          let counted :=
            if negb (toDay_ l =? tm_mday now)
            then mk 0 (tm_mday now) (path_ l) (suffix_ l)
                    (MAX_LINES_ l) (fp_ l)
            else l in
          flushed ← flush true counted;
          Ok (mk (lineCount_ flushed) (toDay_ flushed) (path_ flushed)
                 (suffix_ flushed) (MAX_LINES_ flushed) (Some newFile))
        else Ok l);
  _ ← lock_guard false;
  Ok (mk (lineCount_ l1 + 1) (toDay_ l1) (path_ l1) (suffix_ l1)
         (MAX_LINES_ l1) (fp_ l1)).

(** [n] calls of [write], all at the time [now]. *)
Fixpoint writes (n : nat) (now : tm) (l : t) : result t :=
  match n with
  | O => Ok l
  | S n' => l' ← writes n' now l; write now l'
  end.

End WithConstants.

(** The layout "<path>/YYYY_MM_DD<suffix>" of the specification for a
    date, and with a sequence number before the suffix. *)
Definition dated_name (path suffix : string) (now : tm) : string :=
  (path ++ "/" ++ pad0 4 (tm_year now + 1900) ++ "_"
     ++ pad0 2 (tm_mon now + 1) ++ "_" ++ pad0 2 (tm_mday now)
     ++ suffix)%string.

Definition dated_name_seq (path suffix : string) (now : tm) (k : Z) : string :=
  (path ++ "/" ++ pad0 4 (tm_year now + 1900) ++ "_"
     ++ pad0 2 (tm_mon now + 1) ++ "_" ++ pad0 2 (tm_mday now)
     ++ "." ++ to_string k ++ suffix)%string.

(** *** The line of an entry *)

(** The title that [Log::AppendLogLevelTitle_] chooses. *)
Definition level_title (level : Z) : string :=
  if level =? 0 then "[debug]: "
  else if level =? 1 then "[info] : "
  else if level =? 2 then "[warn] : "
  else if level =? 3 then "[error]: "
  else "[info] : ".

(** [Log::AppendLogLevelTitle_]: nine bytes of the title. *)
Definition AppendLogLevelTitle_ (level : Z) (buff : Buffer.t) : result Buffer.t :=
  Buffer.Append (take 9 (list_ascii_of_string (level_title level))) buff.

(** [snprintf(buff_.BeginWrite(), size, ...)] and [vsnprintf], given the
    formatted text: at most [size - 1] of its characters are stored from
    the write cursor on, then the terminator; nothing is stored when
    [size] is zero.  The result is the length of the whole text. *)
Definition print_at (size : Z) (text : string) (buff : Buffer.t)
  : result (Z * Buffer.t) :=
  if size =? 0 then Ok (str_size text, buff)
  else
    let stored :=
      take (Z.to_nat (size - 1)) (list_ascii_of_string text) ++ [NUL] in
    v ← Buffer.copy_in stored (Z.to_nat (Buffer.BeginWrite buff))
          (Buffer.buffer_ buff);
    Ok (str_size text,
        Buffer.mk v (Buffer.readPos_ buff) (Buffer.writePos_ buff)).

(** The characters of a C string: those before the first zero byte. *)
Fixpoint until_NUL (l : list ascii) : list ascii :=
  match l with
  | [] => []
  | c :: l' => if Ascii.eqb c NUL then [] else c :: until_NUL l'
  end.

(** The C string that starts at an address inside the vector; without a
    zero byte the read runs past the end. *)
Fixpoint c_str (l : list ascii) : result (list ascii) :=
  match l with
  | [] => Fault Undefined
  | c :: l' =>
      if Ascii.eqb c NUL then Ok []
      else s ← c_str l'; Ok (c :: s)
  end.

(** Where the line goes: into the queue as a [std::string], or through
    [fputs] into the file. *)
Inductive sink : Type :=
| Queued (str : string)
| Written (text : list ascii).

(** The second block of [Log::write], from the time stamp on.  [stamp] is
    the formatted time stamp, [message] the formatted message, and
    [to_queue] the value of [isAsync_ && deque_ && !deque_->full()]. *)
Definition write_line (stamp : string) (level : Z) (message : string)
    (to_queue : bool) (buff : Buffer.t) : result (sink * Buffer.t) :=
  '(n, buff) ← print_at 48 stamp buff;
  let buff := Buffer.HasWritten n buff in
  buff ← AppendLogLevelTitle_ level buff;
  '(m, buff) ← print_at (Buffer.WritableBytes buff) message buff;
  let buff := Buffer.HasWritten m buff in
  buff ← Buffer.Append [LF; NUL] buff;
  if to_queue then
    let '(str, buff) := Buffer.RetrieveAllToStr buff in
    Ok (Queued str, Buffer.RetrieveAll buff)
  else
    text ← c_str (drop (Z.to_nat (Buffer.Peek buff)) (Buffer.buffer_ buff));
    Ok (Written text, Buffer.RetrieveAll buff).

(** What [Log::AsyncWrite_] passes to the file for a string taken out of
    the queue: [fputs(str.c_str(), fp_)]. *)
Definition AsyncWrite_text (str : string) : list ascii :=
  until_NUL (list_ascii_of_string str).

End Log.

(** ** code/log/blockqueue.h

    Every member function works under [mtx_], so the calls of all threads
    on one queue form a sequence of critical sections.  A call that finds
    its condition unmet waits on a condition variable: the mutex is given
    up with the queue unchanged, and the call goes on in a later critical
    section, after a wake-up. *)

Module BlockQueue.

Record t (T : Type) : Type := mk {
  deq_ : list T;                     (* std::deque<T>, front first *)
  isClose_ : bool;
  capacity_ : Z
}.

Arguments mk {T} deq_ isClose_ capacity_.
Arguments deq_ {T} _.
Arguments isClose_ {T} _.
Arguments capacity_ {T} _.

(** How a critical section ends: the call returns, or it waits. *)
Inductive outcome (T A : Type) : Type :=
| Returns (a : A) (s : t T)
| Waits (s : t T).

Arguments Returns {T A} a s.
Arguments Waits {T A} s.

(** [BlockQueue(size_t maxsize)] *)
Definition init {T} (maxsize : Z) : result (t T) :=
  _ ← assert (0 <? maxsize);
  Ok (mk [] false maxsize).

Definition size {T} (s : t T) : Z := Z.of_nat (length (deq_ s)).

Definition empty {T} (s : t T) : bool :=
  match deq_ s with [] => true | _ :: _ => false end.

Definition full {T} (s : t T) : bool := capacity_ s <=? size s.

Definition capacity {T} (s : t T) : Z := capacity_ s.

(** [push_back]: the test of the [while] loop, then the insertion.  A
    producer that was woken runs the test again. *)
Definition push_back {T} (item : T) (s : t T) : outcome T unit :=
  if capacity_ s <=? size s then Waits s
  else Returns tt (mk (deq_ s ++ [item]) (isClose_ s) (capacity_ s)).

Definition push_front {T} (item : T) (s : t T) : outcome T unit :=
  if capacity_ s <=? size s then Waits s
  else Returns tt (mk (item :: deq_ s) (isClose_ s) (capacity_ s)).

(** [pop(T& item)]: [Some item] stands for [true] with the item stored,
    [None] for [false].  [pop] is the call up to its first wait or its
    return; [pop_woken] is what it does when [condConsumer_.wait]
    returns. *)
Definition pop {T} (s : t T) : outcome T (option T) :=
  match deq_ s with
  | [] => Waits s
  | front :: rest =>
      if isClose_ s then Waits s
      else Returns (Some front) (mk rest (isClose_ s) (capacity_ s))
  end.

Definition pop_woken {T} (s : t T) : outcome T (option T) :=
  if isClose_ s then Returns None s else pop s.

(** [pop(T& item, int timeout)]; [timed_out] says whether [wait_for]
    returned [cv_status::timeout]. *)
Definition pop_timed {T} (s : t T) : outcome T (option T) :=
  match deq_ s with
  | [] => Waits s
  | front :: rest => Returns (Some front) (mk rest (isClose_ s) (capacity_ s))
  end.

Definition pop_timed_woken {T} (timed_out : bool) (s : t T)
  : outcome T (option T) :=
  if timed_out then Returns None s
  else if isClose_ s then Returns None s
  else pop_timed s.

Definition clear {T} (s : t T) : t T := mk [] (isClose_ s) (capacity_ s).

(** [front()] and [back()]: on an empty deque the behaviour is undefined. *)
Definition front {T} (s : t T) : result T :=
  match deq_ s with
  | x :: _ => Ok x
  | [] => Fault Undefined
  end.

Definition back {T} (s : t T) : result T :=
  match last (deq_ s) with
  | Some x => Ok x
  | None => Fault Undefined
  end.

(** [Close()] *)
Definition Close {T} (s : t T) : t T := mk [] true (capacity_ s).

(** One critical section of some thread. *)
Inductive event (T : Type) : Type :=
| PushBack (item : T)
| PushFront (item : T)
| Pop
| PopWoken
| PopTimed
| PopTimedWoken (timed_out : bool)
| Clear
| DoClose.

Arguments PushBack {T} item.
Arguments PushFront {T} item.
Arguments Pop {T}.
Arguments PopWoken {T}.
Arguments PopTimed {T}.
Arguments PopTimedWoken {T} timed_out.
Arguments Clear {T}.
Arguments DoClose {T}.

(** What an observer of the queue has seen: the items whose push returned
    and the items that a pop delivered, both in the order of the events. *)
Record trace (T : Type) : Type := mk_trace {
  accepted : list T;
  delivered : list T
}.

Arguments mk_trace {T} accepted delivered.
Arguments accepted {T} _.
Arguments delivered {T} _.

Definition after_push {T} (item : T) (o : outcome T unit) (tr : trace T)
  : t T * trace T :=
  match o with
  | Returns _ s => (s, mk_trace (accepted tr ++ [item]) (delivered tr))
  | Waits s => (s, tr)
  end.

Definition after_pop {T} (o : outcome T (option T)) (tr : trace T)
  : t T * trace T :=
  match o with
  | Returns (Some item) s => (s, mk_trace (accepted tr) (delivered tr ++ [item]))
  | Returns None s => (s, tr)
  | Waits s => (s, tr)
  end.

Definition step {T} (e : event T) (s : t T) (tr : trace T) : t T * trace T :=
  match e with
  | PushBack item => after_push item (push_back item s) tr
  | PushFront item => after_push item (push_front item s) tr
  | Pop => after_pop (pop s) tr
  | PopWoken => after_pop (pop_woken s) tr
  | PopTimed => after_pop (pop_timed s) tr
  | PopTimedWoken timed_out => after_pop (pop_timed_woken timed_out s) tr
  | Clear => (clear s, tr)
  | DoClose => (Close s, tr)
  end.

Fixpoint exec {T} (es : list (event T)) (s : t T) (tr : trace T)
  : t T * trace T :=
  match es with
  | [] => (s, tr)
  | e :: es' => let '(s', tr') := step e s tr in exec es' s' tr'
  end.

(** Events that leave the order of the queue alone: no [push_front], no
    [clear] and no [Close]. *)
Definition plain_events {T} (es : list (event T)) : Prop :=
  Forall (fun e => match e with
                   | PushFront _ | Clear | DoClose => False
                   | _ => True
                   end) es.

End BlockQueue.

(** ** code/pool/threadpool.h

    The queue of tasks and the flag are read and written under [mutex_]
    only; a task runs with the mutex released. *)

Module ThreadPool.

Record POOL (Task : Type) : Type := mk {
  closed_ : bool;
  tasks_ : list Task                 (* std::queue, front first *)
}.

Arguments mk {Task} closed_ tasks_.
Arguments closed_ {Task} _.
Arguments tasks_ {Task} _.

(** The pool that the constructor shares with its workers. *)
Definition init {Task} : POOL Task := mk false [].

(** What a worker does with the mutex held, from the top of its loop:
    it takes the task at the front and goes to run it, it leaves the loop,
    or it waits on [cond_]. *)
Inductive action (Task : Type) : Type :=
| Run (task : Task)
| Exit
| Wait.

Arguments Run {Task} task.
Arguments Exit {Task}.
Arguments Wait {Task}.

Definition worker {Task} (p : POOL Task) : action Task * POOL Task :=
  match tasks_ p with
  | task :: rest => (Run task, mk (closed_ p) rest)
  | [] => if closed_ p then (Exit, p) else (Wait, p)
  end.

(** [AddTask], for a pool object whose [pool_] is set. *)
Definition AddTask {Task} (task : Task) (p : POOL Task) : POOL Task :=
  mk (closed_ p) (tasks_ p ++ [task]).

(** [~ThreadPool] *)
Definition close {Task} (p : POOL Task) : POOL Task := mk true (tasks_ p).

(** One critical section: of the thread that owns the pool object, or of
    worker number [w]. *)
Inductive event (Task : Type) : Type :=
| Add (task : Task)
| Worker (w : nat)
| Close.

Arguments Add {Task} task.
Arguments Worker {Task} w.
Arguments Close {Task}.

(** The pool, the workers that have left their loop, and the tasks started
    so far, in the order in which they were taken. *)
Record state (Task : Type) : Type := mk_state {
  pool : POOL Task;
  exited : list nat;
  started : list Task
}.

Arguments mk_state {Task} pool exited started.
Arguments pool {Task} _.
Arguments exited {Task} _.
Arguments started {Task} _.

Definition step {Task} (e : event Task) (s : state Task) : state Task :=
  match e with
  | Add task => mk_state (AddTask task (pool s)) (exited s) (started s)
  | Close => mk_state (close (pool s)) (exited s) (started s)
  | Worker w =>
      if bool_decide (w ∈ exited s) then s
      else match worker (pool s) with
           | (Run task, p) => mk_state p (exited s) (started s ++ [task])
           | (Exit, p) => mk_state p (w :: exited s) (started s)
           | (Wait, p) => mk_state p (exited s) (started s)
           end
  end.

Definition exec {Task} (es : list (event Task)) (s : state Task) : state Task :=
  fold_left (fun s e => step e s) es s.

(** Whether the destructor is among the events. *)
Definition closes {Task} (es : list (event Task)) : bool :=
  existsb (fun e => match e with Close => true | _ => false end) es.

(** The tasks handed to [AddTask] by the events. *)
Definition added {Task} (es : list (event Task)) : list Task :=
  omap (fun e => match e with Add task => Some task | _ => None end) es.

End ThreadPool.


(** * Vocabulary of the properties *)

(** The cursor invariant of the buffer. *)
Record Buffer_inv (b : Buffer.t) : Prop := {
  inv_read : 0 <= Buffer.readPos_ b;
  inv_read_write : Buffer.readPos_ b <= Buffer.writePos_ b;
  inv_write_size : Buffer.writePos_ b <= Buffer.size b
}.

(** A vector never holds more than [max_size()] elements. *)
Definition Buffer_fits (b : Buffer.t) : Prop :=
  Buffer.size b <= vector_max_size.

(** A buffer whose readable region is exactly the text [s], as after a
    read that filled an empty buffer of that size. *)
Definition received (s : string) : Buffer.t :=
  Buffer.mk (list_ascii_of_string s) 0 (str_size s).

(** The line that the next pass through the loop of [parse] takes out of the
    buffer: the readable bytes before the first CRLF, if there is one. *)
Definition next_line (buff : Buffer.t) : option string :=
  let k := search (Buffer.readable buff) HttpRequest.CRLF in
  if decide (k < length (Buffer.readable buff))%nat
  then Some (string_of_list_ascii (take k (Buffer.readable buff)))
  else None.

(** The header syntax as the specification words it. *)
Definition spec_header_source : string := "^([^:]+): ?(.*)$".

Definition spec_header_patten : Regex.t :=
  Eval vm_compute in
    match Regex.compile spec_header_source with
    | Some r => r
    | None => Regex.Empty
    end.

(** A header line read without the pattern: the key is what stands before
    the first colon, the value what follows it, less one blank; the part
    after the colon holds no carriage return and no line feed. *)
Fixpoint cut_at (c : ascii) (s : string) : option (string * string) :=
  match s with
  | EmptyString => None
  | String d s' =>
      if Ascii.eqb d c then Some (EmptyString, s')
      else match cut_at c s' with
           | Some (a, b) => Some (String d a, b)
           | None => None
           end
  end.

Fixpoint one_line (s : string) : bool :=
  match s with
  | EmptyString => true
  | String d s' => Regex.accepts Regex.Dot d && one_line s'
  end.

Definition header_fields (line : string) : option (list string) :=
  match cut_at ":" line with
  | Some (key, rest) =>
      if one_line rest then
        Some [key; match rest with
                   | String c value => if Ascii.eqb c " " then value else rest
                   | EmptyString => rest
                   end]
      else None
  | None => None
  end.

(** A request line read without the pattern: method and target end at the
    first and second blank, [HTTP/] follows, and the version holds no
    blank. *)
Fixpoint strip_prefix (pre s : string) : option string :=
  match pre, s with
  | EmptyString, _ => Some s
  | String c pre', String d s' =>
      if Ascii.eqb d c then strip_prefix pre' s' else None
  | String _ _, EmptyString => None
  end.

Fixpoint free_of (c : ascii) (s : string) : bool :=
  match s with
  | EmptyString => true
  | String d s' => negb (Ascii.eqb d c) && free_of c s'
  end.

Definition request_fields (line : string) : option (list string) :=
  match cut_at " " line with
  | Some (m, rest) =>
      match cut_at " " rest with
      | Some (p, rest') =>
          match strip_prefix "HTTP/" rest' with
          | Some v => if free_of " " v then Some [m; p; v] else None
          | None => None
          end
      | None => None
      end
  | None => None
  end.



(** The status codes that have an error page, and the page of each. *)
Definition error_codes : list Z := [400; 403; 404; 500].

Definition error_page (c : Z) : string :=
  ("/" ++ to_string c ++ ".html")%string.

(** What holds of the pool between the calls of a single thread: the
    semaphore counts the idle connections, and none of them is null. *)
Definition pool_settled (s : SqlConnPool.t) : Prop :=
  SqlConnPool.semId_ s = SqlConnPool.GetFreeConnCount s
  /\ Forall (fun c => c <> SqlConnPool.nullptr) (SqlConnPool.connQue_ s).

(** A database that accepts nobody, for requests that never ask it. *)
Definition no_database : string -> string -> bool -> result bool :=
  fun _ _ _ => Ok false.


(** Sample states.  An eight-byte buffer with two bytes read and four more
    to read. *)
Definition sample_buffer : Buffer.t :=
  Buffer.mk (list_ascii_of_string "abcdefgh") 2 6.

(** A request line, a line that is no header, and the start of another
    line; and the buffer once the request line has been taken out. *)
Definition sample_request : string :=
  ("GET / HTTP/1.1" ++ crlf ++ "bad header" ++ crlf ++ "Ho")%string.

Definition sample_headers : Buffer.t :=
  Buffer.mk (list_ascii_of_string sample_request) 16 30.


(** The value of a hexadecimal digit read off the digit strings, [-1] for
    any other character. *)
Fixpoint index_of (c : ascii) (s : string) : option nat :=
  match s with
  | EmptyString => None
  | String d s' =>
      if Ascii.eqb d c then Some O
      else match index_of c s' with Some k => Some (S k) | None => None end
  end.

Definition hex_value (ch : ascii) : Z :=
  match index_of ch "0123456789abcdef", index_of ch "ABCDEF" with
  | Some k, _ => Z.of_nat k
  | None, Some k => 10 + Z.of_nat k
  | None, None => -1
  end.

(** Two results of [parse] that agree in all but the storage of the
    buffer. *)
Inductive same_result : result (bool * Buffer.t * HttpRequest.t)
    -> result (bool * Buffer.t * HttpRequest.t) -> Prop :=
| same_ok ok b1 b2 r :
    Buffer.readable b1 = Buffer.readable b2 ->
    same_result (Ok (ok, b1, r)) (Ok (ok, b2, r))
| same_fault f : same_result (Fault f) (Fault f).

(** The bytes of a list of lines, each one closed by CRLF. *)
Definition lines_text (ls : list string) : list ascii :=
  concat (map (fun l => list_ascii_of_string l ++ HttpRequest.CRLF) ls).

(** A line of a header block: not empty, and without a carriage return. *)
Definition header_line (l : string) : Prop :=
  l <> EmptyString /\ free_of CR l = true.

(** The header lines handed to [ParseHeader_] one after the other. *)
Definition parse_headers (ls : list string) (r : HttpRequest.t) : HttpRequest.t :=
  fold_left (fun r l => HttpRequest.ParseHeader_ l r) ls r.

(** Text that the form decoder reads without meeting a separator or an
    escape. *)
Definition form_plain (s : string) : bool :=
  free_of "=" s && free_of "&" s && free_of "%" s.

(** The text with every [+] turned into a blank. *)
Fixpoint unplus (s : string) : string :=
  match s with
  | EmptyString => EmptyString
  | String c s' => String (if Ascii.eqb c "+" then " "%char else c) (unplus s')
  end.

(** A segment of a form body, of the shape "key=value" or without [=]. *)
Definition segment : Type := option string * string.

Definition segment_text (s : segment) : string :=
  match s with
  | (Some k, v) => (k ++ "=" ++ v)%string
  | (None, w) => w
  end.

Definition segment_plain (s : segment) : Prop :=
  match s with
  | (Some k, v) => form_plain k = true /\ form_plain v = true
  | (None, w) => form_plain w = true
  end.

(** The segments, each one followed by [&]. *)
Fixpoint form_text (segs : list segment) : string :=
  match segs with
  | [] => EmptyString
  | s :: segs' => (segment_text s ++ "&" ++ form_text segs')%string
  end.

(** What a segment followed by [&] leaves in the map, and what the segment
    at the end of the body leaves. *)
Definition store_segment (post : gmap string string) (s : segment)
  : gmap string string :=
  match s with
  | (Some k, v) => <[unplus k := unplus v]> post
  | (None, w) => <[EmptyString := unplus w]> post
  end.

Definition store_last (s : segment) (post : gmap string string)
  : gmap string string :=
  match s with
  | (Some k, v) =>
      if String.eqb v EmptyString then post
      else if String.eqb k EmptyString then <[unplus v := EmptyString]> post
      else <[unplus k := unplus v]> post
  | (None, w) =>
      if String.eqb w EmptyString then post
      else <[unplus w := EmptyString]> post
  end.

(** The variables of the decoder when it has read [pre] and has [rest]
    before it. *)
Definition form_at (pre rest : string) (j : Z) (key : string)
    (post : gmap string string) : HttpRequest.form_vars :=
  HttpRequest.mk_form (str_size pre) j key EmptyString (pre ++ rest) post.

(** The status codes that have a reason phrase. *)
Definition known_codes : list Z := [200; 400; 403; 404; 500].

(** * The buffer *)

Section BufferFacts.
Import Buffer.

Lemma size_t_small z : 0 <= z < 2 ^ 64 -> size_t z = z.
Proof. intros. unfold size_t. apply Z.mod_small. lia. Qed.

Lemma ReadableBytes_inv b :
  Buffer_inv b -> Buffer_fits b -> ReadableBytes b = writePos_ b - readPos_ b.
Proof.
  intros [] Hf. unfold Buffer_fits, vector_max_size in Hf.
  unfold ReadableBytes. apply size_t_small. lia.
Qed.

Lemma WritableBytes_inv b :
  Buffer_inv b -> Buffer_fits b -> WritableBytes b = size b - writePos_ b.
Proof.
  intros [] Hf. unfold Buffer_fits, vector_max_size in Hf.
  unfold WritableBytes. apply size_t_small. lia.
Qed.

(** A new buffer and a buffer that has just been filled are within the
    invariant. *)
Lemma init_inv n : Buffer_inv (init n).
Proof. split; unfold size; simpl; lia. Qed.

Lemma received_inv s : Buffer_inv (received s).
Proof.
  split; unfold received, size, str_size; simpl; try lia.
  clear. induction s as [|c s IH]; simpl; lia.
Qed.

Lemma length_readable b :
  Buffer_inv b ->
  Z.of_nat (length (readable b)) = writePos_ b - readPos_ b.
Proof.
  intros []. unfold readable, range, size in *.
  rewrite length_take, length_drop. lia.
Qed.

(** Forward element-wise copy towards lower addresses moves the block
    intact although the ranges overlap. *)
Lemma copy_within_spec n : forall src dst v,
  (dst <= src)%nat -> (src + n <= length v)%nat ->
  exists v', copy_within n src dst v = Ok v'
    /\ length v' = length v
    /\ (forall i, (i < n)%nat -> v' !! (dst + i)%nat = v !! (src + i)%nat)
    /\ (forall k, (k < dst)%nat \/ (dst + n <= k)%nat -> v' !! k = v !! k).
Proof.
  induction n as [|n IH]; intros src dst v Hle Hlen; simpl.
  - exists v. repeat split; auto. intros i Hi. lia.
  - destruct (lookup_lt_is_Some_2 v src) as [c Hc]; [lia|].
    rewrite Hc. destruct (decide (dst < length v)%nat) as [_|Hn]; [|lia].
    destruct (IH (S src) (S dst) (<[dst := c]> v)) as (v' & Hrun & Hl & Hin & Hout).
    { lia. } { rewrite length_insert. lia. }
    exists v'. rewrite length_insert in Hl. repeat split; auto.
    + intros [|i] Hi.
      * rewrite Nat.add_0_r, Hout by lia.
        rewrite list_lookup_insert_eq by lia. now rewrite Nat.add_0_r.
      * replace (dst + S i)%nat with (S dst + i)%nat by lia.
        rewrite Hin by lia. rewrite list_lookup_insert_ne by lia.
        f_equal. lia.
    + intros k Hk. rewrite Hout by lia. apply list_lookup_insert_ne. lia.
Qed.

Lemma copy_in_spec data : forall dst v,
  (dst + length data <= length v)%nat ->
  copy_in data dst v
  = Ok (take dst v ++ data ++ drop (dst + length data) v).
Proof.
  induction data as [|c data IH]; intros dst v Hlen; simpl in *.
  - rewrite Nat.add_0_r, take_drop. reflexivity.
  - destruct (decide (dst < length v)%nat) as [_|Hn]; [|lia].
    rewrite IH by (rewrite length_insert; lia).
    f_equal. rewrite drop_insert_lt by lia.
    replace (S dst + length data)%nat with (dst + S (length data))%nat by lia.
    rewrite (take_S_r _ _ c) by (apply list_lookup_insert_eq; lia).
    rewrite take_insert_ge by lia. now rewrite <- app_assoc.
Qed.

Lemma copy_in_length data dst v v' :
  copy_in data dst v = Ok v' -> length v' = length v.
Proof.
  revert dst v. induction data as [|c data IH]; intros dst v; simpl.
  - intros [= <-]. reflexivity.
  - destruct (decide _); [|discriminate].
    intros H. apply IH in H. now rewrite length_insert in H.
Qed.

End BufferFacts.

Section BufferGrowth.
Import Buffer.

Lemma range_app_l v k from to :
  0 <= from <= to -> to <= Z.of_nat (length v) ->
  range (v ++ k) from to = range v from to.
Proof.
  intros Hft Hto. unfold range.
  rewrite drop_app_le by lia. apply take_app_le. rewrite length_drop. lia.
Qed.

Lemma resize_grow n v :
  Z.of_nat (length v) <= n <= vector_max_size ->
  exists k, resize n v = Ok (v ++ k) /\ Z.of_nat (length (v ++ k)) = n.
Proof.
  intros Hn. unfold resize.
  destruct (Z.ltb_spec vector_max_size n) as [|_]; [lia|].
  eexists. split.
  - rewrite take_ge by lia. reflexivity.
  - rewrite length_app, repeat_length. lia.
Qed.

(** The two branches of [MakeSpace_]. *)
Lemma MakeSpace_resize need b :
  Buffer_inv b -> Buffer_fits b -> 0 <= need ->
  writePos_ b + need < vector_max_size ->
  (size b - writePos_ b) + readPos_ b < need ->
  exists v, MakeSpace_ need b = Ok (mk v (readPos_ b) (writePos_ b))
    /\ Z.of_nat (length v) = writePos_ b + need + 1
    /\ readable (mk v (readPos_ b) (writePos_ b)) = readable b.
Proof.
  intros Hi Hf Hn Hmax Hlt. pose proof Hi as [H0 Hrw Hws].
  unfold MakeSpace_. rewrite WritableBytes_inv by assumption.
  unfold PrependableBytes, Buffer_fits, vector_max_size, size in *.
  rewrite !size_t_small by lia.
  destruct (Z.ltb_spec (Z.of_nat (length (buffer_ b)) - writePos_ b + readPos_ b) need)
    as [_|]; [|lia].
  destruct (resize_grow (writePos_ b + need + 1) (buffer_ b)) as (k & -> & Hlen).
  { unfold vector_max_size. lia. }
  exists (buffer_ b ++ k). split; [reflexivity|]. split; [assumption|].
  unfold readable. simpl. apply range_app_l; lia.
Qed.

Lemma MakeSpace_compact need b :
  Buffer_inv b -> Buffer_fits b ->
  need <= (size b - writePos_ b) + readPos_ b ->
  exists v, MakeSpace_ need b = Ok (mk v 0 (writePos_ b - readPos_ b))
    /\ length v = length (buffer_ b)
    /\ readable (mk v 0 (writePos_ b - readPos_ b)) = readable b.
Proof.
  intros Hi Hf Hge. pose proof Hi as [H0 Hrw Hws].
  unfold MakeSpace_. rewrite WritableBytes_inv, ReadableBytes_inv by assumption.
  unfold PrependableBytes, Buffer_fits, vector_max_size, size in *.
  rewrite !size_t_small by lia.
  destruct (Z.ltb_spec (Z.of_nat (length (buffer_ b)) - writePos_ b + readPos_ b) need)
    as [|_]; [lia|].
  destruct (copy_within_spec (Z.to_nat (writePos_ b - readPos_ b))
              (Z.to_nat (readPos_ b)) 0 (buffer_ b))
    as (v & -> & Hlen & Hin & _); [lia | lia |].
  simpl. unfold ReadableBytes. simpl.
  rewrite !size_t_small by lia.
  replace (0 + (writePos_ b - readPos_ b) - 0) with (writePos_ b - readPos_ b) by lia.
  rewrite Z.eqb_refl. simpl.
  replace (0 + (writePos_ b - readPos_ b)) with (writePos_ b - readPos_ b) by lia.
  exists v. split; [reflexivity|]. split; [assumption|].
  unfold readable, range. simpl. rewrite Z.sub_0_r, drop_0.
  apply list_eq. intros i.
  destruct (decide (i < Z.to_nat (writePos_ b - readPos_ b))%nat) as [Hi'|Hi'].
  - rewrite !lookup_take_lt by lia. rewrite lookup_drop.
    specialize (Hin i Hi'). simpl in Hin. exact Hin.
  - rewrite !lookup_take_ge by lia. reflexivity.
Qed.

Lemma EnsureWriteable_spec need b :
  Buffer_inv b -> Buffer_fits b -> 0 <= need ->
  writePos_ b + need < vector_max_size ->
  exists b', EnsureWriteable need b = Ok b'
    /\ Buffer_inv b' /\ Buffer_fits b'
    /\ need <= size b' - writePos_ b'
    /\ writePos_ b' + need < vector_max_size
    /\ readable b' = readable b.
Proof.
  intros Hi Hf Hn Hmax. pose proof Hi as [H0 Hrw Hws].
  unfold EnsureWriteable. rewrite WritableBytes_inv by assumption.
  assert (Hdone : forall b1, Buffer_inv b1 -> Buffer_fits b1 ->
            need <= size b1 - writePos_ b1 ->
            writePos_ b1 + need < vector_max_size ->
            readable b1 = readable b ->
            exists b', (_ ← assert (need <=? WritableBytes b1); Ok b1) = Ok b'
              /\ Buffer_inv b' /\ Buffer_fits b'
              /\ need <= size b' - writePos_ b'
              /\ writePos_ b' + need < vector_max_size
              /\ readable b' = readable b).
  { intros b1 Hi1 Hf1 Hw1 Hm1 Hr1. exists b1.
    rewrite WritableBytes_inv by assumption.
    destruct (Z.leb_spec need (size b1 - writePos_ b1)); [|lia].
    simpl. auto 10. }
  destruct (Z.ltb_spec (size b - writePos_ b) need) as [Hlt|Hge].
  - destruct (Z.lt_ge_cases (size b - writePos_ b + readPos_ b) need) as [Hr|Hc].
    + destruct (MakeSpace_resize need b) as (v & -> & Hlen & Hrd); auto.
      simpl. apply Hdone; auto.
      * split; simpl; unfold size; simpl; lia.
      * unfold Buffer_fits, size. simpl. lia.
      * unfold size. simpl. lia.
    + destruct (MakeSpace_compact need b) as (v & -> & Hlen & Hrd); auto.
      simpl. apply Hdone; auto.
      * split; simpl; unfold size in *; simpl; lia.
      * unfold Buffer_fits, size in *. simpl. lia.
      * unfold size in *. simpl. lia.
      * simpl. lia.
  - simpl. apply Hdone; auto.
Qed.

Lemma range_write_at v from to data :
  0 <= from <= to -> (Z.to_nat to + length data <= length v)%nat ->
  range (take (Z.to_nat to) v ++ data ++ drop (Z.to_nat to + length data) v)
        from (to + Z.of_nat (length data))
  = range v from to ++ data.
Proof.
  intros Hft Hlen. unfold range.
  rewrite drop_app_le by (rewrite length_take; lia).
  rewrite app_assoc.
  rewrite take_app_length'.
  - rewrite take_drop_commute. f_equal. f_equal. f_equal. lia.
  - rewrite length_app, length_drop, length_take. lia.
Qed.

Lemma Append_spec data b :
  Buffer_inv b -> Buffer_fits b ->
  writePos_ b + Z.of_nat (length data) < vector_max_size ->
  exists b', Append data b = Ok b'
    /\ Buffer_inv b' /\ Buffer_fits b'
    /\ readable b' = readable b ++ data.
Proof.
  intros Hi Hf Hmax. unfold Append.
  assert (Hlen : size_t (Z.of_nat (length data)) = Z.of_nat (length data)).
  { destruct Hi. apply size_t_small. unfold vector_max_size in Hmax. lia. }
  rewrite Hlen.
  destruct (EnsureWriteable_spec (Z.of_nat (length data)) b)
    as (b1 & -> & Hi1 & Hf1 & Hw1 & Hm1 & Hr1); [assumption..|lia|assumption|].
  pose proof Hi1 as [H0 Hrw Hws]. simpl. unfold BeginWrite.
  rewrite copy_in_spec by (unfold size in *; lia). simpl.
  eexists. split; [reflexivity|].
  unfold HasWritten. simpl.
  rewrite size_t_small by (unfold vector_max_size in *; lia).
  assert (Hl : length (take (Z.to_nat (writePos_ b1)) (buffer_ b1) ++ data
                 ++ drop (Z.to_nat (writePos_ b1) + length data) (buffer_ b1))
               = length (buffer_ b1)).
  { rewrite !length_app, length_take, length_drop. unfold size in *. lia. }
  split; [|split].
  - split; simpl; unfold size in *; simpl; try lia.
  - unfold Buffer_fits, size in *. simpl. lia.
  - rewrite <- Hr1. unfold readable. simpl.
    apply range_write_at; unfold size in *; lia.
Qed.

(** *** The operations as far as they return

    The lemmas above give the result of a call under a bound on the sizes;
    the ones below say what a call has done whenever it has returned. *)


Lemma copy_within_length n : forall src dst v v',
  copy_within n src dst v = Ok v' -> length v' = length v.
Proof.
  induction n as [|n IH]; intros src dst v v'; simpl.
  - now intros [= <-].
  - destruct (v !! src); [|discriminate].
    destruct (decide _); [|discriminate].
    intros H. apply IH in H. now rewrite length_insert in H.
Qed.




End BufferGrowth.

Section BufferProperties.
Import Buffer.

Lemma EnsureWriteable_short need b :
  Buffer_inv b -> Buffer_fits b -> 0 <= need ->
  writePos_ b + need < vector_max_size ->
  WritableBytes b < need ->
  EnsureWriteable need b = MakeSpace_ need b.
Proof.
  intros Hi Hf Hn Hmax Hw. pose proof Hi as [H0 Hrw Hws].
  unfold EnsureWriteable.
  destruct (Z.ltb_spec (WritableBytes b) need) as [_|]; [|lia].
  rewrite WritableBytes_inv in Hw by assumption.
  destruct (Z.lt_ge_cases (size b - writePos_ b + readPos_ b) need) as [Hr|Hc].
  - destruct (MakeSpace_resize need b) as (v & -> & Hlen & _); auto.
    simpl. rewrite WritableBytes_inv.
    + unfold size. simpl.
      destruct (Z.leb_spec need (Z.of_nat (length v) - writePos_ b)); [reflexivity|lia].
    + split; simpl; unfold size; simpl; lia.
    + unfold Buffer_fits, size. simpl. lia.
  - destruct (MakeSpace_compact need b) as (v & -> & Hlen & _); auto.
    simpl. rewrite WritableBytes_inv.
    + unfold size in *. simpl.
      destruct (Z.leb_spec need (Z.of_nat (length v) - (writePos_ b - readPos_ b)));
        [reflexivity|lia].
    + split; simpl; unfold size in *; simpl; lia.
    + unfold Buffer_fits, size in *. simpl. lia.
Qed.

(** What [Append] does to the storage when the data do not fit behind
    [writePos_]: a longer storage with the cursors as they were, or the same
    storage with the readable bytes at its front. *)
Lemma Append_storage data b b' :
  Buffer_inv b -> Buffer_fits b ->
  writePos_ b + Z.of_nat (length data) < vector_max_size ->
  size b - writePos_ b < Z.of_nat (length data) ->
  Append data b = Ok b' ->
  ((size b - writePos_ b) + readPos_ b < Z.of_nat (length data) ->
     size b' = writePos_ b + Z.of_nat (length data) + 1
     /\ readPos_ b' = readPos_ b)
  /\ (Z.of_nat (length data) <= (size b - writePos_ b) + readPos_ b ->
      size b' = size b /\ readPos_ b' = 0).
Proof.
  intros Hi Hf Hmax Hshort. pose proof Hi as [H0 Hrw Hws]. unfold Append.
  rewrite size_t_small by (unfold vector_max_size in Hmax; lia).
  rewrite EnsureWriteable_short
    by (try assumption; try lia; rewrite WritableBytes_inv by assumption; lia).
  intros Hrun. split; intros Hcase.
  - destruct (MakeSpace_resize (Z.of_nat (length data)) b)
      as (v & Hms & Hlen & _); try assumption; try lia.
    rewrite Hms in Hrun. cbn [mbind result_bind] in Hrun.
    destruct (copy_in data _ _) as [v'|] eqn:Ecp; [|discriminate].
    injection Hrun as <-. apply copy_in_length in Ecp.
    unfold size. simpl in *. split; [lia|reflexivity].
  - destruct (MakeSpace_compact (Z.of_nat (length data)) b)
      as (v & Hms & Hlen & _); try assumption.
    rewrite Hms in Hrun. cbn [mbind result_bind] in Hrun.
    destruct (copy_in data _ _) as [v'|] eqn:Ecp; [|discriminate].
    injection Hrun as <-. apply copy_in_length in Ecp.
    unfold size. simpl in *. split; [lia|reflexivity].
Qed.

(** C8.  When fewer than [need] bytes are writable, [EnsureWriteable]
    hands over to [MakeSpace_]: if the writable and the already read space
    together are smaller than [need], the storage is resized to
    [writePos_ + need + 1] and the cursors stay; otherwise the readable
    bytes are moved to offset 0 in the same storage, [readPos_] becomes 0
    and [writePos_] the old readable count.  The readable content is the
    same afterwards in both cases. *)
Theorem MakeSpace_growth_policy (need : Z) (b : Buffer.t) :
  Buffer_inv b -> Buffer_fits b -> 0 <= need ->
  writePos_ b + need < vector_max_size ->
  WritableBytes b < need ->
  EnsureWriteable need b = MakeSpace_ need b
  /\ ((size b - writePos_ b) + readPos_ b < need ->
      exists v, MakeSpace_ need b = Ok (mk v (readPos_ b) (writePos_ b))
        /\ Z.of_nat (length v) = writePos_ b + need + 1
        /\ readable (mk v (readPos_ b) (writePos_ b)) = readable b)
  /\ (need <= (size b - writePos_ b) + readPos_ b ->
      exists v, MakeSpace_ need b = Ok (mk v 0 (ReadableBytes b))
        /\ length v = length (buffer_ b)
        /\ readable (mk v 0 (ReadableBytes b)) = readable b).
Proof.
  intros Hi Hf Hn Hmax Hw. split; [|split].
  - now apply EnsureWriteable_short.
  - intros Hlt. now apply MakeSpace_resize.
  - intros Hge. rewrite ReadableBytes_inv by assumption.
    now apply MakeSpace_compact.
Qed.

Lemma Retrieve_spec len b :
  Buffer_inv b -> Buffer_fits b -> 0 <= len <= ReadableBytes b ->
  exists b', Retrieve len b = Ok b' /\ Buffer_inv b' /\ Buffer_fits b'
    /\ (len = ReadableBytes b -> readPos_ b' = 0 /\ writePos_ b' = 0)
    /\ readable b' = drop (Z.to_nat len) (readable b).
Proof.
  intros Hi Hf Hlen. pose proof Hi as [H0 Hrw Hws].
  pose proof Hf as Hf'. unfold Buffer_fits, vector_max_size, size in Hf'.
  unfold Retrieve.
  destruct (Z.leb_spec len (ReadableBytes b)) as [_|]; [|lia]. simpl.
  rewrite ReadableBytes_inv in * by assumption.
  unfold size in *.
  rewrite size_t_small by lia.
  destruct (Z.eqb_spec (readPos_ b + len) (writePos_ b)) as [He|Hne];
    eexists; (split; [reflexivity|]).
  - split; [split; simpl; unfold size; simpl; lia|].
    split; [exact Hf|]. split; [auto|].
    unfold readable, range. simpl. rewrite take_0.
    rewrite drop_ge; [reflexivity|]. rewrite length_take, length_drop. lia.
  - split; [split; simpl; unfold size; simpl; lia|].
    split; [exact Hf|]. split; [intros ->; lia|].
    unfold readable, range. simpl.
    replace (Z.to_nat (writePos_ b - readPos_ b))
      with (Z.to_nat len + Z.to_nat (writePos_ b - (readPos_ b + len)))%nat by lia.
    rewrite <- take_drop_commute, drop_drop.
    do 2 f_equal. lia.
Qed.

Lemma RetrieveUntil_spec end_ b :
  Buffer_inv b -> Buffer_fits b -> Peek b <= end_ <= writePos_ b ->
  exists b', RetrieveUntil end_ b = Ok b' /\ Buffer_inv b' /\ Buffer_fits b'
    /\ (end_ = writePos_ b -> readPos_ b' = 0 /\ writePos_ b' = 0)
    /\ readable b' = drop (Z.to_nat (end_ - readPos_ b)) (readable b).
Proof.
  intros Hi Hf Hend. pose proof Hi as [H0 Hrw Hws].
  pose proof Hf as Hf'. unfold Buffer_fits, vector_max_size, size in Hf'.
  unfold RetrieveUntil, Peek in *.
  destruct (Z.leb_spec (readPos_ b) end_) as [_|]; [|lia].
  destruct (Z.leb_spec end_ (writePos_ b)) as [_|]; [|lia]. simpl.
  unfold size in *. rewrite size_t_small by lia.
  destruct (Retrieve_spec (end_ - readPos_ b) b) as (b' & -> & Hi' & Hf'' & Hz & Hr);
    [assumption..| |].
  { rewrite ReadableBytes_inv by assumption. lia. }
  exists b'. repeat split; try assumption; try apply Hi'.
  - apply Hz. rewrite ReadableBytes_inv by assumption. lia.
  - apply Hz. rewrite ReadableBytes_inv by assumption. lia.
Qed.

Lemma readv_two data w s :
  0 <= w -> 0 <= s ->
  readv data [w; s]
  = (Z.of_nat (length (take (Z.to_nat (w + s)) data)),
     [take (Z.to_nat w) data; take (Z.to_nat s) (drop (Z.to_nat w) data)]).
Proof.
  intros Hw Hs. simpl. f_equal.
  replace (Z.to_nat (w + s)) with (Z.to_nat w + Z.to_nat s)%nat by lia.
  rewrite <- (take_take_drop data (Z.to_nat w) (Z.to_nat s)).
  rewrite length_app. lia.
Qed.

Lemma ReadFd_data data b :
  Buffer_inv b -> Buffer_fits b -> size b + scratch_size < vector_max_size ->
  let w := WritableBytes b in
  let got := take (Z.to_nat (w + scratch_size)) data in
  let n := Z.of_nat (length got) in
  exists b', ReadFd (ReadData data) b = Ok (n, b', None)
    /\ Buffer_inv b' /\ Buffer_fits b'
    /\ readable b' = readable b ++ got
    /\ (n <= w -> buffer_ b' = take (Z.to_nat (writePos_ b)) (buffer_ b) ++ got
                    ++ drop (Z.to_nat (writePos_ b + n)) (buffer_ b)
                  /\ readPos_ b' = readPos_ b /\ writePos_ b' = writePos_ b + n)
    /\ (w < n -> exists full,
          writePos_ full = size full
          /\ readable full = readable b ++ take (Z.to_nat w) data
          /\ Append (drop (Z.to_nat w) got) full = Ok b'
          /\ EnsureWriteable (n - w) full = MakeSpace_ (n - w) full
          /\ Buffer_inv full /\ Buffer_fits full
          /\ size full = size b /\ readPos_ full = readPos_ b).
Proof.
  intros Hi Hf Hmax w got n. pose proof Hi as [H0 Hrw Hws].
  pose proof Hf as Hf'. unfold Buffer_fits, vector_max_size in Hf'.
  assert (Hw : w = size b - writePos_ b) by (apply WritableBytes_inv; assumption).
  unfold scratch_size, vector_max_size in *.
  unfold ReadFd, ReadFd_iov. fold w. unfold scratch_size.
  rewrite readv_two by lia. fold got. fold n.
  set (tail := take (Z.to_nat w) data).
  set (rest := take (Z.to_nat 65536) (drop (Z.to_nat w) data)).
  assert (Hgot : got = tail ++ rest).
  { unfold got, tail, rest.
    replace (Z.to_nat (w + 65536)) with (Z.to_nat w + Z.to_nat 65536)%nat by lia.
    now rewrite take_take_drop. }
  assert (Htl : (length tail <= Z.to_nat w)%nat).
  { unfold tail. rewrite length_take. lia. }
  assert (Hrl : Z.of_nat (length rest) <= 65536).
  { unfold rest. rewrite length_take. lia. }
  assert (Hn : n = Z.of_nat (length tail) + Z.of_nat (length rest)).
  { unfold n. rewrite Hgot, length_app. lia. }
  rewrite copy_in_spec by (unfold size in *; lia). simpl.
  rewrite (size_t_small n) by lia.
  destruct (Z.leb_spec n w) as [Hle|Hgt].
  - assert (Hrest : rest = []).
    { apply length_zero_iff_nil.
      destruct (decide (length tail < Z.to_nat w)%nat) as [Hshort|Hfull]; [|lia].
      unfold rest. rewrite drop_ge; [now rewrite take_nil|].
      unfold tail in Hshort. rewrite length_take in Hshort. lia. }
    rewrite Hrest, app_nil_r in Hgot. rewrite Hrest in Hn. simpl in Hn.
    rewrite size_t_small by lia.
    eexists. split; [reflexivity|].
    assert (Hl : length (take (Z.to_nat (writePos_ b)) (buffer_ b) ++ tail
                   ++ drop (Z.to_nat (writePos_ b) + length tail) (buffer_ b))
                 = length (buffer_ b)).
    { rewrite !length_app, length_take, length_drop. unfold size in *. lia. }
    split; [split; simpl; unfold size in *; simpl; lia|].
    split; [unfold Buffer_fits, vector_max_size, size in *; simpl; lia|].
    split; [|split].
    + unfold readable. simpl. rewrite Hgot, Hn, Z.add_0_r.
      apply range_write_at; unfold size in *; lia.
    + intros _. simpl. rewrite Hgot. repeat split.
      do 3 f_equal. lia.
    + lia.
  - assert (Hfull : length tail = Z.to_nat w).
    { destruct (decide (length tail < Z.to_nat w)%nat) as [Hshort|]; [|lia].
      assert (rest = []) as Hr0.
      { unfold rest. rewrite drop_ge; [now rewrite take_nil|].
        unfold tail in Hshort. rewrite length_take in Hshort. lia. }
      rewrite Hr0 in Hn. simpl in Hn. lia. }
    set (v := take (Z.to_nat (writePos_ b)) (buffer_ b) ++ tail
                ++ drop (Z.to_nat (writePos_ b) + length tail) (buffer_ b)).
    assert (Hl : length v = length (buffer_ b)).
    { unfold v. rewrite !length_app, length_take, length_drop.
      unfold size in *. lia. }
    set (full := mk v (readPos_ b) (size (mk v (readPos_ b) (writePos_ b)))).
    assert (Hsz : size full = size b) by (unfold size; simpl; lia).
    assert (Hwp : writePos_ full = size b) by (unfold full, size; simpl; lia).
    assert (Hif : Buffer_inv full).
    { split; rewrite ?Hsz, ?Hwp; simpl; unfold size in *; lia. }
    assert (Hff : Buffer_fits full).
    { unfold Buffer_fits, vector_max_size. rewrite Hsz. lia. }
    rewrite size_t_small by lia.
    assert (Htake : take (Z.to_nat (n - w)) rest = rest).
    { apply take_ge. lia. }
    rewrite Htake.
    destruct (Append_spec rest full) as (b' & Happ & Hi' & Hf'' & Hr');
      [assumption..| |].
    { rewrite Hwp. unfold vector_max_size. lia. }
    fold full. rewrite Happ. simpl.
    exists b'. split; [reflexivity|].
    assert (Hrf : readable full = readable b ++ tail).
    { unfold readable. rewrite Hwp. simpl. unfold v.
      replace (size b) with (writePos_ b + Z.of_nat (length tail))
        by (unfold size in *; lia).
      apply range_write_at; unfold size in *; lia. }
    split; [assumption|]. split; [assumption|].
    split; [|split].
    + rewrite Hr', Hrf, Hgot. now rewrite <- app_assoc.
    + lia.
    + intros _. exists full. split; [congruence|]. split; [exact Hrf|].
      split; [|split].
      * rewrite Hgot, drop_app_length'; [assumption|]. unfold tail.
        rewrite length_take. unfold tail in Hfull.
        rewrite length_take in Hfull. lia.
      * apply EnsureWriteable_short; try assumption; try lia.
        -- rewrite Hwp. unfold vector_max_size. lia.
        -- rewrite WritableBytes_inv by assumption. rewrite Hsz, Hwp. lia.
      * split; [exact Hif|]. split; [exact Hff|]. split; [exact Hsz|].
        reflexivity.
Qed.

Lemma take_length_take {A} (k : nat) (l : list A) :
  take (length (take k l)) l = take k l.
Proof.
  rewrite length_take. destruct (Nat.min_spec k (length l)) as [[_ ->]|[H ->]].
  - reflexivity.
  - now rewrite !take_ge by lia.
Qed.

(** C6.  [ReadFd] passes [readv] two regions, the writable tail and a
    scratch array of 65536 bytes.  When [readv] returns [n >= 0] the
    readable region grows by exactly the first [n] bytes delivered, in
    order.  Up to the size of the tail the storage keeps its size.  When
    [n] exceeds the tail, the tail is filled up to the end of the storage
    and the rest goes through [Append], whose [EnsureWriteable] finds no
    room and calls [MakeSpace_]: the storage grows, by the overflow and one
    byte, only when the overflow is longer than the space already read at
    the front; otherwise the readable bytes move to the front and the
    storage keeps its size. *)
Theorem ReadFd_scatter_read (data : list ascii) (b : Buffer.t) :
  Buffer_inv b -> Buffer_fits b ->
  size b + scratch_size < vector_max_size ->
  let w := WritableBytes b in
  let n := fst (readv data (ReadFd_iov b)) in
  ReadFd_iov b = [w; 65536]
  /\ 0 <= n
  /\ exists b', ReadFd (ReadData data) b = Ok (n, b', None)
       /\ readable b' = readable b ++ take (Z.to_nat n) data
       /\ (n <= w -> size b' = size b)
       /\ (w < n -> exists full,
             writePos_ full = size full
             /\ readable full = readable b ++ take (Z.to_nat w) data
             /\ Append (drop (Z.to_nat w) (take (Z.to_nat n) data)) full = Ok b'
             /\ EnsureWriteable (n - w) full = MakeSpace_ (n - w) full)
       /\ (w < n -> readPos_ b < n - w ->
             size b' = size b + (n - w) + 1 /\ readPos_ b' = readPos_ b)
       /\ (w < n -> n - w <= readPos_ b ->
             size b' = size b /\ readPos_ b' = 0).
Proof.
  intros Hi Hf Hmax w n.
  assert (Hw : w = size b - writePos_ b) by (apply WritableBytes_inv; assumption).
  destruct Hi as [H0 Hrw Hws] eqn:E. clear E.
  assert (Hn : n = Z.of_nat (length (take (Z.to_nat (w + scratch_size)) data))).
  { unfold n, ReadFd_iov. fold w. rewrite readv_two; [reflexivity|lia|].
    unfold scratch_size. lia. }
  split; [reflexivity|]. split; [lia|].
  destruct (ReadFd_data data b) as (b' & Hrun & Hi' & Hf' & Hr & Hsmall & Hbig);
    [split; assumption|assumption..|].
  fold w in Hrun, Hsmall, Hbig. rewrite <- Hn in Hrun, Hsmall, Hbig.
  assert (Htk : take (Z.to_nat n) data = take (Z.to_nat (w + scratch_size)) data).
  { rewrite Hn, Nat2Z.id. apply take_length_take. }
  assert (Hover : w < n ->
            Z.of_nat (length (drop (Z.to_nat w)
                                (take (Z.to_nat (w + scratch_size)) data)))
            = n - w).
  { intros Hgt. rewrite length_drop. lia. }
  assert (Hsizes : w < n ->
            (readPos_ b < n - w ->
               size b' = size b + (n - w) + 1 /\ readPos_ b' = readPos_ b)
            /\ (n - w <= readPos_ b -> size b' = size b /\ readPos_ b' = 0)).
  { intros Hgt.
    destruct (Hbig Hgt) as (full & Hwp & _ & Happ & _ & Hif & Hff & Hsz & Hrp).
    specialize (Hover Hgt).
    assert (Hnle : n <= w + scratch_size)
      by (rewrite Hn, length_take; unfold scratch_size; lia).
    pose proof (fun A B => Append_storage _ full b' Hif Hff A B Happ) as Hst.
    rewrite Hover, Hwp, Hsz, Hrp in Hst.
    destruct Hst as [Hgrow Hkeep];
      [unfold scratch_size, vector_max_size in *; lia | lia |].
    split; intros Hcase; [apply Hgrow|apply Hkeep]; lia. }
  exists b'. split; [assumption|]. rewrite Htk. split; [assumption|].
  split; [|split; [|split]].
  - intros Hle. destruct (Hsmall Hle) as (Hb & _). unfold size. rewrite Hb.
    rewrite !length_app, length_take, length_drop. unfold size in *. lia.
  - intros Hgt.
    destruct (Hbig Hgt) as (full & Hwp & Hrf & Happ & Hens & _).
    exists full. auto.
  - intros Hgt. apply (proj1 (Hsizes Hgt)).
  - intros Hgt. apply (proj2 (Hsizes Hgt)).
Qed.

(** C2.  Each public operation of the buffer takes a buffer with
    [0 <= readPos_ <= writePos_ <= size] to one with the same property
    ([HasWritten] and [Retrieve] within the writable and readable counts,
    [RetrieveUntil] within the readable region, [WriteFd] for a [write]
    that reports no more than it was given); and a retrieval of all
    readable bytes leaves both cursors at 0. *)
Theorem Buffer_operations_preserve_invariant (b : Buffer.t) :
  Buffer_inv b -> Buffer_fits b ->
  (forall data, writePos_ b + Z.of_nat (length data) < vector_max_size ->
     exists b', Append data b = Ok b' /\ Buffer_inv b' /\ Buffer_fits b')
  /\ (forall len, 0 <= len -> writePos_ b + len < vector_max_size ->
        exists b', EnsureWriteable len b = Ok b'
          /\ Buffer_inv b' /\ Buffer_fits b')
  /\ (forall len, 0 <= len <= WritableBytes b -> Buffer_inv (HasWritten len b))
  /\ (forall len, 0 <= len <= ReadableBytes b ->
        exists b', Retrieve len b = Ok b' /\ Buffer_inv b')
  /\ (forall end_, Peek b <= end_ <= BeginWrite b ->
        exists b', RetrieveUntil end_ b = Ok b' /\ Buffer_inv b')
  /\ Buffer_inv (RetrieveAll b)
  /\ Buffer_inv (snd (RetrieveAllToStr b))
  /\ (forall inp, size b + scratch_size < vector_max_size ->
        exists n b' e, ReadFd inp b = Ok (n, b', e)
          /\ Buffer_inv b' /\ Buffer_fits b')
  /\ (forall ret errno, ret <= ReadableBytes b ->
        Buffer_inv (snd (fst (WriteFd ret errno b))))
  /\ (exists b', Retrieve (ReadableBytes b) b = Ok b'
        /\ readPos_ b' = 0 /\ writePos_ b' = 0)
  /\ (exists b', RetrieveUntil (BeginWrite b) b = Ok b'
        /\ readPos_ b' = 0 /\ writePos_ b' = 0)
  /\ (readPos_ (RetrieveAll b) = 0 /\ writePos_ (RetrieveAll b) = 0)
  /\ (readPos_ (snd (RetrieveAllToStr b)) = 0
      /\ writePos_ (snd (RetrieveAllToStr b)) = 0)
  /\ (forall errno,
        readPos_ (snd (fst (WriteFd (ReadableBytes b) errno b))) = 0
        /\ writePos_ (snd (fst (WriteFd (ReadableBytes b) errno b))) = 0).
Proof.
  intros Hi Hf. pose proof Hi as [H0 Hrw Hws].
  pose proof Hf as Hf'. unfold Buffer_fits, vector_max_size in Hf'.
  assert (Hzero : Buffer_inv (mk (buffer_ b) 0 0)).
  { split; simpl; unfold size in *; simpl; lia. }
  assert (Hrb : ReadableBytes b = writePos_ b - readPos_ b)
    by (apply ReadableBytes_inv; assumption).
  repeat apply conj.
  - intros data Hmax.
    destruct (Append_spec data b) as (b' & ? & ? & ? & _); eauto.
  - intros len Hlen Hmax.
    destruct (EnsureWriteable_spec len b) as (b' & ? & ? & ? & _); eauto.
  - intros len Hlen. rewrite WritableBytes_inv in Hlen by assumption.
    unfold HasWritten. rewrite size_t_small by (unfold size in *; lia).
    split; simpl; unfold size in *; simpl; lia.
  - intros len Hlen.
    destruct (Retrieve_spec len b) as (b' & ? & ? & _); eauto.
  - intros end_ Hend.
    destruct (RetrieveUntil_spec end_ b) as (b' & ? & ? & _); eauto.
  - exact Hzero.
  - exact Hzero.
  - intros [errno|data] Hmax.
    + exists (-1), b, (Some errno). auto.
    + destruct (ReadFd_data data b) as (b' & ? & ? & ? & _); eauto 10.
  - intros ret errno Hret. unfold WriteFd.
    destruct (Z.ltb_spec ret 0); simpl; [assumption|].
    rewrite size_t_small by (unfold size in *; lia).
    destruct (Z.eqb_spec (readPos_ b + ret) (writePos_ b)); simpl;
      [assumption|].
    split; simpl; unfold size in *; simpl; lia.
  - destruct (Retrieve_spec (ReadableBytes b) b) as (b' & ? & _ & _ & Hz & _);
      [assumption..|lia|].
    exists b'. split; [assumption|]. now apply Hz.
  - destruct (RetrieveUntil_spec (BeginWrite b) b) as (b' & ? & _ & _ & Hz & _);
      [assumption..|unfold Peek, BeginWrite; lia|].
    exists b'. split; [assumption|]. now apply Hz.
  - reflexivity.
  - reflexivity.
  - reflexivity.
  - reflexivity.
  - intros errno. unfold WriteFd. rewrite Hrb.
    destruct (Z.ltb_spec (writePos_ b - readPos_ b) 0); [lia|].
    rewrite size_t_small by (unfold size in *; lia).
    replace (readPos_ b + (writePos_ b - readPos_ b)) with (writePos_ b) by lia.
    now rewrite Z.eqb_refl.
Qed.

End BufferProperties.

(** * The two patterns *)

Section RegexFacts.
Import Regex.

Lemma append_String d a r :
  (String d a ++ r)%string = String d (a ++ r).
Proof. reflexivity. Qed.

Lemma append_Empty r : (EmptyString ++ r)%string = r.
Proof. reflexivity. Qed.

Lemma length_append_string a r :
  String.length (a ++ r) = (String.length a + String.length r)%nat.
Proof.
  induction a as [|d a IH]; rewrite ?append_String, ?append_Empty; simpl;
    congruence.
Qed.

Lemma consumed_app a r : consumed (a ++ r) r = a.
Proof.
  unfold consumed. rewrite length_append_string.
  replace (String.length a + String.length r - String.length r)%nat
    with (String.length a) by lia.
  induction a as [|d a IH]; rewrite ?append_String, ?append_Empty; simpl.
  - destruct r; reflexivity.
  - now rewrite IH.
Qed.

Lemma consumed_all s : consumed s EmptyString = s.
Proof.
  unfold consumed. simpl. rewrite Nat.sub_0_r.
  induction s as [|d s IH]; simpl; congruence.
Qed.

Lemma cut_at_app c s a b :
  cut_at c s = Some (a, b) -> s = (a ++ String c b)%string.
Proof.
  revert a. induction s as [|d s IH]; simpl; intros a; [discriminate|].
  destruct (Ascii.eqb_spec d c) as [->|Hne].
  - now intros [= <- <-].
  - destruct (cut_at c s) as [[a' b']|]; [|discriminate].
    intros [= <- <-]. rewrite append_String. f_equal. now apply IH.
Qed.

(** The star over a negated class can only stop in front of the excluded
    character when the continuation asks for it: giving characters back
    never helps. *)
Lemma star_except {R} c (K : string -> option R) s :
  (forall d s', d <> c -> K (String d s') = None) -> K EmptyString = None ->
  star (Except c) s K
  = match cut_at c s with
    | Some (_, b) => K (String c b)
    | None => None
    end.
Proof.
  intros Hhead Hempty. induction s as [|d s IH]; simpl; [assumption|].
  destruct (Ascii.eqb_spec d c) as [->|Hne]; simpl; [reflexivity|].
  rewrite IH. destruct (cut_at c s) as [[a b]|].
  - destruct (K (String c b)); [reflexivity|]. now apply Hhead.
  - now apply Hhead.
Qed.

Lemma star_dot_end {R} (K : string -> option R) s :
  (forall d s', K (String d s') = None) ->
  star Dot s K = if one_line s then K EmptyString else None.
Proof.
  intros Hend. induction s as [|d s IH]; simpl; [reflexivity|].
  destruct (negb (Ascii.eqb d LF) && negb (Ascii.eqb d CR)); simpl.
  - rewrite IH. destruct (one_line s); [|apply Hend].
    destruct (K EmptyString) eqn:E; [reflexivity|apply Hend].
  - apply Hend.
Qed.

(** [regex_match] with the pattern of [ParseHeader_], for every line. *)
Lemma header_patten_spec line :
  regex_match HttpRequest.header_patten line = header_fields line.
Proof.
  unfold regex_match, HttpRequest.header_patten, header_fields. cbn [run].
  rewrite star_except; [| |reflexivity].
  - destruct (cut_at ":" line) as [[key rest]|] eqn:Ecut; [|reflexivity].
    apply cut_at_app in Ecut. subst line.
    unfold accepts at 1. rewrite Ascii.eqb_refl. rewrite consumed_app.
    assert (Hdot : forall s,
      star Dot s (fun s' : string =>
        match s' with
        | EmptyString => Some ([] ++ [key] ++ [consumed s s'])
        | String _ _ => None
        end)
      = if one_line s then Some [key; s] else None).
    { intros s. rewrite star_dot_end by reflexivity.
      now rewrite consumed_all. }
    destruct rest as [|c value].
    + apply Hdot.
    + unfold accepts at 1. simpl one_line.
      destruct (Ascii.eqb_spec c " ") as [->|Hne].
      * rewrite !Hdot. simpl. destruct (one_line value); reflexivity.
      * apply Hdot.
  - intros d s' Hd. unfold accepts.
    destruct (Ascii.eqb_spec d ":"); [contradiction|reflexivity].
Qed.

Lemma star_except_end {R} c (K : string -> option R) s :
  (forall d s', K (String d s') = None) ->
  star (Except c) s K = if free_of c s then K EmptyString else None.
Proof.
  intros Hend. induction s as [|d s IH]; simpl; [reflexivity|].
  destruct (negb (Ascii.eqb d c)); simpl.
  - rewrite IH. destruct (free_of c s); [|apply Hend].
    destruct (K EmptyString) eqn:E; [reflexivity|apply Hend].
  - apply Hend.
Qed.

(** [regex_match] with the pattern of [ParseRequestLine_], for every line. *)
Lemma request_line_patten_spec line :
  regex_match HttpRequest.request_line_patten line = request_fields line.
Proof.
  unfold regex_match, HttpRequest.request_line_patten, request_fields.
  cbn [run].
  rewrite star_except; [| |reflexivity].
  2: { intros d s' Hd. unfold accepts at 1.
       destruct (Ascii.eqb_spec d " "); [contradiction|reflexivity]. }
  destruct (cut_at " " line) as [[m rest]|] eqn:Ecut; [|reflexivity].
  apply cut_at_app in Ecut. subst line.
  unfold accepts at 1. rewrite Ascii.eqb_refl, consumed_app.
  rewrite star_except; [| |reflexivity].
  2: { intros d s' Hd. unfold accepts at 1.
       destruct (Ascii.eqb_spec d " "); [contradiction|reflexivity]. }
  destruct (cut_at " " rest) as [[p rest']|] eqn:Ecut; [|reflexivity].
  apply cut_at_app in Ecut. subst rest.
  unfold accepts at 1. rewrite Ascii.eqb_refl, consumed_app.
  unfold strip_prefix, accepts.
  repeat (destruct rest' as [|? rest']; [reflexivity|];
          destruct (Ascii.eqb _ _); [|reflexivity]).
  rewrite star_except_end by reflexivity.
  now rewrite consumed_all.
Qed.

End RegexFacts.

(** * The request parser *)

Section ParserFacts.
Import HttpRequest.

Lemma length_string_of_list_ascii l :
  String.length (string_of_list_ascii l) = length l.
Proof. induction l as [|c l IH]; simpl; congruence. Qed.

Lemma length_list_ascii_of_string s :
  length (list_ascii_of_string s) = String.length s.
Proof. induction s as [|c s IH]; simpl; congruence. Qed.

Lemma search_le hay needle : (search hay needle <= length hay)%nat.
Proof.
  induction hay as [|c hay IH]; simpl; destruct (decide _); simpl; lia.
Qed.

Lemma search_found hay needle :
  (search hay needle < length hay)%nat ->
  needle `prefix_of` drop (search hay needle) hay.
Proof.
  induction hay as [|c hay IH]; simpl.
  - destruct (decide _); simpl; lia.
  - destruct (decide _) as [Hp|_]; simpl; [auto|].
    intros H. apply IH. lia.
Qed.

Lemma search_CRLF_room hay :
  (search hay CRLF < length hay)%nat ->
  (search hay CRLF + 2 <= length hay)%nat.
Proof.
  intros H. destruct (search_found _ _ H) as [k Hk].
  assert (Hl : length (drop (search hay CRLF) hay) = length (CRLF ++ k))
    by now rewrite Hk.
  rewrite length_drop, length_app in Hl. simpl in Hl. lia.
Qed.

Lemma next_line_Some buff line :
  next_line buff = Some line ->
  let k := search (Buffer.readable buff) CRLF in
  (k + 2 <= length (Buffer.readable buff))%nat
  /\ line = string_of_list_ascii (take k (Buffer.readable buff)).
Proof.
  unfold next_line. destruct (decide _) as [Hlt|]; [|discriminate].
  intros [= <-]. split; [|reflexivity]. now apply search_CRLF_room.
Qed.

Lemma next_line_None buff :
  next_line buff = None ->
  search (Buffer.readable buff) CRLF = length (Buffer.readable buff).
Proof.
  unfold next_line. destruct (decide _) as [|Hge]; [discriminate|].
  intros _. pose proof (search_le (Buffer.readable buff) CRLF). lia.
Qed.

Variable UserVerify : string -> string -> bool -> result bool.

(** One pass through the loop: without a complete line it leaves the loop;
    otherwise the line and its CRLF leave the buffer and the line is handed
    to the branch for the current state. *)
Lemma parse_step_spec buff r :
  Buffer_inv buff -> Buffer_fits buff ->
  match next_line buff with
  | None => parse_step UserVerify buff r = Ok Break
  | Some line =>
      exists buff',
        parse_step UserVerify buff r = handle_line UserVerify line buff' r
        /\ Buffer_inv buff' /\ Buffer_fits buff'
        /\ Buffer.ReadableBytes buff' < Buffer.ReadableBytes buff
        /\ Buffer.readable buff'
           = drop (String.length line + 2) (Buffer.readable buff)
  end.
Proof.
  intros Hi Hf. pose proof (length_readable buff Hi) as Hlen.
  pose proof Hi as [H0 Hrw Hws].
  destruct (next_line buff) as [line|] eqn:Hnl.
  - apply next_line_Some in Hnl as [Hroom ->].
    set (k := search (Buffer.readable buff) CRLF) in *.
    unfold parse_step. fold k. unfold Buffer.Peek, Buffer.BeginWrite.
    destruct (Z.eqb_spec (Buffer.readPos_ buff + Z.of_nat k) (Buffer.writePos_ buff));
      [lia|].
    destruct (RetrieveUntil_spec (Buffer.readPos_ buff + Z.of_nat k + 2) buff)
      as (buff' & -> & Hi' & Hf' & _ & Hr); [assumption..|unfold Buffer.Peek; lia|].
    exists buff'. split; [reflexivity|]. split; [assumption|]. split; [assumption|].
    split.
    + rewrite !ReadableBytes_inv by assumption.
      rewrite <- (length_readable buff') by assumption.
      rewrite <- Hlen, Hr, length_drop. lia.
    + rewrite Hr. f_equal.
      rewrite length_string_of_list_ascii, length_take. lia.
  - apply next_line_None in Hnl. unfold parse_step. rewrite Hnl.
    unfold Buffer.Peek, Buffer.BeginWrite.
    destruct (Z.eqb_spec (Buffer.readPos_ buff
                + Z.of_nat (length (Buffer.readable buff))) (Buffer.writePos_ buff));
      [reflexivity|lia].
Qed.

Lemma ParsePost_other_method r :
  method_ r <> "POST"%string -> ParsePost_ UserVerify r = Ok r.
Proof.
  intros Hm. unfold ParsePost_.
  destruct (String.eqb_spec (method_ r) "POST"); [contradiction|reflexivity].
Qed.

Lemma handle_line_buffer line buff r b r' :
  handle_line UserVerify line buff r = Ok (Continue b r') -> b = buff.
Proof.
  unfold handle_line. destruct (state_ r).
  - destruct (ParseRequestLine_ line r) as [[[] r1]|f]; simpl; congruence.
  - destruct (String.eqb line EmptyString); [destruct (0 <? _)|]; congruence.
  - destruct (ParseBody_ UserVerify line r); simpl; congruence.
  - congruence.
Qed.

(** Once the request line is behind, a line is never refused. *)
Lemma handle_line_later line buff r :
  state_ r <> REQUEST_LINE ->
  match handle_line UserVerify line buff r with
  | Ok (Continue b r') =>
      state_ r' <> REQUEST_LINE
      /\ (method_ r <> "POST"%string -> method_ r' = method_ r)
  | Ok _ => False
  | Fault _ => method_ r = "POST"%string
  end.
Proof.
  intros Hst. unfold handle_line. destruct (state_ r) eqn:Est; [contradiction| | |].
  - destruct (String.eqb line EmptyString); [destruct (0 <? _)|]; simpl;
      try (split; [discriminate|reflexivity]).
    unfold ParseHeader_.
    destruct (Regex.regex_match header_patten line) as [[|k [|v [|? ?]]]|];
      simpl; rewrite ?Est; (split; [discriminate|reflexivity]).
  - unfold ParseBody_.
    destruct (String.eqb_spec (method_ r) "POST") as [Hp|Hp].
    + destruct (ParsePost_ UserVerify (set_body line r)); simpl;
        [split; [discriminate|contradiction]|assumption].
    + rewrite ParsePost_other_method by exact Hp. simpl.
      split; [discriminate|reflexivity].
  - rewrite Est. split; [discriminate|reflexivity].
Qed.

Lemma parse_loop_later fuel : forall buff r,
  Buffer_inv buff -> Buffer_fits buff ->
  Buffer.ReadableBytes buff <= Z.of_nat fuel ->
  state_ r <> REQUEST_LINE ->
  match parse_loop UserVerify fuel buff r with
  | Ok (ok, _, _) => ok = true
  | Fault _ => method_ r = "POST"%string
  end.
Proof.
  induction fuel as [|fuel IH]; intros buff r Hi Hf Hfuel Hst; simpl.
  - destruct (Z.ltb_spec 0 (Buffer.ReadableBytes buff)); [lia|reflexivity].
  - destruct (_ && _); [|reflexivity].
    pose proof (parse_step_spec buff r Hi Hf) as Hstep.
    destruct (next_line buff) as [line|].
    + destruct Hstep as (buff' & -> & Hi' & Hf' & Hless & _).
      pose proof (handle_line_later line buff' r Hst) as Hh.
      destruct (handle_line UserVerify line buff' r) as [[| |b r']|f] eqn:Eh;
        simpl; try contradiction; [|assumption].
      apply handle_line_buffer in Eh as ->. destruct Hh as [Hst' Hm].
      specialize (IH buff' r' Hi' Hf' ltac:(lia) Hst').
      destruct (parse_loop UserVerify fuel buff' r') as [[[ok ?] ?]|f]; [assumption|].
      destruct (String.eqb_spec (method_ r) "POST"); [assumption|].
      rewrite <- Hm by assumption. exact IH.
    + rewrite Hstep. reflexivity.
Qed.

(** More fuel than there are readable bytes changes nothing. *)
Lemma parse_loop_fuel fuel1 : forall fuel2 buff r,
  Buffer_inv buff -> Buffer_fits buff ->
  Buffer.ReadableBytes buff <= Z.of_nat fuel1 ->
  Buffer.ReadableBytes buff <= Z.of_nat fuel2 ->
  parse_loop UserVerify fuel1 buff r = parse_loop UserVerify fuel2 buff r.
Proof.
  induction fuel1 as [|fuel1 IH]; intros fuel2 buff r Hi Hf H1 H2.
  - destruct fuel2; simpl; destruct (Z.ltb_spec 0 (Buffer.ReadableBytes buff));
      simpl; (reflexivity || lia).
  - destruct fuel2 as [|fuel2]; simpl;
      destruct (Z.ltb_spec 0 (Buffer.ReadableBytes buff)); simpl;
      try reflexivity; try lia.
    destruct (negb _); [|reflexivity].
    pose proof (parse_step_spec buff r Hi Hf) as Hstep.
    destruct (next_line buff) as [line|].
    + destruct Hstep as (buff' & -> & Hi' & Hf' & Hless & _).
      destruct (handle_line UserVerify line buff' r) as [[| |b r']|f] eqn:Eh;
        simpl; try reflexivity.
      apply handle_line_buffer in Eh as ->. apply IH; auto; lia.
    + rewrite Hstep. reflexivity.
Qed.

Lemma handle_line_fault line buff r f :
  state_ r <> REQUEST_LINE ->
  handle_line UserVerify line buff r = Fault f ->
  ParsePost_ UserVerify (set_body line r) = Fault f.
Proof.
  intros Hst. unfold handle_line. destruct (state_ r); [contradiction| | |].
  - destruct (String.eqb line EmptyString); [destruct (0 <? _)|]; discriminate.
  - unfold ParseBody_.
    destruct (ParsePost_ UserVerify (set_body line r)); simpl; congruence.
  - discriminate.
Qed.

(** Past the request line, the loop can only be cut short by [ParsePost_]
    on a body line. *)
Lemma parse_loop_fault fuel : forall buff r f,
  Buffer_inv buff -> Buffer_fits buff ->
  Buffer.ReadableBytes buff <= Z.of_nat fuel ->
  state_ r <> REQUEST_LINE ->
  parse_loop UserVerify fuel buff r = Fault f ->
  exists line r', ParsePost_ UserVerify (set_body line r') = Fault f.
Proof.
  induction fuel as [|fuel IH]; intros buff r f Hi Hf Hfuel Hst; simpl.
  - destruct (Z.ltb_spec 0 (Buffer.ReadableBytes buff)); [lia|discriminate].
  - destruct (_ && _); [|discriminate].
    pose proof (parse_step_spec buff r Hi Hf) as Hstep.
    destruct (next_line buff) as [line|].
    + destruct Hstep as (buff' & -> & Hi' & Hf' & Hless & _).
      pose proof (handle_line_later line buff' r Hst) as Hh.
      destruct (handle_line UserVerify line buff' r) as [[| |b r']|f'] eqn:Eh;
        simpl; try contradiction.
      * apply handle_line_buffer in Eh as ->. destruct Hh as [Hst' _].
        apply IH; auto. lia.
      * intros [= ->]. apply handle_line_fault in Eh; eauto.
    + rewrite Hstep. discriminate.
Qed.

Lemma find_last_of_lt c s : forall k,
  find_last_of c s = Some k -> (k < String.length s)%nat.
Proof.
  induction s as [|d s IH]; simpl; intros k; [discriminate|].
  destruct (find_last_of c s) as [k'|].
  - intros [= <-]. specialize (IH k' eq_refl). lia.
  - destruct (Ascii.eqb d c); [|discriminate]. intros [= <-]. lia.
Qed.

(** [ParsePath_] throws exactly when the target is not [/] and holds no
    slash. *)
Lemma ParsePath_fault r f :
  ParsePath_ r = Fault f ->
  f = OutOfRange /\ find_last_of "/" (path_ r) = None.
Proof.
  unfold ParsePath_. destruct (String.eqb (path_ r) "/"); [discriminate|].
  destruct (find_last_of "/" (path_ r)) as [k|] eqn:Ek; simpl.
  - apply find_last_of_lt in Ek. unfold substr, str_size.
    destruct (Z.ltb_spec (Z.of_nat k) 0); [lia|].
    destruct (Z.ltb_spec (Z.of_nat (String.length (path_ r))) (Z.of_nat k)); [lia|].
    simpl. destruct (bool_decide _); discriminate.
  - intros [= <-]. auto.
Qed.


(** A GET line whose target holds a slash is accepted. *)
Lemma ParseRequestLine_GET line r p v :
  request_fields line = Some ["GET"; p; v]%string ->
  find_last_of "/" p <> None ->
  exists r', ParseRequestLine_ line r = Ok (true, r')
    /\ method_ r' = "GET"%string.
Proof.
  intros Hfields Hslash. unfold ParseRequestLine_.
  rewrite request_line_patten_spec, Hfields. simpl.
  destruct (ParsePath_ _) as [r2|f] eqn:Ep; simpl.
  - exists r2. split; [reflexivity|].
    unfold ParsePath_ in Ep. simpl in Ep.
    destruct (String.eqb p "/"); [now injection Ep as <-|].
    destruct (substr_from p (find_last_of "/" p)); simpl in Ep; [|discriminate].
    destruct (bool_decide _); now injection Ep as <-.
  - apply ParsePath_fault in Ep as [_ Hno]. simpl in Hno. contradiction.
Qed.

(** The form decoder writes into the body in place and never shortens it:
    no escape of three characters becomes one byte. *)
Lemma length_str_update k c s :
  String.length (str_update k c s) = String.length s.
Proof.
  revert k. induction s as [|d s IH]; intros [|k]; simpl; auto.
Qed.

Lemma str_set_length s k c s' :
  str_set s k c = Ok s' -> String.length s' = String.length s.
Proof.
  unfold str_set. destruct (_ && _); [|discriminate].
  intros [= <-]. apply length_str_update.
Qed.

Lemma form_step_body_length s s' :
  form_step s = Ok s' ->
  String.length (fv_body s') = String.length (fv_body s).
Proof.
  destruct s as [i j key value body post]. unfold form_step.
  destruct (str_at body i) as [ch|]; simpl; [|discriminate].
  destruct (Ascii.eqb ch "=").
  { destruct (substr body j (i - j)); simpl; [|discriminate].
    now intros [= <-]. }
  destruct (Ascii.eqb ch "+").
  { destruct (str_set body i " ") eqn:E; simpl; [|discriminate].
    intros [= <-]. simpl. eapply str_set_length; eassumption. }
  destruct (Ascii.eqb ch "%").
  { destruct (str_at body (i + 1)); simpl; [|discriminate].
    destruct (str_at body (i + 2)); simpl; [|discriminate].
    destruct (str_set body (i + 2) _) as [b1|] eqn:E1; simpl; [|discriminate].
    destruct (str_set b1 (i + 1) _) as [b2|] eqn:E2; simpl; [|discriminate].
    intros [= <-]. simpl.
    apply str_set_length in E1. apply str_set_length in E2. congruence. }
  destruct (Ascii.eqb ch "&").
  { destruct (substr body j (i - j)); simpl; [|discriminate].
    now intros [= <-]. }
  now intros [= <-].
Qed.

Lemma form_loop_body_length fuel : forall n s s',
  form_loop fuel n s = Ok s' ->
  String.length (fv_body s') = String.length (fv_body s).
Proof.
  induction fuel as [|fuel IH]; intros n s s'; simpl.
  - destruct (fv_i s <? n); [discriminate|]. now intros [= <-].
  - destruct (fv_i s <? n); [|now intros [= <-]].
    destruct (form_step s) as [s1|] eqn:E1; simpl; [|discriminate].
    intros H. apply IH in H. apply form_step_body_length in E1. congruence.
Qed.

Lemma ParseFromUrlencoded_body_length r r' :
  ParseFromUrlencoded_ r = Ok r' ->
  String.length (body_ r') = String.length (body_ r).
Proof.
  unfold ParseFromUrlencoded_.
  destruct (String.eqb (body_ r) EmptyString); [now intros [= <-]|].
  destruct (form_loop _ _ _) as [[i j key value body post]|] eqn:E; simpl;
    [|discriminate].
  apply form_loop_body_length in E. simpl in E.
  destruct (_ && _).
  { destruct (substr body j (i - j)); simpl; [|discriminate].
    intros [= <-]. simpl. assumption. }
  destruct (_ && _).
  { destruct (substr body j (i - j)); simpl; [|discriminate].
    intros [= <-]. simpl. assumption. }
  intros [= <-]. simpl. assumption.
Qed.

(** The loop of the form decoder never runs out of its bound. *)
Lemma form_step_advances s s' :
  form_step s = Ok s' -> fv_i s < fv_i s'.
Proof.
  destruct s as [i j key value body post]. unfold form_step.
  destruct (str_at body i) as [ch|]; simpl; [|discriminate].
  destruct (Ascii.eqb ch "=").
  { destruct (substr body j (i - j)); simpl; [|discriminate].
    intros [= <-]. simpl. lia. }
  destruct (Ascii.eqb ch "+").
  { destruct (str_set body i " "); simpl; [|discriminate].
    intros [= <-]. simpl. lia. }
  destruct (Ascii.eqb ch "%").
  { destruct (str_at body (i + 1)); simpl; [|discriminate].
    destruct (str_at body (i + 2)); simpl; [|discriminate].
    destruct (str_set body (i + 2) _) as [b1|]; simpl; [|discriminate].
    destruct (str_set b1 (i + 1) _); simpl; [|discriminate].
    intros [= <-]. simpl. lia. }
  destruct (Ascii.eqb ch "&").
  { destruct (substr body j (i - j)); simpl; [|discriminate].
    intros [= <-]. simpl. lia. }
  intros [= <-]. simpl. lia.
Qed.

Lemma form_step_faults s f :
  form_step s = Fault f -> f = Undefined \/ f = OutOfRange.
Proof.
  destruct s as [i j key value body post]. unfold form_step, str_at, str_set, substr.
  repeat (match goal with
          | |- context [if ?c then _ else _] => destruct c; simpl
          | |- context [match String.get ?k ?s with _ => _ end] =>
              destruct (String.get k s); simpl
          end; try discriminate; try (intros [= <-]; auto)).
Qed.

Lemma form_loop_fuel fuel : forall n s,
  n - fv_i s <= Z.of_nat fuel ->
  form_loop fuel n s <> Fault OutOfFuel.
Proof.
  induction fuel as [|fuel IH]; intros n s Hfuel; simpl.
  - destruct (Z.ltb_spec (fv_i s) n); [lia|discriminate].
  - destruct (Z.ltb_spec (fv_i s) n); [|discriminate].
    destruct (form_step s) as [s'|f] eqn:Es; simpl.
    + apply IH. apply form_step_advances in Es. lia.
    + apply form_step_faults in Es as [-> | ->]; discriminate.
Qed.

End ParserFacts.

Section ParserProperties.
Import HttpRequest.

Variable UserVerify : string -> string -> bool -> result bool.

Lemma parse_nonempty buff r :
  0 < Buffer.ReadableBytes buff ->
  parse UserVerify buff r
  = parse_loop UserVerify (Z.to_nat (Buffer.ReadableBytes buff)) buff r.
Proof.
  intros H. unfold parse.
  destruct (Z.leb_spec (Buffer.ReadableBytes buff) 0); [lia|reflexivity].
Qed.

Lemma parse_loop_no_line fuel buff r :
  Buffer_inv buff -> Buffer_fits buff ->
  0 < Buffer.ReadableBytes buff <= Z.of_nat fuel ->
  next_line buff = None ->
  parse_loop UserVerify fuel buff r = Ok (true, buff, r).
Proof.
  intros Hi Hf Hfuel Hnl. destruct fuel as [|fuel]; [lia|]. simpl.
  destruct (_ && _); [|reflexivity].
  pose proof (parse_step_spec UserVerify buff r Hi Hf) as Hstep.
  rewrite Hnl in Hstep. rewrite Hstep. reflexivity.
Qed.

Lemma parse_loop_request_line fuel buff r line :
  Buffer_inv buff -> Buffer_fits buff ->
  0 < Buffer.ReadableBytes buff <= Z.of_nat fuel ->
  state_ r = REQUEST_LINE ->
  next_line buff = Some line ->
  exists buff',
    Buffer_inv buff' /\ Buffer_fits buff'
    /\ Buffer.ReadableBytes buff' <= Z.of_nat (pred fuel)
    /\ parse_loop UserVerify fuel buff r
       = match ParseRequestLine_ line r with
         | Ok (true, r2) =>
             parse_loop UserVerify (pred fuel) buff' (set_state HEADERS r2)
         | Ok (false, r1) => Ok (false, buff', r1)
         | Fault f => Fault f
         end.
Proof.
  intros Hi Hf Hfuel Hst Hnl. destruct fuel as [|fuel]; [lia|]. simpl.
  destruct (Z.ltb_spec 0 (Buffer.ReadableBytes buff)); [|lia].
  rewrite Hst. simpl.
  pose proof (parse_step_spec UserVerify buff r Hi Hf) as Hstep.
  rewrite Hnl in Hstep. destruct Hstep as (buff' & -> & Hi' & Hf' & Hless & _).
  exists buff'. split; [assumption|]. split; [assumption|]. split; [lia|].
  unfold handle_line. rewrite Hst.
  destruct (ParseRequestLine_ line r) as [[[] r1]|f]; reflexivity.
Qed.

Lemma parse_false_cases buff req b' r' :
  Buffer_inv buff -> Buffer_fits buff ->
  parse UserVerify buff req = Ok (false, b', r') ->
  Buffer.ReadableBytes buff = 0
  \/ (state_ req = REQUEST_LINE
      /\ exists line, next_line buff = Some line
           /\ ParseRequestLine_ line req = Ok (false, r')).
Proof.
  intros Hi Hf Hp.
  assert (Hr : 0 <= Buffer.ReadableBytes buff).
  { rewrite ReadableBytes_inv by assumption. destruct Hi. lia. }
  destruct (Z.eq_dec (Buffer.ReadableBytes buff) 0) as [|Hne]; [auto|right].
  rewrite parse_nonempty in Hp by lia.
  destruct (decide (state_ req = REQUEST_LINE)) as [Hst|Hst].
  - split; [assumption|].
    destruct (next_line buff) as [line|] eqn:Hnl.
    + exists line. split; [reflexivity|].
      destruct (parse_loop_request_line (Z.to_nat (Buffer.ReadableBytes buff))
                  buff req line Hi Hf ltac:(lia) Hst Hnl)
        as (buff' & Hi' & Hf' & Hless & Hl).
      rewrite Hp in Hl.
      destruct (ParseRequestLine_ line req) as [[[] r1]|f].
      * pose proof (parse_loop_later UserVerify _ buff' (set_state HEADERS r1)
                      Hi' Hf' Hless ltac:(discriminate)) as Hlater.
        rewrite <- Hl in Hlater. discriminate.
      * congruence.
      * discriminate.
    + rewrite parse_loop_no_line in Hp by (assumption || lia). discriminate.
  - pose proof (parse_loop_later UserVerify (Z.to_nat (Buffer.ReadableBytes buff))
                  buff req Hi Hf ltac:(lia) Hst) as Hl.
    rewrite Hp in Hl. discriminate.
Qed.

(** In state [BODY] the parser takes the next line for the body, whatever
    the value of [Content-Length]: without a CRLF among the readable bytes
    nothing is consumed, however many bytes there are; with one, the body
    is what stands before it. *)
Lemma body_is_framed_by_crlf buff req :
  Buffer_inv buff -> Buffer_fits buff ->
  state_ req = BODY -> 0 < Buffer.ReadableBytes buff ->
  match next_line buff with
  | None => parse UserVerify buff req = Ok (true, buff, req)
  | Some line =>
      forall r1, ParsePost_ UserVerify (set_body line req) = Ok r1 ->
      exists buff',
        parse UserVerify buff req = Ok (true, buff', set_state FINISH r1)
        /\ Buffer.readable buff'
           = drop (String.length line + 2) (Buffer.readable buff)
  end.
Proof.
  intros Hi Hf Hst Hpos. rewrite parse_nonempty by lia.
  destruct (next_line buff) as [line|] eqn:Hnl.
  - intros r1 Hpost.
    destruct (Z.to_nat (Buffer.ReadableBytes buff)) as [|fuel] eqn:Efuel; [lia|].
    simpl. destruct (Z.ltb_spec 0 (Buffer.ReadableBytes buff)); [|lia].
    rewrite Hst. simpl.
    pose proof (parse_step_spec UserVerify buff req Hi Hf) as Hstep.
    rewrite Hnl in Hstep. destruct Hstep as (buff' & -> & _ & _ & _ & Hrd).
    exists buff'. split; [|assumption].
    unfold handle_line, ParseBody_. rewrite Hst, Hpost. simpl.
    destruct fuel; simpl; rewrite andb_false_r; reflexivity.
  - apply parse_loop_no_line; (assumption || lia).
Qed.











(** C7, as the code has it.  In the header state every non-empty line lets
    the loop go on, whatever its form, and [parse] does not return false.
    A line that matches the pattern of [ParseHeader_] is stored: the text
    before its first colon becomes a key of the headers, bound to the text
    after the colon less one blank, and the other keys keep their values.
    Any other line, a line without a colon for one, leaves the request as
    it is. *)
Theorem malformed_header_is_skipped (buff : Buffer.t) (req : HttpRequest.t)
    (line : string) :
  Buffer_inv buff -> Buffer_fits buff ->
  state_ req = HEADERS -> next_line buff = Some line ->
  line <> EmptyString ->
  (exists buff',
      parse_step UserVerify buff req = Ok (Continue buff' (ParseHeader_ line req))
      /\ Buffer.readable buff'
         = drop (String.length line + 2) (Buffer.readable buff))
  /\ state_ (ParseHeader_ line req) = HEADERS
  /\ (Regex.regex_match header_patten line = None -> ParseHeader_ line req = req)
  /\ (forall b' r', parse UserVerify buff req <> Ok (false, b', r'))
  /\ (cut_at ":" line = None -> ParseHeader_ line req = req)
  /\ (Regex.regex_match header_patten line <> None ->
        exists key value,
          Regex.regex_match header_patten line = Some [key; value]
          /\ ParseHeader_ line req
             = set_header (<[key := value]> (header_ req)) req
          /\ header_ (ParseHeader_ line req) !! key = Some value
          /\ forall other, other <> key ->
                header_ (ParseHeader_ line req) !! other
                = header_ req !! other)
  /\ (forall key rest,
        cut_at ":" line = Some (key, rest) -> one_line rest = true ->
        header_ (ParseHeader_ line req) !! key
        = Some match rest with
               | String c value => if Ascii.eqb c " " then value else rest
               | EmptyString => rest
               end).
Proof.
  intros Hi Hf Hst Hnl Hne.
  assert (Hstored : forall key value,
            Regex.regex_match header_patten line = Some [key; value] ->
            ParseHeader_ line req
            = set_header (<[key := value]> (header_ req)) req).
  { intros key value Hm. unfold ParseHeader_. now rewrite Hm. }
  repeat apply conj.
  - pose proof (parse_step_spec UserVerify buff req Hi Hf) as Hstep.
    rewrite Hnl in Hstep. destruct Hstep as (buff' & -> & _ & _ & _ & Hrd).
    exists buff'. split; [|assumption].
    unfold handle_line. rewrite Hst.
    destruct (String.eqb_spec line EmptyString); [contradiction|reflexivity].
  - unfold ParseHeader_.
    destruct (Regex.regex_match header_patten line) as [[|k [|v [|? ?]]]|];
      simpl; assumption.
  - intros Hno. unfold ParseHeader_. rewrite Hno. reflexivity.
  - intros b' r' Hp.
    destruct (parse_false_cases buff req b' r' Hi Hf Hp) as [H0|[Hrl _]];
      [|congruence].
    apply next_line_Some in Hnl as [Hroom _].
    pose proof (length_readable buff Hi) as Hlen.
    rewrite ReadableBytes_inv in H0 by assumption. lia.
  - intros Hcut. unfold ParseHeader_.
    rewrite header_patten_spec. unfold header_fields. rewrite Hcut. reflexivity.
  - intros Hsome. pose proof (header_patten_spec line) as Hspec.
    unfold header_fields in Hspec.
    destruct (cut_at ":" line) as [[key rest]|]; [|congruence].
    destruct (one_line rest); [|congruence].
    eexists key, _. split; [exact Hspec|].
    rewrite (Hstored _ _ Hspec). split; [reflexivity|]. simpl.
    split; [apply lookup_insert_eq|].
    intros other Hother. now apply lookup_insert_ne.
  - intros key rest Hcut Hone. pose proof (header_patten_spec line) as Hspec.
    unfold header_fields in Hspec. rewrite Hcut, Hone in Hspec.
    rewrite (Hstored _ _ Hspec). simpl. apply lookup_insert_eq.
Qed.

End ParserProperties.

(** * The patterns on sample lines *)

Example request_line_patten_compiled :
  Regex.compile HttpRequest.request_line_source
  = Some HttpRequest.request_line_patten.
Proof. reflexivity. Qed.

Example header_patten_compiled :
  Regex.compile HttpRequest.header_source = Some HttpRequest.header_patten.
Proof. reflexivity. Qed.

Example spec_header_patten_compiled :
  Regex.compile spec_header_source = Some spec_header_patten.
Proof. reflexivity. Qed.

Example request_line_match :
  Regex.regex_match HttpRequest.request_line_patten "GET /index.html HTTP/1.1"
  = Some ["GET"; "/index.html"; "1.1"]%string.
Proof. reflexivity. Qed.

Example request_line_three_spaces :
  Regex.regex_match HttpRequest.request_line_patten "GET /a b HTTP/1.1" = None.
Proof. reflexivity. Qed.

Example request_line_no_version :
  Regex.regex_match HttpRequest.request_line_patten "GET /" = None.
Proof. reflexivity. Qed.

(** The optional blank after the colon is taken when it is there, and only
    one; the value runs to the end of the line, colons included. *)
Example header_match :
  Regex.regex_match HttpRequest.header_patten "Host:  a:b"
  = Some ["Host"; " a:b"]%string.
Proof. reflexivity. Qed.

Example header_no_blank :
  Regex.regex_match HttpRequest.header_patten "Host:x"
  = Some ["Host"; "x"]%string.
Proof. reflexivity. Qed.

(** With [*] the key may be empty; with the [+] of the specification it may
    not. *)
Example header_empty_key :
  Regex.regex_match HttpRequest.header_patten ": x" = Some [EmptyString; "x"%string]
  /\ Regex.regex_match spec_header_patten ": x" = None.
Proof. split; reflexivity. Qed.

(** [.] stops at a carriage return. *)
Example header_with_carriage_return :
  Regex.regex_match HttpRequest.header_patten
    ("Host: a" ++ String CR "b")%string = None.
Proof. reflexivity. Qed.

(** * The parser on concrete requests *)

(** [ParsePath_]: the root, a known page name, any other target. *)
Example ParsePath_samples :
  HttpRequest.ParsePath_ (HttpRequest.set_path "/" HttpRequest.Init)
  = Ok (HttpRequest.set_path "/index.html" HttpRequest.Init)
  /\ HttpRequest.ParsePath_ (HttpRequest.set_path "/a/login" HttpRequest.Init)
     = Ok (HttpRequest.set_path "/a/login.html" HttpRequest.Init)
  /\ HttpRequest.ParsePath_ (HttpRequest.set_path "/a.png" HttpRequest.Init)
     = Ok (HttpRequest.set_path "/a.png" HttpRequest.Init).
Proof. repeat split. Qed.

Section ParserExamples.
Import HttpRequest.

(** C1, first input: a POST whose five body bytes follow the blank line with
    no CRLF after them.  [Content-Length: 5] is among the headers and all
    five bytes are in the buffer, yet the parser stays in [BODY] with an
    empty body and leaves the bytes unread. *)
Theorem body_without_crlf_is_not_consumed :
  let request :=
    ("POST /post HTTP/1.1" ++ crlf ++ "Content-Length: 5" ++ crlf ++ crlf
       ++ "hello")%string in
  exists buff r,
    parse no_database (received request) Init = Ok (true, buff, r)
    /\ header_ r !! "Content-Length"%string = Some "5"%string
    /\ state_ r = BODY
    /\ body_ r = EmptyString
    /\ Buffer.readable buff = list_ascii_of_string "hello".
Proof. vm_compute. do 2 eexists. repeat split. Qed.

(** C1, second input: the six body bytes contain a CRLF.  The parser
    finishes after the first line of the body: the body field holds two of
    the six bytes and the last two stay in the buffer. *)
Theorem body_is_cut_at_crlf :
  let request :=
    ("POST /post HTTP/1.1" ++ crlf ++ "Content-Length: 6" ++ crlf ++ crlf
       ++ "ab" ++ crlf ++ "cd")%string in
  exists buff r,
    parse no_database (received request) Init = Ok (true, buff, r)
    /\ header_ r !! "Content-Length"%string = Some "6"%string
    /\ state_ r = FINISH
    /\ body_ r = "ab"%string
    /\ Buffer.readable buff = list_ascii_of_string "cd".
Proof. vm_compute. do 2 eexists. repeat split. Qed.

(** C5: the form [k=a%41b].  The escape [%41] is not replaced by the byte
    65 (the letter A): its two digits are overwritten with the decimal
    digits of 65 and the percent sign stays. *)
Theorem percent_escape_is_not_decoded :
  exists r,
    ParseFromUrlencoded_ (set_body "k=a%41b" Init) = Ok r
    /\ post_ r !! "k"%string = Some "a%65b"%string
    /\ post_ r !! "k"%string <> Some "aAb"%string
    /\ body_ r = "k=a%65b"%string.
Proof. vm_compute. eexists. repeat split. discriminate. Qed.

(** The other two rules of the form decoder on an example: pairs are split
    at [&] and [=], and [+] becomes a space. *)
Example form_split_and_plus :
  exists r,
    ParseFromUrlencoded_ (set_body "name=a+b&x=1&flag" Init) = Ok r
    /\ post_ r = <["name"%string := "a b"%string]>
                   (<["x"%string := "1"%string]>
                      (<["flag"%string := EmptyString]> ∅)).
Proof. vm_compute. eexists. split; reflexivity. Qed.

(** C7, refuted as stated: a header line without a colon does not match the
    header syntax, and the request is parsed to the end as if the line were
    not there. *)
Lemma malformed_header_accepted :
  let request :=
    ("GET / HTTP/1.1" ++ crlf ++ "bad header" ++ crlf ++ crlf)%string in
  Regex.regex_match spec_header_patten "bad header" = None
  /\ exists buff r,
       parse no_database (received request) Init = Ok (true, buff, r)
       /\ state_ r = FINISH
       /\ header_ r = ∅.
Proof. vm_compute. split; [reflexivity|]. do 2 eexists. repeat split. Qed.


(** An incomplete request: the header block is not closed by an empty line;
    [parse] returns true in state [HEADERS]. *)
Example parse_true_on_incomplete_request :
  let request := ("GET / HTTP/1.1" ++ crlf ++ "Host: x" ++ crlf)%string in
  exists buff r,
    parse no_database (received request) Init = Ok (true, buff, r)
    /\ state_ r = HEADERS.
Proof. vm_compute. do 2 eexists. split; reflexivity. Qed.

End ParserExamples.

(** * The response builder *)

Section ResponseProperties.
Import HttpResponse.

Variable fs : gmap string file.

Lemma CODE_PATH_error_codes c :
  CODE_PATH !! c = if bool_decide (c ∈ error_codes) then Some (error_page c) else None.
Proof.
  destruct (decide (c = 400)) as [->|]; [reflexivity|].
  destruct (decide (c = 403)) as [->|]; [reflexivity|].
  destruct (decide (c = 404)) as [->|]; [reflexivity|].
  destruct (decide (c = 500)) as [->|]; [reflexivity|].
  rewrite bool_decide_eq_false_2.
  - unfold CODE_PATH. simpl. rewrite !lookup_insert_ne by congruence.
    apply lookup_empty.
  - unfold error_codes. rewrite !elem_of_cons, elem_of_nil. tauto.
Qed.


Lemma CODE_STATUS_known c :
  CODE_STATUS !! c = None <-> c ∉ known_codes.
Proof.
  unfold known_codes. rewrite !not_elem_of_cons.
  destruct (decide (c = 200)) as [->|]; [split; [discriminate|tauto]|].
  destruct (decide (c = 400)) as [->|]; [split; [discriminate|tauto]|].
  destruct (decide (c = 403)) as [->|]; [split; [discriminate|tauto]|].
  destruct (decide (c = 404)) as [->|]; [split; [discriminate|tauto]|].
  destruct (decide (c = 500)) as [->|]; [split; [discriminate|tauto]|].
  split; [intros _; repeat split; auto; apply not_elem_of_nil|].
  intros _. unfold CODE_STATUS. simpl.
  rewrite !lookup_insert_ne by congruence. apply lookup_empty.
Qed.

Lemma AddStateLine_code buff r buff' r' :
  AddStateLine_ buff r = Ok (buff', r') ->
  r' = (if bool_decide (code_ r ∈ known_codes) then r else set_code 400 r).
Proof.
  unfold AddStateLine_.
  destruct (CODE_STATUS !! code_ r) as [st|] eqn:E.
  - rewrite bool_decide_eq_true_2.
    2:{ destruct (decide (code_ r ∈ known_codes)) as [|Hn]; [assumption|].
        apply CODE_STATUS_known in Hn. congruence. }
    cbv beta iota zeta.
    destruct (Buffer.Append_str _ _); simpl; [|discriminate]. intros [= <- <-]; auto.
  - rewrite bool_decide_eq_false_2 by now apply CODE_STATUS_known.
    cbv beta iota zeta.
    destruct (Buffer.Append_str _ _); simpl; [|discriminate]. intros [= <- <-]; auto.
Qed.

Lemma AddContent_fields buff r buff' r' :
  AddContent_ fs buff r = Ok (buff', r') ->
  code_ r' = code_ r /\ path_ r' = path_ r.
Proof.
  unfold AddContent_.
  destruct (fs !! _) as [f|].
  - destruct (can_open f).
    + destruct (can_mmap f); [|destruct (ErrorContent _ _ _)]; simpl;
        try discriminate;
        (destruct (Buffer.Append_str _ _); simpl; [|discriminate]);
        (destruct (Buffer.Append_str _ _); simpl; [|discriminate]);
        intros [= <- <-]; auto.
    + destruct (ErrorContent _ _ _); simpl; [|discriminate]. intros [= <- <-]; auto.
  - destruct (ErrorContent _ _ _); simpl; [|discriminate]. intros [= <- <-]; auto.
Qed.







End ResponseProperties.

(** A readable file, asked for with the code still unknown. *)
Example MakeResponse_index :
  let index := HttpResponse.mk_file (HttpResponse.S_IFREG + 420) 2 true true in
  let fs : gmap string HttpResponse.file := {[ "/srv/index.html"%string := index ]} in
  exists buff r,
    HttpResponse.MakeResponse fs (Buffer.init 16)
      (HttpResponse.Init "/srv" "/index.html" true (-1)) = Ok (buff, r)
    /\ HttpResponse.code_ r = 200
    /\ HttpResponse.mmFile_ r = HttpResponse.Mapped "/srv/index.html"
    /\ string_of_list_ascii (Buffer.readable buff)
       = ("HTTP/1.1 200 OK" ++ crlf ++ "Connection: keep-alive" ++ crlf
            ++ "Keep-Alive: max=6, timeout=120" ++ crlf
            ++ "Content-Type: text/html" ++ crlf ++ "Content-Length: 2" ++ crlf
            ++ crlf)%string.
Proof. vm_compute. do 2 eexists. repeat split. Qed.

(** A request for a file that is not there, with the 404 page in place. *)
Example MakeResponse_missing_file :
  let page := HttpResponse.mk_file (HttpResponse.S_IFREG + 420) 9 true true in
  let fs : gmap string HttpResponse.file := {[ "/srv/404.html"%string := page ]} in
  exists buff r,
    HttpResponse.MakeResponse fs (Buffer.init 16)
      (HttpResponse.Init "/srv" "/missing.html" false (-1)) = Ok (buff, r)
    /\ HttpResponse.code_ r = 404
    /\ HttpResponse.path_ r = "/404.html"%string
    /\ string_of_list_ascii (Buffer.readable buff)
       = ("HTTP/1.1 404 Not Found" ++ crlf ++ "Connection: close" ++ crlf
            ++ "Content-Type: text/html" ++ crlf ++ "Content-Length: 9" ++ crlf
            ++ crlf)%string.
Proof. vm_compute. do 2 eexists. repeat split. Qed.

(** * The SQL connection pool *)

Section PoolProperties.
Import SqlConnPool.

Lemma Init_settled connSize connect s0 :
  (forall i, connect i <> nullptr) ->
  Init connSize connect fresh = Returns tt s0 ->
  pool_settled s0 /\ GetFreeConnCount s0 = connSize.
Proof.
  intros Hlive. unfold Init.
  destruct (Z.ltb_spec 0 connSize); [|discriminate].
  intros [= <-]. unfold pool_settled, GetFreeConnCount. simpl.
  rewrite length_map, length_seq. repeat split; try lia.
  apply Forall_forall. intros c Hc. apply list_elem_of_In, in_map_iff in Hc.
  destruct Hc as (i & <- & _). apply Hlive.
Qed.

Lemma GetConn_settled s :
  pool_settled s ->
  match connQue_ s with
  | [] => GetConn s = Returns nullptr s
  | c :: rest =>
      c <> nullptr
      /\ GetConn s = Returns c (mk (MAX_CONN_ s) rest (semId_ s - 1))
      /\ pool_settled (mk (MAX_CONN_ s) rest (semId_ s - 1))
  end.
Proof.
  intros [Hsem Hall]. unfold GetConn, GetFreeConnCount in *.
  destruct (connQue_ s) as [|c rest]; [reflexivity|].
  simpl in Hsem. inversion Hall as [|? ? Hc Hrest]; subst.
  destruct (Z.ltb_spec 0 (semId_ s)); [|lia].
  repeat split; auto. unfold GetFreeConnCount. simpl. lia.
Qed.

Lemma FreeConn_settled c s s' :
  pool_settled s -> FreeConn c s = Returns tt s' -> pool_settled s'.
Proof.
  intros [Hsem Hall]. unfold FreeConn.
  destruct (Z.eqb_spec c nullptr); [discriminate|].
  intros [= <-]. unfold pool_settled, GetFreeConnCount in *. simpl.
  rewrite length_app. simpl. split; [lia|].
  apply Forall_app. split; [assumption|]. now constructor.
Qed.

Lemma run_settled calls : forall s got s' got',
  pool_settled s -> run s got calls = Some (s', got') -> pool_settled s'.
Proof.
  induction calls as [|[|c] calls IH]; intros s got s' got' Hs; simpl.
  - now intros [= <- _].
  - pose proof (GetConn_settled s Hs) as Hg.
    destruct (connQue_ s) as [|c rest].
    + rewrite Hg. apply IH. assumption.
    + destruct Hg as (_ & -> & Hs1). apply IH. assumption.
  - destruct (FreeConn c s) as [[] s1| |] eqn:Ef; try discriminate.
    apply IH. eapply FreeConn_settled; eassumption.
Qed.

(** C4, as the code has it.  After [Init] has put [M] live connections into
    the pool, and with the calls made one after the other: the semaphore
    counts the idle connections; with none idle [GetConn] returns the null
    pointer at once and leaves the pool as it is; otherwise it takes the
    semaphore and returns the connection at the front, which is not null.
    In neither case does the call block. *)
Theorem GetConn_after_Init (M : Z) (connect : nat -> MYSQL)
    (calls : list call) (s0 s : t) (got : list MYSQL) :
  (forall i, connect i <> nullptr) ->
  Init M connect fresh = Returns tt s0 ->
  run s0 [] calls = Some (s, got) ->
  GetFreeConnCount s0 = M
  /\ semId_ s = GetFreeConnCount s
  /\ (GetFreeConnCount s = 0 -> GetConn s = Returns nullptr s)
  /\ (0 < GetFreeConnCount s ->
        exists c rest, connQue_ s = c :: rest /\ c <> nullptr
          /\ GetConn s = Returns c (mk (MAX_CONN_ s) rest (semId_ s - 1)))
  /\ (forall s', GetConn s <> Blocks s').
Proof.
  intros Hlive Hinit Hrun.
  destruct (Init_settled M connect s0 Hlive Hinit) as [Hs0 HM].
  pose proof (run_settled calls s0 [] s got Hs0 Hrun) as Hs.
  pose proof (GetConn_settled s Hs) as Hg. pose proof Hs as [Hsem _].
  split; [assumption|]. split; [assumption|].
  unfold GetFreeConnCount in *.
  destruct (connQue_ s) as [|c rest]; simpl.
  - repeat split; [auto|lia|]. intros s'. rewrite Hg. discriminate.
  - destruct Hg as (Hc & Hg & _). repeat split; [lia| |].
    + intros _. eauto.
    + intros s'. rewrite Hg. discriminate.
Qed.

(** C4, refuted as stated: a pool of one connection, handed out; the idle
    count is 0, and the next [GetConn] returns, with the null pointer. *)
Lemma GetConn_returns_null_when_exhausted :
  exists s0 s1,
    Init 1 (fun _ => 7) fresh = Returns tt s0
    /\ GetConn s0 = Returns 7 s1
    /\ GetFreeConnCount s1 = 0
    /\ GetConn s1 = Returns nullptr s1.
Proof. do 2 eexists. repeat split. Qed.

Lemma GetConn_after_Init_witness :
  (forall i : nat, (fun _ : nat => 7) i <> nullptr)
  /\ Init 1 (fun _ => 7) fresh = Returns tt (mk 1 [7] 1)
  /\ run (mk 1 [7] 1) [] [CallGet; CallFree 7; CallGet]
     = Some (mk 1 [] 0, [7; 7])
  /\ GetConn (mk 1 [] 0) = Returns nullptr (mk 1 [] 0).
Proof.
  assert (Hlive : forall i : nat, (fun _ : nat => 7) i <> nullptr)
    by (intros _; discriminate).
  split; [exact Hlive|]. split; [reflexivity|]. split; [reflexivity|].
  apply (GetConn_after_Init 1 (fun _ => 7) [CallGet; CallFree 7; CallGet]
           (mk 1 [7] 1) (mk 1 [] 0) [7; 7] Hlive eq_refl eq_refl).
  reflexivity.
Defined.

End PoolProperties.

(** * The log file *)

Section LogProperties.
Import Log.

Variables LOG_PATH_LEN LOG_NAME_LEN MAX_LINES : Z.

Lemma substring_whole s : forall n,
  (String.length s <= n)%nat -> String.substring 0 n s = s.
Proof.
  induction s as [|c s IH]; intros [|n] Hn; simpl in *; try reflexivity; try lia.
  f_equal. apply IH. lia.
Qed.

Lemma snprintf_fits capacity size text :
  0 < size < 2 ^ 64 -> str_size text < size -> str_size text < capacity ->
  snprintf capacity size text = Ok text.
Proof.
  intros Hsize Htext Hcap. unfold snprintf, str_size in *.
  rewrite size_t_small by lia.
  destruct (Z.eqb_spec size 0); [lia|].
  rewrite substring_whole by lia.
  destruct (Z.ltb_spec capacity (Z.of_nat (String.length text) + 1)); [lia|reflexivity].
Qed.

(** Lines written on the day of the open file, short of the cap, are
    counted and leave the file as it is. *)
Lemma writes_same_day now l n :
  toDay_ l = tm_mday now -> lineCount_ l = 0 ->
  Z.of_nat n <= MAX_LINES_ l ->
  writes LOG_PATH_LEN LOG_NAME_LEN n now l
  = Ok (mk (Z.of_nat n) (toDay_ l) (path_ l) (suffix_ l) (MAX_LINES_ l) (fp_ l)).
Proof.
  intros Hday Hzero. induction n as [|n IH]; intros Hn.
  - simpl. destruct l; simpl in *. now subst.
  - simpl. rewrite IH by lia. simpl. unfold write, must_roll. simpl.
    rewrite Hday, Z.eqb_refl. simpl.
    assert (Hno : negb (Z.of_nat n =? 0)
                  && (Z.rem (Z.of_nat n) (MAX_LINES_ l) =? 0) = false).
    { destruct (Z.eqb_spec (Z.of_nat n) 0) as [|Hpos]; [reflexivity|]. simpl.
      rewrite Z.rem_small by lia. now apply Z.eqb_neq. }
    rewrite Hno. simpl. do 2 f_equal. lia.
Qed.

(** A call of [write] that is to roll the file stops at [flush]: the name
    is built, and the lock that the block holds is asked for again. *)
Lemma write_stops_at_flush now l :
  must_roll now l = true ->
  write LOG_PATH_LEN LOG_NAME_LEN now l
  = (newFile ← roll_fileName LOG_PATH_LEN LOG_NAME_LEN now l;
     Fault Undefined).
Proof.
  intros Hroll. unfold write, flush, lock_guard. cbn [mbind result_bind].
  rewrite Hroll.
  now destruct (roll_fileName LOG_PATH_LEN LOG_NAME_LEN now l).
Qed.

(** C9, the code at work: a log opened on 2026-10-29 in [./log] with suffix
    [.log].  [init] names the file by the date.  No call of [write] that is
    to roll the file returns, so no file is opened by a roll: the call stops
    at [flush], which asks for the lock that [write] holds.  The name built
    for [fopen] before that is not of the layout either.  For the first line
    written on 2026-10-30 it holds the path twice, the suffix twice, and
    [0000_00_29] for the date: the day of the old file, no year and no
    month.  For the roll at the line cap on 2026-10-29, reached after
    [MAX_LINES] lines that all went to the first file, it is the same with
    the sequence number before the second suffix. *)
Theorem roll_file_name_is_not_dated :
  33 <= LOG_PATH_LEN < 2 ^ 64 -> 105 <= LOG_NAME_LEN < 2 ^ 64 ->
  0 < MAX_LINES ->
  let day29 := mk_tm 126 9 29 in
  let day30 := mk_tm 126 9 30 in
  (forall now l l',
     must_roll now l = true ->
     write LOG_PATH_LEN LOG_NAME_LEN now l <> Ok l')
  /\ exists l0,
       init LOG_PATH_LEN "./log" ".log" day29 (fresh MAX_LINES) = Ok l0
       /\ fp_ l0 = Some (dated_name "./log" ".log" day29)
       /\ (must_roll day30 l0 = true
           /\ roll_fileName LOG_PATH_LEN LOG_NAME_LEN day30 l0
              = Ok "./log/./log.0000_00_29.log.log"%string
           /\ "./log/./log.0000_00_29.log.log"%string
              <> dated_name "./log" ".log" day30
           /\ write LOG_PATH_LEN LOG_NAME_LEN day30 l0 = Fault Undefined)
       /\ (exists l2,
             writes LOG_PATH_LEN LOG_NAME_LEN (Z.to_nat MAX_LINES) day29 l0
             = Ok l2
             /\ fp_ l2 = fp_ l0
             /\ must_roll day29 l2 = true
             /\ roll_fileName LOG_PATH_LEN LOG_NAME_LEN day29 l2
                = Ok "./log/./log.0000_00_29.log.1.log"%string
             /\ (forall k, "./log/./log.0000_00_29.log.1.log"%string
                           <> dated_name_seq "./log" ".log" day29 k)
             /\ write LOG_PATH_LEN LOG_NAME_LEN day29 l2 = Fault Undefined).
Proof.
  intros Hpath Hname Hmax day29 day30. split.
  { intros now l l' Hroll. rewrite write_stops_at_flush by exact Hroll.
    now destruct (roll_fileName LOG_PATH_LEN LOG_NAME_LEN now l). }
  assert (Hinit : init_fileName LOG_PATH_LEN "./log" ".log" day29
                  = Ok "./log/2026_10_29.log"%string).
  { unfold init_fileName. apply snprintf_fits; vm_compute str_size; lia. }
  unfold init. rewrite Hinit. simpl.
  eexists. split; [reflexivity|]. split; [reflexivity|]. split.
  - assert (Hname30 : roll_fileName LOG_PATH_LEN LOG_NAME_LEN day30
                        (mk 0 29 "./log" ".log" MAX_LINES
                            (Some "./log/2026_10_29.log"%string))
                      = Ok "./log/./log.0000_00_29.log.log"%string).
    { unfold roll_fileName. simpl.
      now rewrite snprintf_fits by (vm_compute str_size; lia). }
    split; [reflexivity|]. split; [exact Hname30|]. split; [discriminate|].
    rewrite write_stops_at_flush by reflexivity. now rewrite Hname30.
  - rewrite writes_same_day by (simpl; lia). simpl.
    rewrite Z2Nat.id by lia.
    assert (Hroll : must_roll day29
                      (mk MAX_LINES 29 "./log" ".log" MAX_LINES
                          (Some "./log/2026_10_29.log"%string)) = true).
    { unfold must_roll. simpl.
      destruct (Z.eqb_spec MAX_LINES 0); [lia|]. simpl.
      rewrite Z.rem_same by lia. reflexivity. }
    assert (Hname29 : roll_fileName LOG_PATH_LEN LOG_NAME_LEN day29
                        (mk MAX_LINES 29 "./log" ".log" MAX_LINES
                            (Some "./log/2026_10_29.log"%string))
                      = Ok "./log/./log.0000_00_29.log.1.log"%string).
    { unfold roll_fileName. simpl. rewrite Z.quot_same by lia. simpl.
      now rewrite snprintf_fits by (vm_compute str_size; lia). }
    eexists. split; [reflexivity|]. split; [reflexivity|].
    split; [exact Hroll|]. split; [exact Hname29|].
    split; [intros k; discriminate|].
    rewrite write_stops_at_flush by exact Hroll. now rewrite Hname29.
Qed.

End LogProperties.

(** * The theorems at concrete inputs *)

Lemma sample_buffer_inv : Buffer_inv sample_buffer.
Proof. split; vm_compute; discriminate. Defined.

Lemma sample_buffer_fits : Buffer_fits sample_buffer.
Proof. vm_compute. discriminate. Defined.

Lemma Buffer_operations_preserve_invariant_witness :
  Buffer_inv sample_buffer /\ Buffer_fits sample_buffer
  /\ exists b', Buffer.Retrieve (Buffer.ReadableBytes sample_buffer) sample_buffer
                = Ok b'
       /\ Buffer.readPos_ b' = 0 /\ Buffer.writePos_ b' = 0.
Proof.
  split; [exact sample_buffer_inv|]. split; [exact sample_buffer_fits|].
  exact (proj1 (proj2 (proj2 (proj2 (proj2 (proj2 (proj2 (proj2 (proj2 (proj2
    (Buffer_operations_preserve_invariant sample_buffer
       sample_buffer_inv sample_buffer_fits))))))))))).
Defined.

Lemma MakeSpace_growth_policy_witness :
  Buffer_inv sample_buffer /\ Buffer_fits sample_buffer
  /\ Buffer.WritableBytes sample_buffer < 3
  /\ Buffer.EnsureWriteable 3 sample_buffer = Buffer.MakeSpace_ 3 sample_buffer.
Proof.
  split; [exact sample_buffer_inv|]. split; [exact sample_buffer_fits|].
  split; [reflexivity|].
  exact (proj1 (MakeSpace_growth_policy 3 sample_buffer
                  sample_buffer_inv sample_buffer_fits
                  ltac:(discriminate) ltac:(reflexivity) ltac:(reflexivity))).
Defined.

Lemma ReadFd_scatter_read_witness :
  Buffer_inv sample_buffer /\ Buffer_fits sample_buffer
  /\ Buffer.ReadFd_iov sample_buffer = [2; 65536].
Proof.
  split; [exact sample_buffer_inv|]. split; [exact sample_buffer_fits|].
  exact (proj1 (ReadFd_scatter_read (list_ascii_of_string "xyz") sample_buffer
                  sample_buffer_inv sample_buffer_fits ltac:(reflexivity))).
Defined.

(** A read that overflows the tail and enlarges nothing: the buffer has
    8 bytes of storage, two read, four readable, two writable; [readv]
    delivers three bytes, two to the tail and one to the scratch array, and
    [Append] makes room for that one by moving the readable bytes to the
    front.  The storage has 8 bytes afterwards. *)
Lemma ReadFd_overflow_without_growth :
  Buffer.size sample_buffer = 8
  /\ Buffer.WritableBytes sample_buffer = 2
  /\ exists b',
       Buffer.ReadFd (Buffer.ReadData (list_ascii_of_string "xyz")) sample_buffer
       = Ok (3, b', None)
       /\ Buffer.WritableBytes sample_buffer < 3
       /\ Buffer.size b' = Buffer.size sample_buffer
       /\ Buffer.readPos_ b' = 0
       /\ Buffer.readable b'
          = Buffer.readable sample_buffer ++ list_ascii_of_string "xyz".
Proof.
  split; [reflexivity|]. split; [reflexivity|].
  eexists. split; [vm_compute; reflexivity|].
  split; [reflexivity|]. split; [reflexivity|]. split; reflexivity.
Qed.

Lemma sample_headers_inv : Buffer_inv sample_headers.
Proof. split; vm_compute; discriminate. Defined.

Lemma sample_headers_fits : Buffer_fits sample_headers.
Proof. vm_compute. discriminate. Defined.


Lemma malformed_header_is_skipped_witness :
  Buffer_inv sample_headers /\ Buffer_fits sample_headers
  /\ HttpRequest.state_ (HttpRequest.set_state HttpRequest.HEADERS HttpRequest.Init)
     = HttpRequest.HEADERS
  /\ next_line sample_headers = Some "bad header"%string
  /\ "bad header"%string <> EmptyString
  /\ HttpRequest.state_
       (HttpRequest.ParseHeader_ "bad header"
          (HttpRequest.set_state HttpRequest.HEADERS HttpRequest.Init))
     = HttpRequest.HEADERS.
Proof.
  split; [exact sample_headers_inv|]. split; [exact sample_headers_fits|].
  split; [reflexivity|]. split; [reflexivity|]. split; [discriminate|].
  exact (proj1 (proj2
    (malformed_header_is_skipped no_database sample_headers
       (HttpRequest.set_state HttpRequest.HEADERS HttpRequest.Init)
       "bad header" sample_headers_inv sample_headers_fits
       eq_refl eq_refl ltac:(discriminate)))).
Defined.


Lemma roll_file_name_is_not_dated_witness :
  33 <= 256 < 2 ^ 64 /\ 105 <= 256 < 2 ^ 64 /\ 0 < 50000
  /\ exists l0,
       Log.init 256 "./log" ".log" (Log.mk_tm 126 9 29) (Log.fresh 50000) = Ok l0
       /\ Log.fp_ l0 = Some "./log/2026_10_29.log"%string
       /\ Log.roll_fileName 256 256 (Log.mk_tm 126 9 30) l0
          = Ok "./log/./log.0000_00_29.log.log"%string
       /\ Log.write 256 256 (Log.mk_tm 126 9 30) l0 = Fault Undefined.
Proof.
  assert (H1 : 33 <= 256 < 2 ^ 64) by (split; [discriminate|reflexivity]).
  assert (H2 : 105 <= 256 < 2 ^ 64) by (split; [discriminate|reflexivity]).
  split; [exact H1|]. split; [exact H2|]. split; [reflexivity|].
  destruct (roll_file_name_is_not_dated 256 256 50000 H1 H2 eq_refl)
    as (_ & l0 & Hinit & Hfp & (_ & Hname & _ & Hwrite) & _).
  exists l0. split; [exact Hinit|]. split; [exact Hfp|].
  split; [exact Hname|exact Hwrite].
Defined.

(** * More of the buffer *)

Section BufferContent.
Import Buffer.

Lemma string_of_list_ascii_app l s :
  string_of_list_ascii (l ++ list_ascii_of_string s)
  = (string_of_list_ascii l ++ s)%string.
Proof.
  induction l as [|c l IH]; simpl.
  - rewrite append_Empty. apply string_of_list_ascii_of_string.
  - rewrite append_String. now rewrite IH.
Qed.

(** X1.  [Buffer::Append] puts the bytes behind the readable ones: after the
    call the readable region is the old one followed by the data, and
    [ReadableBytes()] has grown by the length of the data. *)
Theorem Append_adds_at_the_end (data : list ascii) (b : Buffer.t) :
  Buffer_inv b -> Buffer_fits b ->
  writePos_ b + Z.of_nat (length data) < vector_max_size ->
  exists b', Append data b = Ok b'
    /\ readable b' = readable b ++ data
    /\ ReadableBytes b' = ReadableBytes b + Z.of_nat (length data).
Proof.
  intros Hinv Hfit Hroom.
  destruct (Append_spec data b Hinv Hfit Hroom) as (b' & Happ & Hinv' & Hfit' & Hread).
  exists b'. split; [exact Happ|]. split; [exact Hread|].
  rewrite (ReadableBytes_inv _ Hinv' Hfit'), (ReadableBytes_inv _ Hinv Hfit).
  rewrite <- (length_readable _ Hinv'), <- (length_readable _ Hinv).
  rewrite Hread, length_app. lia.
Qed.

(** X2.  [Buffer::Retrieve(len)] with [len] no larger than [ReadableBytes()]
    takes exactly the first [len] readable bytes away and leaves the
    storage as it is; with a larger [len] its assertion fails. *)
Theorem Retrieve_drops_the_front (len : Z) (b : Buffer.t) :
  Buffer_inv b -> Buffer_fits b -> 0 <= len ->
  (len <= ReadableBytes b ->
     exists b', Retrieve len b = Ok b'
       /\ buffer_ b' = buffer_ b
       /\ readable b' = drop (Z.to_nat len) (readable b))
  /\ (ReadableBytes b < len -> Retrieve len b = Fault AssertFail).
Proof.
  intros Hinv Hfit Hlen. split.
  - intros Hle.
    destruct (Retrieve_spec len b Hinv Hfit (conj Hlen Hle))
      as (b' & Hret & _ & _ & _ & Hread).
    exists b'. split; [exact Hret|]. split; [|exact Hread].
    unfold Retrieve in Hret.
    destruct (len <=? ReadableBytes b); simpl in Hret; [|discriminate].
    destruct (_ =? _); injection Hret as <-; reflexivity.
  - intros Hlt. unfold Retrieve.
    destruct (Z.leb_spec len (ReadableBytes b)); [lia|reflexivity].
Qed.

(** X3.  Round trip through the buffer: after [Append(str)],
    [RetrieveAllToStr] returns what was readable before followed by [str],
    and leaves nothing to read. *)
Theorem Append_then_RetrieveAllToStr (str : string) (b : Buffer.t) :
  Buffer_inv b -> Buffer_fits b ->
  writePos_ b + str_size str < vector_max_size ->
  exists b', Append_str str b = Ok b'
    /\ fst (RetrieveAllToStr b')
       = (string_of_list_ascii (readable b) ++ str)%string
    /\ readable (snd (RetrieveAllToStr b')) = [].
Proof.
  intros Hinv Hfit Hroom. unfold Append_str.
  destruct (Append_spec (list_ascii_of_string str) b Hinv Hfit)
    as (b' & Happ & _ & _ & Hread).
  { rewrite length_list_ascii_of_string. exact Hroom. }
  exists b'. split; [exact Happ|]. unfold RetrieveAllToStr; simpl.
  rewrite Hread, string_of_list_ascii_app. split; [reflexivity|].
  unfold readable, range, RetrieveAll; simpl. reflexivity.
Qed.

(** X4.  [Buffer::WriteFd]: when [write] reports [ret] bytes, with [ret]
    between 0 and [ReadableBytes()], those bytes leave the front of the
    readable region and the rest stays, in order; when [write] fails, the
    buffer is unchanged and [errno] is passed on. *)
Theorem WriteFd_keeps_the_unsent_rest (ret errno : Z) (b : Buffer.t) :
  Buffer_inv b -> Buffer_fits b ->
  (0 <= ret <= ReadableBytes b ->
     exists b', WriteFd ret errno b = (ret, b', None)
       /\ Buffer_inv b'
       /\ readable b' = drop (Z.to_nat ret) (readable b))
  /\ (ret < 0 -> WriteFd ret errno b = (ret, b, Some errno)).
Proof.
  intros Hinv Hfit. split.
  - intros Hret.
    destruct (Retrieve_spec ret b Hinv Hfit Hret)
      as (b' & Hr & Hinv' & _ & _ & Hread).
    exists b'. split; [|split; assumption].
    unfold Retrieve in Hr. unfold WriteFd.
    destruct (Z.leb_spec ret (ReadableBytes b)); [|lia]. simpl in Hr.
    destruct (Z.ltb_spec ret 0); [lia|].
    destruct (_ =? _); injection Hr as <-; reflexivity.
  - intros Hneg. unfold WriteFd.
    destruct (Z.ltb_spec ret 0); [reflexivity|lia].
Qed.

(** X5.  [Buffer::EnsureWriteable(len)] returns, its assertion holding, with at
    least [len] writable bytes and the readable bytes unchanged; a buffer
    that has the room already is not touched. *)
Theorem EnsureWriteable_makes_room (len : Z) (b : Buffer.t) :
  Buffer_inv b -> Buffer_fits b -> 0 <= len ->
  writePos_ b + len < vector_max_size ->
  exists b', EnsureWriteable len b = Ok b'
    /\ len <= WritableBytes b'
    /\ readable b' = readable b
    /\ (len <= WritableBytes b -> b' = b).
Proof.
  intros Hinv Hfit Hlen Hroom.
  destruct (EnsureWriteable_spec len b Hinv Hfit Hlen Hroom)
    as (b' & Hens & Hinv' & Hfit' & Hw & _ & Hread).
  exists b'. split; [exact Hens|].
  split; [rewrite (WritableBytes_inv _ Hinv' Hfit'); exact Hw|].
  split; [exact Hread|].
  intros Hle. unfold EnsureWriteable in Hens.
  destruct (Z.ltb_spec (WritableBytes b) len); [lia|]. simpl in Hens.
  destruct (len <=? WritableBytes b); simpl in Hens; congruence.
Qed.

End BufferContent.

(** * More of the request parser *)

Section RequestFields.
Import HttpRequest.

(** X6.  [HttpRequest::ConverHex] gives the value of a hexadecimal digit, the
    same for both cases of a letter, and [-1] for every other character;
    so its result lies between [-1] and [15]. *)
Theorem ConverHex_hex_value (ch : ascii) :
  ConverHex ch = hex_value ch /\ -1 <= ConverHex ch <= 15.
Proof.
  destruct ch as [[] [] [] [] [] [] [] []]; vm_compute; intuition congruence.
Qed.

Lemma cut_at_intro c a b :
  free_of c a = true -> cut_at c (a ++ String c b) = Some (a, b).
Proof.
  induction a as [|d a IH]; simpl; intros H.
  - rewrite ?append_Empty. simpl. now rewrite Ascii.eqb_refl.
  - rewrite ?append_String. simpl.
    apply andb_prop in H as [Hd Ha]. apply negb_true_iff in Hd.
    rewrite Hd, (IH Ha). reflexivity.
Qed.

Lemma request_fields_intro m p v :
  free_of " " m = true -> free_of " " p = true -> free_of " " v = true ->
  request_fields (m ++ " " ++ p ++ " HTTP/" ++ v) = Some [m; p; v].
Proof.
  intros Hm Hp Hv. unfold request_fields.
  change (m ++ " " ++ p ++ " HTTP/" ++ v)%string
    with (m ++ String " " (p ++ String " " ("HTTP/" ++ v)))%string.
  rewrite (cut_at_intro " " m _ Hm), (cut_at_intro " " p _ Hp).
  simpl. rewrite ?append_Empty, Hv.
  reflexivity.
Qed.

Lemma strip_prefix_app pre s v :
  strip_prefix pre s = Some v -> s = (pre ++ v)%string.
Proof.
  revert s; induction pre as [|c pre IH]; intros s; simpl.
  - intros [= ->]. now rewrite ?append_Empty.
  - destruct s as [|d s]; [discriminate|].
    destruct (Ascii.eqb_spec d c) as [->|]; [|discriminate].
    intros H. rewrite ?append_String. simpl. f_equal. now apply IH.
Qed.

Lemma cut_at_free c s a b :
  cut_at c s = Some (a, b) -> free_of c a = true.
Proof.
  revert a; induction s as [|d s IH]; simpl; intros a; [discriminate|].
  destruct (Ascii.eqb d c) eqn:E; [intros [= <- _]; reflexivity|].
  destruct (cut_at c s) as [[a' b']|]; [|discriminate].
  intros [= <- <-]. simpl. rewrite E. simpl. now apply IH.
Qed.

Lemma request_fields_elim line fs :
  request_fields line = Some fs ->
  exists m p v, fs = [m; p; v]
    /\ line = (m ++ " " ++ p ++ " HTTP/" ++ v)%string
    /\ free_of " " m = true /\ free_of " " p = true /\ free_of " " v = true.
Proof.
  unfold request_fields.
  destruct (cut_at " " line) as [[m rest]|] eqn:E1; [|discriminate].
  destruct (cut_at " " rest) as [[p rest']|] eqn:E2; [|discriminate].
  destruct (strip_prefix "HTTP/" rest') as [v|] eqn:E3; [|discriminate].
  destruct (free_of " " v) eqn:E4; [|discriminate].
  intros [= <-]. exists m, p, v. split; [reflexivity|].
  split.
  - rewrite (cut_at_app _ _ _ _ E1), (cut_at_app _ _ _ _ E2),
      (strip_prefix_app _ _ _ E3). reflexivity.
  - eauto using cut_at_free.
Qed.

(** X7.  [HttpRequest::ParseRequestLine_] without the pattern.  A line made
    of three fields free of blanks, put together as "m p HTTP/v", is
    split into these fields: for the methods GET and POST the path goes
    through [ParsePath_] and the line is accepted, for any other method
    the line is refused with the three fields already stored.  Every
    accepted line has this shape, and a line that does not have it leaves
    the request unchanged. *)
Theorem ParseRequestLine_fields (line : string) (r : t) :
  (forall m p v,
     free_of " " m = true -> free_of " " p = true -> free_of " " v = true ->
     line = (m ++ " " ++ p ++ " HTTP/" ++ v)%string ->
     let r1 := mk (state_ r) m p v (body_ r) (header_ r) (post_ r) in
     ParseRequestLine_ line r
     = if String.eqb m "GET" || String.eqb m "POST"
       then r2 ← ParsePath_ r1; Ok (true, r2)
       else Ok (false, r1))
  /\ (forall r', ParseRequestLine_ line r = Ok (true, r') ->
        exists m p v,
          line = (m ++ " " ++ p ++ " HTTP/" ++ v)%string
          /\ free_of " " m = true /\ free_of " " p = true
          /\ free_of " " v = true
          /\ (m = "GET" \/ m = "POST")%string
          /\ method_ r' = m /\ version_ r' = v)
  /\ (request_fields line = None -> ParseRequestLine_ line r = Ok (false, r)).
Proof.
  split; [|split].
  - intros m p v Hm Hp Hv -> r1. unfold ParseRequestLine_.
    rewrite request_line_patten_spec, (request_fields_intro m p v Hm Hp Hv).
    reflexivity.
  - intros r'. unfold ParseRequestLine_.
    rewrite request_line_patten_spec.
    destruct (request_fields line) as [fs|] eqn:E; [|discriminate].
    destruct (request_fields_elim _ _ E) as (m & p & v & -> & Hl & Hm & Hp & Hv).
    destruct (String.eqb m "GET" || String.eqb m "POST") eqn:Em; [|discriminate].
    intros H. exists m, p, v. repeat (split; [assumption|]).
    split.
    { apply orb_prop in Em as [Em|Em]; apply String.eqb_eq in Em; auto. }
    unfold ParsePath_ in H. simpl in H.
    destruct (String.eqb p "/"); [injection H as <-; split; reflexivity|].
    destruct (substr_from p (find_last_of "/" p)); simpl in H; [|discriminate].
    destruct (bool_decide _); injection H as <-; split; reflexivity.
  - intros E. unfold ParseRequestLine_.
    rewrite request_line_patten_spec, E. reflexivity.
Qed.


Lemma find_last_of_free c s :
  free_of c s = true -> find_last_of c s = None.
Proof.
  induction s as [|d s IH]; simpl; [reflexivity|].
  intros H. apply andb_prop in H as [Hd Hs]. apply negb_true_iff in Hd.
  now rewrite (IH Hs), Hd.
Qed.

Lemma find_last_of_app c a rest :
  free_of c rest = true ->
  find_last_of c (a ++ String c rest) = Some (String.length a).
Proof.
  intros H. induction a as [|d a IH].
  - rewrite ?append_Empty. simpl.
    now rewrite (find_last_of_free _ _ H), Ascii.eqb_refl.
  - rewrite ?append_String. simpl. now rewrite IH.
Qed.

Lemma substring_skip a b m :
  String.substring (String.length a) m (a ++ b) = String.substring 0 m b.
Proof.
  induction a as [|d a IH]; [now rewrite ?append_Empty|].
  rewrite ?append_String. simpl. exact IH.
Qed.

Lemma length_substring_0 m : forall s,
  (m <= String.length s)%nat -> String.length (String.substring 0 m s) = m.
Proof.
  induction m as [|m IH]; intros [|c s]; simpl; intros H;
    try reflexivity; try lia.
  rewrite IH; lia.
Qed.

Lemma DEFAULT_HTML_short s :
  s ∈ DEFAULT_HTML -> (String.length s <= 12)%nat.
Proof.
  unfold DEFAULT_HTML. intros H.
  repeat (apply elem_of_cons in H as [->|H]; [simpl; lia|]).
  now apply elem_of_nil in H.
Qed.

Lemma DEFAULT_HTML_substring m s :
  (12 < m \/ String.length s <= m)%nat ->
  bool_decide (String.substring 0 m s ∈ DEFAULT_HTML)
  = bool_decide (s ∈ DEFAULT_HTML).
Proof.
  intros Hm. destruct (le_lt_dec (String.length s) m) as [Hle|Hlt].
  - now rewrite substring_whole.
  - apply bool_decide_ext. split; intros H; apply DEFAULT_HTML_short in H.
    + rewrite length_substring_0 in H; lia.
    + lia.
Qed.

(** X8.  [HttpRequest::ParsePath_] throws [std::out_of_range] for every path
    without a slash.  For a path with a slash, [name] being what follows
    the last one: the path [/] becomes [/index.html]; a path whose last
    part, slash included, is one of the seven names of [DEFAULT_HTML] gets
    [.html] appended; any other path stays as it is. *)
Theorem ParsePath_needs_a_slash (r : t) :
  (forall p, free_of "/" p = true ->
     ParsePath_ (set_path p r) = Fault OutOfRange)
  /\ (forall dir name, free_of "/" name = true ->
        let p := (dir ++ "/" ++ name)%string in
        ParsePath_ (set_path p r)
        = Ok (set_path
                (if String.eqb p "/" then "/index.html"
                 else if bool_decide (("/" ++ name)%string ∈ DEFAULT_HTML)
                      then p ++ ".html" else p) r)).
Proof.
  split.
  - intros p Hp. unfold ParsePath_. simpl.
    destruct (String.eqb_spec p "/") as [->|_]; [discriminate|].
    now rewrite (find_last_of_free _ _ Hp).
  - intros dir name Hname p. unfold ParsePath_. simpl.
    destruct (String.eqb p "/"); [reflexivity|].
    subst p. change ("/" ++ name)%string with (String "/" name).
    rewrite (find_last_of_app _ dir _ Hname). simpl.
    unfold substr, str_size.
    destruct (Z.ltb_spec (Z.of_nat (String.length dir)) 0); [lia|].
    rewrite length_append_string. simpl String.length.
    destruct (Z.ltb_spec (Z.of_nat (String.length dir + S (String.length name)))
                (Z.of_nat (String.length dir))); [lia|].
    simpl. rewrite Nat2Z.id, substring_skip, DEFAULT_HTML_substring.
    2:{ unfold npos. simpl String.length. lia. }
    destruct (bool_decide _); reflexivity.
Qed.

(** X9.  [HttpRequest::ParseHeader_] on "key: value", the key free of colons
    and the value without a line break: the pair is stored, the rest of the
    request is untouched, looking the key up gives the value, and a later
    line with the same key replaces it. *)
Theorem ParseHeader_stores_the_field (key value : string) (r : t) :
  free_of ":" key = true -> one_line value = true ->
  ParseHeader_ (key ++ ": " ++ value) r
  = set_header (<[key := value]> (header_ r)) r
  /\ header_ (ParseHeader_ (key ++ ": " ++ value) r) !! key = Some value
  /\ forall value', one_line value' = true ->
       header_ (ParseHeader_ (key ++ ": " ++ value')
                  (ParseHeader_ (key ++ ": " ++ value) r)) !! key
       = Some value'.
Proof.
  intros Hkey.
  assert (Hstore : forall v q, one_line v = true ->
            ParseHeader_ (key ++ ": " ++ v) q
            = set_header (<[key := v]> (header_ q)) q).
  { intros v q Hv. unfold ParseHeader_.
    rewrite header_patten_spec. unfold header_fields.
    change (key ++ ": " ++ v)%string with (key ++ String ":" (String " " v))%string.
    rewrite (cut_at_intro ":" key _ Hkey).
    change (one_line (String " " v)) with (one_line v). now rewrite Hv. }
  intros Hvalue. split; [now apply Hstore|].
  split.
  - rewrite (Hstore _ _ Hvalue). simpl. apply lookup_insert_eq.
  - intros value' Hvalue'. rewrite (Hstore _ _ Hvalue'). simpl.
    apply lookup_insert_eq.
Qed.

End RequestFields.

Section ParserInvariants.
Import HttpRequest.

Variable UserVerify : string -> string -> bool -> result bool.

Lemma handle_line_frame line b0 b r :
  handle_line UserVerify line b r
  = match handle_line UserVerify line b0 r with
    | Ok (Continue _ r') => Ok (Continue b r')
    | Ok (ReturnFalse _ r') => Ok (ReturnFalse b r')
    | Ok Break => Ok Break
    | Fault f => Fault f
    end.
Proof.
  unfold handle_line. destruct (state_ r).
  - destruct (ParseRequestLine_ line r) as [[[] r1]|f]; reflexivity.
  - destruct (String.eqb line EmptyString); [destruct (0 <? _)|]; reflexivity.
  - destruct (ParseBody_ UserVerify line r); reflexivity.
  - reflexivity.
Qed.

Lemma handle_line_no_break line b r :
  handle_line UserVerify line b r <> Ok Break.
Proof.
  unfold handle_line. destruct (state_ r).
  - destruct (ParseRequestLine_ line r) as [[[] r1]|f]; discriminate.
  - destruct (String.eqb line EmptyString); [destruct (0 <? _)|]; discriminate.
  - destruct (ParseBody_ UserVerify line r); discriminate.
  - discriminate.
Qed.

Lemma handle_line_refuses line b r b' r' :
  handle_line UserVerify line b r = Ok (ReturnFalse b' r') -> b' = b.
Proof.
  unfold handle_line. destruct (state_ r).
  - destruct (ParseRequestLine_ line r) as [[[] r1]|f]; simpl; congruence.
  - destruct (String.eqb line EmptyString); [destruct (0 <? _)|]; congruence.
  - destruct (ParseBody_ UserVerify line r); simpl; congruence.
  - congruence.
Qed.

Lemma next_line_empty buff :
  Buffer_inv buff -> Buffer_fits buff -> Buffer.ReadableBytes buff <= 0 ->
  next_line buff = None.
Proof.
  intros Hi Hf H. rewrite (ReadableBytes_inv _ Hi Hf) in H.
  pose proof (length_readable buff Hi) as Hl.
  unfold next_line. destruct (Buffer.readable buff); [reflexivity|].
  simpl in Hl. lia.
Qed.

Lemma parse_loop_whole_lines fuel : forall buff r ok b' r',
  Buffer_inv buff -> Buffer_fits buff ->
  Buffer.ReadableBytes buff <= Z.of_nat fuel ->
  parse_loop UserVerify fuel buff r = Ok (ok, b', r') ->
  Buffer_inv b' /\ Buffer_fits b'
  /\ (exists k, Buffer.readable b' = drop k (Buffer.readable buff))
  /\ (ok = true -> state_ r' <> FINISH -> next_line b' = None).
Proof.
  induction fuel as [|fuel IH]; intros buff r ok b' r' Hi Hf Hfuel.
  - simpl. destruct (Z.ltb_spec 0 (Buffer.ReadableBytes buff)); [lia|]. simpl.
    intros [= <- <- <-]. split; [assumption|]. split; [assumption|].
    split; [now exists O|]. intros _ _. apply next_line_empty; assumption.
  - simpl. destruct (Z.ltb_spec 0 (Buffer.ReadableBytes buff)) as [Hpos|Hz]; simpl.
    2:{ intros [= <- <- <-]. split; [assumption|]. split; [assumption|].
        split; [now exists O|]. intros _ _. apply next_line_empty; assumption. }
    destruct (bool_decide_reflect (state_ r = FINISH)) as [Hfin|Hnf]; simpl.
    { intros [= <- <- <-]. split; [assumption|]. split; [assumption|].
      split; [now exists O|]. intros _ Hne. contradiction. }
    pose proof (parse_step_spec UserVerify buff r Hi Hf) as Hstep.
    destruct (next_line buff) as [line|] eqn:Hnl.
    + destruct Hstep as (buff' & -> & Hi' & Hf' & Hless & Hread).
      destruct (handle_line UserVerify line buff' r) as [[|b1 r1|b1 r1]|f] eqn:Eh;
        simpl; try discriminate.
      * now apply handle_line_no_break in Eh.
      * apply handle_line_refuses in Eh as ->.
        intros [= <- <- <-]. split; [assumption|]. split; [assumption|].
        split; [eauto|discriminate].
      * apply handle_line_buffer in Eh as ->. intros Hloop.
        destruct (IH _ _ _ _ _ Hi' Hf' ltac:(lia) Hloop)
          as (Hi2 & Hf2 & (k & Hk) & Hnone).
        split; [assumption|]. split; [assumption|]. split; [|assumption].
        exists (String.length line + 2 + k)%nat.
        rewrite Hk, Hread, drop_drop. reflexivity.
    + rewrite Hstep. simpl. intros [= <- <- <-].
      split; [assumption|]. split; [assumption|]. split; [now exists O|].
      intros _ _. exact Hnl.
Qed.

(** X10.  Whatever [HttpRequest::parse] returns, it keeps the cursor invariant
    of the buffer, and what is left to read is a suffix of what was there:
    nothing is reordered or rewritten.  When it returns [true] before
    reaching [FINISH], no complete line is left in the buffer. *)
Theorem parse_consumes_whole_lines (buff : Buffer.t) (req : t)
    (ok : bool) (b' : Buffer.t) (r' : t) :
  Buffer_inv buff -> Buffer_fits buff ->
  parse UserVerify buff req = Ok (ok, b', r') ->
  Buffer_inv b'
  /\ (exists k, Buffer.readable b' = drop k (Buffer.readable buff))
  /\ (ok = true -> state_ r' <> FINISH -> next_line b' = None).
Proof.
  intros Hi Hf. unfold parse.
  destruct (Z.leb_spec (Buffer.ReadableBytes buff) 0) as [Hz|Hpos].
  - intros [= <- <- <-]. split; [assumption|]. split; [now exists O|].
    discriminate.
  - intros Hloop.
    apply parse_loop_whole_lines in Hloop as (Hi' & _ & Hk & Hn);
      try assumption; [tauto|].
    rewrite (ReadableBytes_inv _ Hi Hf) in *. lia.
Qed.

Lemma ReadableBytes_readable b1 b2 :
  Buffer_inv b1 -> Buffer_fits b1 -> Buffer_inv b2 -> Buffer_fits b2 ->
  Buffer.readable b1 = Buffer.readable b2 ->
  Buffer.ReadableBytes b1 = Buffer.ReadableBytes b2.
Proof.
  intros Hi1 Hf1 Hi2 Hf2 H.
  rewrite !ReadableBytes_inv by assumption.
  rewrite <- !length_readable by assumption. now rewrite H.
Qed.

Lemma parse_loop_window fuel : forall b1 b2 r,
  Buffer_inv b1 -> Buffer_fits b1 -> Buffer_inv b2 -> Buffer_fits b2 ->
  Buffer.readable b1 = Buffer.readable b2 ->
  Buffer.ReadableBytes b1 <= Z.of_nat fuel ->
  same_result (parse_loop UserVerify fuel b1 r) (parse_loop UserVerify fuel b2 r).
Proof.
  induction fuel as [|fuel IH]; intros b1 b2 r Hi1 Hf1 Hi2 Hf2 Hsame Hfuel;
    pose proof (ReadableBytes_readable b1 b2 Hi1 Hf1 Hi2 Hf2 Hsame) as Hn;
    simpl; rewrite <- Hn.
  - destruct (Z.ltb_spec 0 (Buffer.ReadableBytes b1)); [lia|]. simpl.
    now constructor.
  - destruct (_ && _); [|now constructor].
    pose proof (parse_step_spec UserVerify b1 r Hi1 Hf1) as Hs1.
    pose proof (parse_step_spec UserVerify b2 r Hi2 Hf2) as Hs2.
    assert (Hnl : next_line b2 = next_line b1).
    { unfold next_line. now rewrite Hsame. }
    rewrite Hnl in Hs2.
    destruct (next_line b1) as [line|].
    + destruct Hs1 as (b1' & -> & Hi1' & Hf1' & Hless & Hr1).
      destruct Hs2 as (b2' & -> & Hi2' & Hf2' & _ & Hr2).
      assert (Hsame' : Buffer.readable b1' = Buffer.readable b2').
      { now rewrite Hr1, Hr2, Hsame. }
      rewrite (handle_line_frame line b1' b2').
      destruct (handle_line UserVerify line b1' r) as [[|b r1|b r1]|f] eqn:Eh;
        simpl.
      * now constructor.
      * apply handle_line_refuses in Eh as ->. now constructor.
      * apply handle_line_buffer in Eh as ->. apply IH; auto. lia.
      * constructor.
    + rewrite Hs1, Hs2. simpl. now constructor.
Qed.

(** X11.  [HttpRequest::parse] depends on the readable bytes of the buffer
    only: on two buffers with the same readable bytes, whatever their
    storage and cursors, it gives the same return value and request and
    leaves the same bytes to read, or fails in the same way. *)
Theorem parse_reads_only_the_readable_bytes (b1 b2 : Buffer.t) (req : t) :
  Buffer_inv b1 -> Buffer_fits b1 -> Buffer_inv b2 -> Buffer_fits b2 ->
  Buffer.readable b1 = Buffer.readable b2 ->
  match parse UserVerify b1 req, parse UserVerify b2 req with
  | Ok (ok1, b1', r1), Ok (ok2, b2', r2) =>
      ok1 = ok2 /\ r1 = r2 /\ Buffer.readable b1' = Buffer.readable b2'
  | Fault f1, Fault f2 => f1 = f2
  | _, _ => False
  end.
Proof.
  intros Hi1 Hf1 Hi2 Hf2 Hsame.
  pose proof (ReadableBytes_readable b1 b2 Hi1 Hf1 Hi2 Hf2 Hsame) as Hn.
  assert (H : same_result (parse UserVerify b1 req) (parse UserVerify b2 req)).
  { unfold parse. rewrite <- Hn.
    destruct (Z.leb_spec (Buffer.ReadableBytes b1) 0).
    - now constructor.
    - apply parse_loop_window; auto.
      rewrite (ReadableBytes_inv _ Hi1 Hf1) in *. lia. }
  destruct H; auto.
Qed.

End ParserInvariants.

Section ParserHead.
Import HttpRequest.

Variable UserVerify : string -> string -> bool -> result bool.

Lemma search_CRLF_intro line rest :
  free_of CR line = true ->
  search (list_ascii_of_string line ++ CRLF ++ rest) CRLF = String.length line.
Proof.
  induction line as [|c line IH]; intros H.
  - simpl list_ascii_of_string. simpl app. unfold search.
    destruct rest; (destruct (decide _) as [|Hn]; [reflexivity|]);
      exfalso; apply Hn; eexists; reflexivity.
  - simpl in H. apply andb_prop in H as [Hc Hl]. apply negb_true_iff in Hc.
    simpl list_ascii_of_string. simpl app. simpl search.
    destruct (decide _) as [Hp|_].
    + exfalso. destruct Hp as [k Hk]. injection Hk as Hk _.
      subst c. now rewrite Ascii.eqb_refl in Hc.
    + simpl String.length. f_equal. now apply IH.
Qed.

Lemma next_line_intro buff line rest :
  free_of CR line = true ->
  Buffer.readable buff = list_ascii_of_string line ++ CRLF ++ rest ->
  next_line buff = Some line.
Proof.
  intros Hfree Hread. unfold next_line.
  rewrite Hread, (search_CRLF_intro _ _ Hfree).
  destruct (decide _) as [_|Hn].
  - rewrite <- length_list_ascii_of_string, take_app_length.
    now rewrite string_of_list_ascii_of_string.
  - exfalso. apply Hn. rewrite !length_app, length_list_ascii_of_string.
    simpl. lia.
Qed.

Lemma drop_line line rest :
  drop (String.length line + 2) (list_ascii_of_string line ++ CRLF ++ rest)
  = rest.
Proof.
  rewrite <- length_list_ascii_of_string, <- drop_drop, drop_app_length.
  reflexivity.
Qed.

Lemma parse_headers_state ls : forall r,
  state_ (parse_headers ls r) = state_ r.
Proof.
  induction ls as [|l ls IH]; intros r; simpl; [reflexivity|].
  unfold parse_headers in *. simpl. rewrite IH.
  unfold ParseHeader_.
  destruct (Regex.regex_match header_patten l) as [[|k [|v [|? ?]]]|];
    reflexivity.
Qed.

Lemma parse_loop_line fuel buff r line :
  Buffer_inv buff -> Buffer_fits buff ->
  Buffer.ReadableBytes buff <= Z.of_nat fuel ->
  state_ r <> FINISH -> next_line buff = Some line ->
  exists buff',
    Buffer_inv buff' /\ Buffer_fits buff'
    /\ Buffer.ReadableBytes buff' <= Z.of_nat (pred fuel)
    /\ Buffer.readable buff'
       = drop (String.length line + 2) (Buffer.readable buff)
    /\ parse_loop UserVerify fuel buff r
       = (s ← handle_line UserVerify line buff' r;
          match s with
          | Break => Ok (true, buff, r)
          | ReturnFalse b r' => Ok (false, b, r')
          | Continue b r' => parse_loop UserVerify (pred fuel) b r'
          end).
Proof.
  intros Hi Hf Hfuel Hst Hnl.
  pose proof (parse_step_spec UserVerify buff r Hi Hf) as Hstep.
  rewrite Hnl in Hstep.
  destruct Hstep as (buff1 & Hstep & Hi1 & Hf1 & Hless & Hread1).
  assert (Hpos : 0 < Buffer.ReadableBytes buff).
  { rewrite (ReadableBytes_inv _ Hi1 Hf1) in Hless.
    pose proof Hi1 as []. lia. }
  exists buff1. split; [assumption|]. split; [assumption|].
  split; [lia|]. split; [assumption|].
  destruct fuel as [|fuel]; [lia|]. simpl.
  destruct (Z.ltb_spec 0 (Buffer.ReadableBytes buff)); [|lia].
  destruct (bool_decide_reflect (state_ r = FINISH)); [contradiction|].
  simpl. rewrite Hstep. reflexivity.
Qed.

Lemma parse_loop_headers ls : forall fuel buff r rest,
  Buffer_inv buff -> Buffer_fits buff ->
  Buffer.ReadableBytes buff <= Z.of_nat fuel ->
  state_ r = HEADERS -> Forall header_line ls ->
  Buffer.readable buff = lines_text ls ++ rest ->
  exists buff',
    Buffer_inv buff' /\ Buffer_fits buff'
    /\ Buffer.ReadableBytes buff' <= Z.of_nat fuel
    /\ Buffer.readable buff' = rest
    /\ parse_loop UserVerify fuel buff r
       = parse_loop UserVerify fuel buff' (parse_headers ls r).
Proof.
  induction ls as [|l ls IH]; intros fuel buff r rest Hi Hf Hfuel Hst Hls Hread.
  - exists buff. simpl in Hread. auto 10.
  - apply Forall_cons in Hls as [[Hne Hfree] Hls].
    unfold lines_text in Hread. simpl in Hread.
    rewrite <- !app_assoc in Hread. fold (lines_text ls) in Hread.
    pose proof (next_line_intro buff l _ Hfree Hread) as Hnl.
    destruct (parse_loop_line fuel buff r l Hi Hf Hfuel
                ltac:(rewrite Hst; discriminate) Hnl)
      as (buff1 & Hi1 & Hf1 & Hfuel1 & Hread1 & ->).
    rewrite Hread, drop_line in Hread1.
    assert (Hh : handle_line UserVerify l buff1 r
                 = Ok (Continue buff1 (ParseHeader_ l r))).
    { unfold handle_line. rewrite Hst.
      destruct (String.eqb_spec l EmptyString); [contradiction|reflexivity]. }
    assert (Hst1 : state_ (ParseHeader_ l r) = HEADERS).
    { rewrite <- Hst. apply (parse_headers_state [l]). }
    destruct (IH fuel buff1 (ParseHeader_ l r) rest Hi1 Hf1 ltac:(lia)
                Hst1 Hls Hread1)
      as (buff' & Hi' & Hf' & Hfuel' & Hread' & Hloop).
    exists buff'. split; [assumption|]. split; [assumption|].
    split; [assumption|]. split; [assumption|].
    change (parse_headers (l :: ls) r)
      with (parse_headers ls (ParseHeader_ l r)).
    rewrite <- Hloop, Hh. simpl.
    apply parse_loop_fuel; auto; lia.
Qed.

(** X12.  A request head in one piece: an accepted request line, header lines
    that are not empty and hold no carriage return, and the empty line,
    each closed by CRLF.  [parse] hands the header lines to [ParseHeader_]
    in order and returns [true], leaving exactly the bytes after the empty
    line in the buffer; the state is [FINISH] without a [Content-Length]
    header, and [BODY] with one when no complete line follows. *)
Theorem parse_reads_a_complete_head (buff : Buffer.t) (req r1 : t)
    (line : string) (headers : list string) (rest : list ascii) :
  Buffer_inv buff -> Buffer_fits buff ->
  state_ req = REQUEST_LINE ->
  free_of CR line = true ->
  ParseRequestLine_ line req = Ok (true, r1) ->
  Forall header_line headers ->
  Buffer.readable buff
  = list_ascii_of_string line ++ CRLF ++ lines_text headers ++ CRLF ++ rest ->
  let r2 := parse_headers headers (set_state HEADERS r1) in
  exists buff',
    Buffer.readable buff' = rest
    /\ (map_count "Content-Length" (header_ r2) = 0 ->
          parse UserVerify buff req = Ok (true, buff', set_state FINISH r2))
    /\ (map_count "Content-Length" (header_ r2) = 1 ->
          next_line buff' = None ->
          parse UserVerify buff req = Ok (true, buff', set_state BODY r2)).
Proof.
  intros Hi Hf Hst Hfree Hline Hhs Hread r2.
  pose proof (next_line_intro buff line _ Hfree Hread) as Hnl.
  assert (Hpos : 0 < Buffer.ReadableBytes buff).
  { rewrite (ReadableBytes_inv _ Hi Hf), <- (length_readable _ Hi), Hread.
    rewrite !length_app. simpl. lia. }
  set (fuel := Z.to_nat (Buffer.ReadableBytes buff)).
  destruct (parse_loop_line fuel buff req line Hi Hf ltac:(lia)
              ltac:(rewrite Hst; discriminate) Hnl)
    as (buff1 & Hi1 & Hf1 & Hfuel1 & Hread1 & Hloop1).
  rewrite Hread, drop_line in Hread1.
  unfold handle_line in Hloop1. rewrite Hst, Hline in Hloop1. simpl in Hloop1.
  destruct (parse_loop_headers headers (pred fuel) buff1 (set_state HEADERS r1)
              (CRLF ++ rest) Hi1 Hf1 Hfuel1 eq_refl Hhs Hread1)
    as (buff2 & Hi2 & Hf2 & Hfuel2 & Hread2 & Hloop2).
  fold r2 in Hloop2.
  assert (Hst2 : state_ r2 = HEADERS) by apply parse_headers_state.
  pose proof (next_line_intro buff2 EmptyString rest eq_refl Hread2) as Hnl2.
  destruct (parse_loop_line (pred fuel) buff2 r2 EmptyString Hi2 Hf2 Hfuel2
              ltac:(rewrite Hst2; discriminate) Hnl2)
    as (buff3 & Hi3 & Hf3 & Hfuel3 & Hread3 & Hloop3).
  rewrite Hread2 in Hread3. simpl in Hread3.
  unfold handle_line in Hloop3. rewrite Hst2 in Hloop3. simpl in Hloop3.
  exists buff3. split; [assumption|].
  rewrite parse_nonempty by assumption. fold fuel.
  rewrite Hloop1, Hloop2, Hloop3.
  split; intros ->; simpl.
  - destruct (pred (pred fuel)); simpl; rewrite andb_false_r; reflexivity.
  - intros Hnone.
    destruct (Z.ltb_spec 0 (Buffer.ReadableBytes buff3)) as [Hp|Hz].
    + apply parse_loop_no_line; auto.
    + destruct (pred (pred fuel)); simpl;
        destruct (Z.ltb_spec 0 (Buffer.ReadableBytes buff3));
        try lia; reflexivity.
Qed.

Lemma find_last_of_app_l c s p :
  find_last_of c p <> None -> find_last_of c (p ++ s) <> None.
Proof.
  induction p as [|d p IH]; simpl; [congruence|].
  rewrite ?append_String. simpl.
  destruct (find_last_of c p) eqn:E.
  - intros _. destruct (find_last_of c (p ++ s)); [discriminate|].
    exfalso. now apply IH.
  - destruct (Ascii.eqb d c); [|congruence]. intros _.
    destruct (find_last_of c (p ++ s)); discriminate.
Qed.

Lemma ParsePath_slash r r' :
  ParsePath_ r = Ok r' ->
  find_last_of "/" (path_ r') <> None
  /\ method_ r' = method_ r /\ state_ r' = state_ r.
Proof.
  unfold ParsePath_. destruct (String.eqb (path_ r) "/").
  { intros [= <-]. simpl. split; [discriminate|auto]. }
  destruct (find_last_of "/" (path_ r)) eqn:E; simpl; [|discriminate].
  destruct (substr _ _ _); simpl; [|discriminate].
  destruct (bool_decide _); intros [= <-]; simpl.
  - split; [|auto]. apply find_last_of_app_l. congruence.
  - split; [congruence|auto].
Qed.

Lemma ParseFromUrlencoded_fields r r' :
  ParseFromUrlencoded_ r = Ok r' ->
  method_ r' = method_ r /\ path_ r' = path_ r /\ state_ r' = state_ r.
Proof.
  unfold ParseFromUrlencoded_.
  destruct (String.eqb (body_ r) EmptyString); [intros [= <-]; auto|].
  destruct (form_loop _ _ _) as [[i j key value body post]|]; simpl;
    [|discriminate].
  destruct (_ && _).
  { destruct (substr _ _ _); simpl; [|discriminate]. intros [= <-]; auto. }
  destruct (_ && _).
  { destruct (substr _ _ _); simpl; [|discriminate]. intros [= <-]; auto. }
  intros [= <-]; auto.
Qed.

Lemma ParsePost_fields r r' :
  ParsePost_ UserVerify r = Ok r' ->
  method_ r' = method_ r /\ state_ r' = state_ r
  /\ (path_ r' = path_ r \/ path_ r' = "/welcome.html"%string
      \/ path_ r' = "/error.html"%string).
Proof.
  unfold ParsePost_. destruct (String.eqb (method_ r) "POST");
    [|intros [= <-]; auto].
  destruct (map_index _ _) as [ctype h].
  destruct (String.eqb ctype _); [|intros [= <-]; auto].
  destruct (ParseFromUrlencoded_ _) as [r1|] eqn:E; simpl; [|discriminate].
  apply ParseFromUrlencoded_fields in E as (Hm & Hp & Hs). simpl in *.
  destruct (DEFAULT_HTML_TAG !! path_ r1); [|intros [= <-]; auto].
  destruct (_ || _); [|intros [= <-]; auto].
  destruct (map_index _ (post_ r1)) as [name p1].
  destruct (map_index _ p1) as [pwd p2].
  destruct (UserVerify _ _ _) as [[]|]; simpl; [| |discriminate];
    intros [= <-]; simpl; auto.
Qed.

Lemma handle_line_accepted line buff r s :
  state_ r <> REQUEST_LINE ->
  handle_line UserVerify line buff r = Ok s ->
  exists r', s = Continue buff r'
    /\ method_ r' = method_ r /\ state_ r' <> REQUEST_LINE
    /\ (find_last_of "/" (path_ r) <> None ->
        find_last_of "/" (path_ r') <> None).
Proof.
  intros Hst. unfold handle_line. destruct (state_ r) eqn:Est; [contradiction| | |].
  - destruct (String.eqb line EmptyString); [destruct (0 <? _)|];
      intros [= <-]; eexists; (split; [reflexivity|]); simpl;
      try (split; [reflexivity|split; [discriminate|auto]]).
    unfold ParseHeader_.
    destruct (Regex.regex_match header_patten line) as [[|k [|v [|? ?]]]|];
      simpl; rewrite ?Est; (split; [reflexivity|split; [discriminate|auto]]).
  - unfold ParseBody_.
    destruct (ParsePost_ UserVerify (set_body line r)) as [r1|] eqn:E; simpl;
      [|discriminate].
    apply ParsePost_fields in E as (Hm & Hs & Hp). simpl in *.
    intros [= <-]. eexists; split; [reflexivity|]. simpl.
    split; [assumption|]. split; [discriminate|].
    destruct Hp as [->| [->| ->]]; [auto|discriminate..].
  - intros [= <-]. eexists; split; [reflexivity|]. rewrite Est.
    split; [reflexivity|split; [discriminate|auto]].
Qed.

Lemma parse_step_cases buff r s :
  parse_step UserVerify buff r = Ok s ->
  s = Break \/ exists line b, handle_line UserVerify line b r = Ok s.
Proof.
  unfold parse_step. destruct (_ =? _); [intros [= <-]; auto|].
  destruct (Buffer.RetrieveUntil _ _); simpl; [|discriminate]. eauto.
Qed.

Lemma parse_loop_accepted fuel : forall buff r ok b' r',
  state_ r <> REQUEST_LINE ->
  parse_loop UserVerify fuel buff r = Ok (ok, b', r') ->
  ok = true /\ method_ r' = method_ r /\ state_ r' <> REQUEST_LINE
  /\ (find_last_of "/" (path_ r) <> None ->
      find_last_of "/" (path_ r') <> None).
Proof.
  induction fuel as [|fuel IH]; intros buff r ok b' r' Hst; simpl.
  - destruct (_ && _); [discriminate|]. intros [= <- <- <-]. auto.
  - destruct (_ && _); [|intros [= <- <- <-]; auto].
    destruct (parse_step UserVerify buff r) as [s|] eqn:Es; simpl; [|discriminate].
    apply parse_step_cases in Es as [->|(line & b & Eh)];
      [intros [= <- <- <-]; auto|].
    apply handle_line_accepted in Eh as (r1 & -> & Hm & Hs & Hp); [|assumption].
    intros Hloop. apply IH in Hloop as (-> & Hm' & Hs' & Hp'); [|assumption].
    split; [reflexivity|]. split; [congruence|]. split; [assumption|auto].
Qed.

(** X13.  When [parse], started on the request line, leaves a request whose
    state is past [REQUEST_LINE], it has returned [true], the method is
    GET or POST, and the path holds a slash. *)
Theorem parse_past_the_request_line (buff : Buffer.t) (req : t)
    (ok : bool) (b' : Buffer.t) (r' : t) :
  state_ req = REQUEST_LINE ->
  parse UserVerify buff req = Ok (ok, b', r') ->
  state_ r' <> REQUEST_LINE ->
  ok = true
  /\ (method_ r' = "GET" \/ method_ r' = "POST")%string
  /\ find_last_of "/" (path_ r') <> None.
Proof.
  intros Hst. unfold parse.
  destruct (_ <=? 0); [intros [= <- <- <-]; contradiction|].
  destruct (Z.to_nat _) as [|fuel]; simpl.
  { destruct (_ && _); [discriminate|]. intros [= <- <- <-]; contradiction. }
  destruct (_ && _); [|intros [= <- <- <-]; contradiction].
  destruct (parse_step UserVerify buff req) as [s|] eqn:Es; simpl; [|discriminate].
  apply parse_step_cases in Es as [->|(line & b & Eh)];
    [intros [= <- <- <-]; contradiction|].
  unfold handle_line in Eh. rewrite Hst in Eh.
  destruct (ParseRequestLine_ line req) as [[[] r1]|] eqn:El; simpl in Eh;
    [| |discriminate]; injection Eh as <-.
  2:{ intros [= <- <- <-] Hne. exfalso. apply Hne.
      unfold ParseRequestLine_ in El.
      destruct (Regex.regex_match _ _) as [[|m [|p [|v [|? ?]]]]|];
        try (injection El as <-; assumption).
      destruct (_ || _); [|injection El as <-; assumption].
      destruct (ParsePath_ _); discriminate. }
  intros Hloop _.
  apply parse_loop_accepted in Hloop as (-> & Hm & _ & Hp); [|discriminate].
  simpl in Hm, Hp. rewrite Hm.
  unfold ParseRequestLine_ in El.
  destruct (Regex.regex_match _ _) as [[|m [|p [|v [|? ?]]]]|];
    try discriminate.
  destruct (String.eqb m "GET" || String.eqb m "POST") eqn:Em; [|discriminate].
  destruct (ParsePath_ _) as [r2|] eqn:Ep; simpl in El; [|discriminate].
  injection El as <-.
  apply ParsePath_slash in Ep as (Hslash & Hm2 & _). simpl in Hm2.
  split; [reflexivity|]. split; [|auto].
  rewrite Hm2. apply orb_prop in Em as [Em|Em]; apply String.eqb_eq in Em; auto.
Qed.

End ParserHead.

(** * The form decoder *)

Section FormDecoding.
Import HttpRequest.

Lemma string_app_assoc a b c :
  ((a ++ b) ++ c)%string = (a ++ (b ++ c))%string.
Proof.
  induction a as [|d a IH]; [reflexivity|].
  rewrite ?append_String. simpl. now rewrite <- IH.
Qed.

Lemma str_size_app a b : str_size (a ++ b) = str_size a + str_size b.
Proof. unfold str_size. rewrite length_append_string. lia. Qed.

Lemma get_at pre c suf :
  String.get (String.length pre) (pre ++ String c suf) = Some c.
Proof. induction pre as [|d pre IH]; [reflexivity|exact IH]. Qed.

Lemma str_update_at pre c' c suf :
  str_update (String.length pre) c' (pre ++ String c suf)
  = (pre ++ String c' suf)%string.
Proof.
  induction pre as [|d pre IH]; [reflexivity|].
  rewrite ?append_String. simpl. now rewrite IH.
Qed.

Lemma substring_prefix w suf :
  String.substring 0 (String.length w) (w ++ suf) = w.
Proof.
  induction w as [|d w IH]; simpl.
  - destruct suf; reflexivity.
  - now rewrite IH.
Qed.

Lemma substring_at pre w suf :
  String.substring (String.length pre) (String.length w) (pre ++ w ++ suf) = w.
Proof.
  induction pre as [|d pre IH]; [exact (substring_prefix w suf)|exact IH].
Qed.

Lemma length_unplus s : String.length (unplus s) = String.length s.
Proof. induction s as [|c s IH]; simpl; congruence. Qed.

Lemma unplus_app a b : unplus (a ++ b) = (unplus a ++ unplus b)%string.
Proof.
  induction a as [|c a IH]; [reflexivity|].
  rewrite ?append_String. simpl. now rewrite IH.
Qed.

Lemma form_loop_fuel_eq fuel1 : forall fuel2 n s,
  n - fv_i s <= Z.of_nat fuel1 -> n - fv_i s <= Z.of_nat fuel2 ->
  form_loop fuel1 n s = form_loop fuel2 n s.
Proof.
  induction fuel1 as [|fuel1 IH]; intros [|fuel2] n s H1 H2; simpl;
    destruct (Z.ltb_spec (fv_i s) n); try reflexivity; try lia.
  destruct (form_step s) as [s'|f] eqn:Es; simpl; [|reflexivity].
  apply form_step_advances in Es. apply IH; lia.
Qed.

Lemma form_loop_step fuel n s s' :
  fv_i s < n -> n - fv_i s <= Z.of_nat fuel -> form_step s = Ok s' ->
  form_loop fuel n s = form_loop fuel n s'.
Proof.
  intros Hlt Hfuel Hstep. destruct fuel as [|fuel]; [lia|].
  transitivity (form_loop fuel n s').
  - simpl. destruct (Z.ltb_spec (fv_i s) n); [|lia]. now rewrite Hstep.
  - apply form_step_advances in Hstep. apply form_loop_fuel_eq; lia.
Qed.

Lemma str_at_at pre c suf :
  str_at (pre ++ String c suf) (str_size pre) = Ok c.
Proof.
  unfold str_at, str_size. rewrite length_append_string. simpl.
  destruct (Z.ltb_spec (Z.of_nat (String.length pre)) 0); [lia|].
  destruct (Z.ltb_spec (Z.of_nat (String.length pre + S (String.length suf)))
              (Z.of_nat (String.length pre))); [lia|].
  simpl. now rewrite Nat2Z.id, get_at.
Qed.

Lemma form_at_snoc pre c suf j key post :
  form_at (pre ++ String c EmptyString) suf j key post
  = mk_form (str_size pre + 1) j key EmptyString (pre ++ String c suf) post.
Proof.
  unfold form_at. rewrite str_size_app, string_app_assoc. reflexivity.
Qed.

Lemma form_step_plain pre c suf j key post :
  Ascii.eqb c "=" = false -> Ascii.eqb c "&" = false ->
  Ascii.eqb c "%" = false ->
  form_step (form_at pre (String c suf) j key post)
  = Ok (form_at (pre ++ String (if Ascii.eqb c "+" then " "%char else c)
                          EmptyString) suf j key post).
Proof.
  intros He Ha Hp. rewrite form_at_snoc. unfold form_at, form_step.
  rewrite str_at_at. simpl. rewrite He.
  destruct (Ascii.eqb c "+") eqn:Hplus.
  - unfold str_set, str_size. rewrite length_append_string. simpl.
    destruct (Z.leb_spec 0 (Z.of_nat (String.length pre))); [|lia].
    destruct (Z.ltb_spec (Z.of_nat (String.length pre))
                (Z.of_nat (String.length pre + S (String.length suf)))); [|lia].
    simpl. now rewrite Nat2Z.id, str_update_at.
  - rewrite Hp, Ha. reflexivity.
Qed.

Lemma substr_segment pre0 seg suf :
  substr ((pre0 ++ seg) ++ suf) (str_size pre0)
    (str_size (pre0 ++ seg) - str_size pre0)
  = Ok seg.
Proof.
  unfold substr, str_size. rewrite !length_append_string.
  destruct (Z.ltb_spec (Z.of_nat (String.length pre0)) 0); [lia|].
  destruct (Z.ltb_spec
              (Z.of_nat (String.length pre0 + String.length seg
                         + String.length suf))
              (Z.of_nat (String.length pre0))); [lia|].
  simpl. destruct (Z.ltb_spec
              (Z.of_nat (String.length pre0 + String.length seg)
               - Z.of_nat (String.length pre0)) 0); [lia|].
  rewrite Z.min_l by lia.
  replace (Z.to_nat (Z.of_nat (String.length pre0 + String.length seg)
                     - Z.of_nat (String.length pre0)))
    with (String.length seg) by lia.
  rewrite Nat2Z.id, string_app_assoc. now rewrite substring_at.
Qed.

Lemma form_step_equals pre0 seg suf key post :
  form_step (form_at (pre0 ++ seg) (String "=" suf) (str_size pre0) key post)
  = Ok (form_at ((pre0 ++ seg) ++ "=") suf (str_size ((pre0 ++ seg) ++ "="))
          seg post).
Proof.
  rewrite form_at_snoc. unfold form_at, form_step.
  rewrite str_at_at. simpl. rewrite substr_segment. simpl.
  rewrite !str_size_app. reflexivity.
Qed.

Lemma form_step_ampersand pre0 seg suf key post :
  form_step (form_at (pre0 ++ seg) (String "&" suf) (str_size pre0) key post)
  = Ok (form_at ((pre0 ++ seg) ++ "&") suf (str_size ((pre0 ++ seg) ++ "&"))
          EmptyString (<[key := seg]> post)).
Proof.
  rewrite form_at_snoc. unfold form_at, form_step.
  rewrite str_at_at. simpl. rewrite substr_segment. simpl.
  rewrite !str_size_app. reflexivity.
Qed.

Lemma form_plain_cons c w :
  form_plain (String c w) = true ->
  (Ascii.eqb c "=" = false /\ Ascii.eqb c "&" = false
   /\ Ascii.eqb c "%" = false)
  /\ form_plain w = true.
Proof.
  unfold form_plain. simpl. intros H.
  apply andb_prop in H as [H H3]. apply andb_prop in H as [H1 H2].
  apply andb_prop in H1 as [H1 ->]. apply andb_prop in H2 as [H2 ->].
  apply andb_prop in H3 as [H3 ->].
  apply negb_true_iff in H1, H2, H3. auto.
Qed.

Lemma form_loop_scan w : forall fuel n pre suf j key post,
  form_plain w = true ->
  n = str_size (pre ++ w ++ suf) -> n <= Z.of_nat fuel ->
  form_loop fuel n (form_at pre (w ++ suf) j key post)
  = form_loop fuel n (form_at (pre ++ unplus w) suf j key post).
Proof.
  induction w as [|c w IH]; intros fuel n pre suf j key post Hw Hn Hfuel.
  - simpl unplus. unfold form_at. rewrite str_size_app, Z.add_0_r.
    rewrite string_app_assoc. reflexivity.
  - apply form_plain_cons in Hw as [(He & Ha & Hp) Hw].
    rewrite ?append_String. simpl unplus.
    set (c' := if Ascii.eqb c "+" then " "%char else c).
    assert (Hi : fv_i (form_at pre (String c (w ++ suf)) j key post) < n).
    { unfold form_at. simpl fv_i. rewrite Hn, !str_size_app.
      unfold str_size. rewrite ?append_String. simpl String.length. lia. }
    assert (Hf : n - fv_i (form_at pre (String c (w ++ suf)) j key post)
                 <= Z.of_nat fuel).
    { unfold form_at. simpl fv_i. unfold str_size. lia. }
    rewrite (form_loop_step fuel n _ _ Hi Hf
               (form_step_plain pre c _ j key post He Ha Hp)).
    fold c'. rewrite (IH fuel n (pre ++ String c' EmptyString)%string suf j key post Hw).
    + rewrite string_app_assoc. reflexivity.
    + rewrite Hn, !str_size_app. unfold str_size.
      rewrite ?append_String. simpl String.length. lia.
    + exact Hfuel.
Qed.

Ltac form_sizes :=
  unfold form_at; simpl fv_i; subst;
  rewrite ?string_app_assoc, ?str_size_app in *; unfold str_size in *;
  repeat progress (rewrite ?length_append_string, ?length_unplus in *;
                   simpl String.length in * );
  lia.

Lemma string_app_nil s : (s ++ EmptyString)%string = s.
Proof.
  induction s as [|c s IH]; [reflexivity|].
  rewrite ?append_String. simpl. now rewrite IH.
Qed.

Lemma form_loop_equals fuel n pre0 seg suf key post :
  n = str_size ((pre0 ++ seg) ++ String "=" suf) -> n <= Z.of_nat fuel ->
  form_loop fuel n
    (form_at (pre0 ++ seg) (String "=" suf) (str_size pre0) key post)
  = form_loop fuel n
      (form_at ((pre0 ++ seg) ++ "=") suf (str_size ((pre0 ++ seg) ++ "="))
         seg post).
Proof.
  intros Hn Hfuel.
  apply form_loop_step; [form_sizes|form_sizes|apply form_step_equals].
Qed.

Lemma form_loop_ampersand fuel n pre0 seg suf key post :
  n = str_size ((pre0 ++ seg) ++ String "&" suf) -> n <= Z.of_nat fuel ->
  form_loop fuel n
    (form_at (pre0 ++ seg) (String "&" suf) (str_size pre0) key post)
  = form_loop fuel n
      (form_at ((pre0 ++ seg) ++ "&") suf (str_size ((pre0 ++ seg) ++ "&"))
         EmptyString (<[key := seg]> post)).
Proof.
  intros Hn Hfuel.
  apply form_loop_step; [form_sizes|form_sizes|apply form_step_ampersand].
Qed.

(** The decoder on a segment, up to the place where the segment ends. *)
Lemma form_loop_in_segment s fuel n pre suf post :
  segment_plain s ->
  n = str_size (pre ++ segment_text s ++ suf) -> n <= Z.of_nat fuel ->
  form_loop fuel n
    (form_at pre (segment_text s ++ suf) (str_size pre) EmptyString post)
  = match s with
    | (Some k, v) =>
        form_loop fuel n
          (form_at (((pre ++ unplus k) ++ "=") ++ unplus v) suf
             (str_size ((pre ++ unplus k) ++ "=")) (unplus k) post)
    | (None, w) =>
        form_loop fuel n
          (form_at (pre ++ unplus w) suf (str_size pre) EmptyString post)
    end.
Proof.
  destruct s as [[k|] v]; simpl segment_text; intros Hs Hn Hfuel.
  - destruct Hs as [Hk Hv].
    rewrite !string_app_assoc.
    rewrite (form_loop_scan k fuel n pre _ _ _ _ Hk) by
      (try assumption; form_sizes).
    change ("=" ++ v ++ suf)%string with (String "=" (v ++ suf)).
    rewrite form_loop_equals by (try assumption; form_sizes).
    rewrite (form_loop_scan v fuel n _ _ _ _ _ Hv) by
      (try assumption; form_sizes).
    now rewrite ?string_app_assoc.
  - rewrite (form_loop_scan v fuel n pre _ _ _ _ Hs) by
      (try assumption; form_sizes).
    reflexivity.
Qed.

Lemma form_loop_segment s fuel n pre suf post :
  segment_plain s ->
  n = str_size (pre ++ (segment_text s ++ "&") ++ suf) -> n <= Z.of_nat fuel ->
  form_loop fuel n
    (form_at pre ((segment_text s ++ "&") ++ suf) (str_size pre)
       EmptyString post)
  = form_loop fuel n
      (form_at (pre ++ unplus (segment_text s ++ "&")) suf
         (str_size (pre ++ unplus (segment_text s ++ "&"))) EmptyString
         (store_segment post s)).
Proof.
  intros Hs Hn Hfuel. rewrite string_app_assoc.
  rewrite (form_loop_in_segment s fuel n pre _ post Hs) by
    (try assumption; form_sizes).
  destruct s as [[k|] v]; simpl segment_text; simpl store_segment;
    change ("&" ++ suf)%string with (String "&" suf);
    rewrite form_loop_ampersand by (try assumption; form_sizes);
    rewrite !unplus_app; simpl unplus; rewrite ?string_app_assoc;
    reflexivity.
Qed.

Lemma form_loop_segments segs : forall fuel n pre suf post,
  Forall segment_plain segs ->
  n = str_size (pre ++ form_text segs ++ suf) -> n <= Z.of_nat fuel ->
  form_loop fuel n
    (form_at pre (form_text segs ++ suf) (str_size pre) EmptyString post)
  = form_loop fuel n
      (form_at (pre ++ unplus (form_text segs)) suf
         (str_size (pre ++ unplus (form_text segs))) EmptyString
         (fold_left store_segment segs post)).
Proof.
  induction segs as [|s segs IH]; intros fuel n pre suf post Hsegs Hn Hfuel.
  - simpl. now rewrite string_app_nil.
  - apply Forall_cons in Hsegs as [Hs Hsegs].
    simpl form_text. simpl fold_left.
    replace ((segment_text s ++ "&" ++ form_text segs) ++ suf)%string
      with ((segment_text s ++ "&") ++ form_text segs ++ suf)%string
      by (now rewrite !string_app_assoc).
    rewrite (form_loop_segment s fuel n pre _ post Hs) by
      (try assumption; form_sizes).
    rewrite IH by (try assumption; form_sizes).
    rewrite <- (string_app_assoc (segment_text s)), (unplus_app _ (form_text segs)).
    rewrite !string_app_assoc. reflexivity.
Qed.

Lemma form_loop_end fuel n pre j key post :
  n = str_size pre ->
  form_loop fuel n (form_at pre EmptyString j key post)
  = Ok (form_at pre EmptyString j key post).
Proof.
  intros ->. destruct fuel; simpl;
    destruct (Z.ltb_spec (str_size pre) (str_size pre)); (lia || reflexivity).
Qed.

Lemma eqb_unplus s :
  String.eqb (unplus s) EmptyString = String.eqb s EmptyString.
Proof. destruct s; reflexivity. Qed.

Lemma str_size_pos s : String.eqb s EmptyString = false -> 0 < str_size s.
Proof. destruct s; [discriminate|]. unfold str_size. simpl. lia. Qed.

Lemma str_size_zero s : String.eqb s EmptyString = true -> s = EmptyString.
Proof. now intros H%String.eqb_eq. Qed.

Lemma substr_tail pre0 seg :
  substr (pre0 ++ seg) (str_size pre0) (str_size (pre0 ++ seg) - str_size pre0)
  = Ok seg.
Proof.
  pose proof (substr_segment pre0 seg EmptyString) as H.
  now rewrite string_app_nil in H.
Qed.

Lemma ParseFromUrlencoded_segments (segs : list segment)
    (last : segment) (r : t) :
  Forall segment_plain segs -> segment_plain last ->
  let body := (form_text segs ++ segment_text last)%string in
  ParseFromUrlencoded_ (set_body body r)
  = Ok (set_post (store_last last (fold_left store_segment segs (post_ r)))
          (set_body (unplus body) r)).
Proof.
  intros Hsegs Hlast body. unfold ParseFromUrlencoded_. simpl body_. simpl post_.
  destruct (String.eqb body EmptyString) eqn:Hbody.
  { apply str_size_zero in Hbody.
    assert (Hlen : String.length body = 0%nat) by now rewrite Hbody.
    subst body. clear Hbody. destruct segs as [|s segs].
    - destruct last as [[k|] v]; simpl in Hlen;
        rewrite ?length_append_string in Hlen; simpl in Hlen; [lia|].
      destruct v; [reflexivity|discriminate].
    - simpl in Hlen. rewrite ?length_append_string in Hlen. simpl in Hlen.
      lia. }
  set (n := str_size body).
  change (mk_form 0 0 EmptyString EmptyString body (post_ r))
    with (form_at EmptyString (form_text segs ++ segment_text last)
            (str_size EmptyString) EmptyString (post_ r)).
  rewrite (form_loop_segments segs (Z.to_nat n) n) by
    (try assumption; try reflexivity; unfold n, str_size; lia).
  rewrite ?append_Empty.
  rewrite <- (string_app_nil (segment_text last)).
  rewrite (form_loop_in_segment last (Z.to_nat n) n) by
    (first [assumption | unfold n, str_size; lia | subst n body; form_sizes]).
  destruct last as [[k|] v].
  - rewrite form_loop_end by (subst n body; simpl segment_text; form_sizes).
    unfold form_at. rewrite string_app_nil. cbn [mbind result_bind].
    rewrite eqb_unplus. simpl store_last.
    destruct (String.eqb v EmptyString) eqn:Ev.
    + apply str_size_zero in Ev. subst v.
      destruct (Z.ltb_spec
                  (str_size ((unplus (form_text segs) ++ unplus k) ++ "="))
                  (str_size (((unplus (form_text segs) ++ unplus k) ++ "=")
                              ++ unplus EmptyString))); [form_sizes|].
      rewrite !andb_false_r. subst body. simpl segment_text.
      rewrite !unplus_app, !string_app_assoc. reflexivity.
    + apply str_size_pos in Ev.
      destruct (Z.ltb_spec
                  (str_size ((unplus (form_text segs) ++ unplus k) ++ "="))
                  (str_size (((unplus (form_text segs) ++ unplus k) ++ "=")
                              ++ unplus v))); [|form_sizes].
      rewrite !andb_true_r.
      rewrite !substr_tail. subst body. simpl segment_text.
      rewrite !unplus_app, !string_app_assoc.
      destruct (String.eqb k EmptyString); reflexivity.
  - rewrite form_loop_end by (subst n body; simpl segment_text; form_sizes).
    unfold form_at. rewrite string_app_nil. cbn [mbind result_bind].
    simpl store_last.
    simpl (String.eqb EmptyString EmptyString). simpl negb.
    rewrite andb_true_l, andb_false_l.
    destruct (String.eqb v EmptyString) eqn:Ev.
    + apply str_size_zero in Ev. subst v.
      destruct (Z.ltb_spec (str_size (unplus (form_text segs)))
                  (str_size (unplus (form_text segs) ++ unplus EmptyString)));
        [form_sizes|].
      subst body. simpl segment_text.
      rewrite !unplus_app. reflexivity.
    + apply str_size_pos in Ev.
      destruct (Z.ltb_spec (str_size (unplus (form_text segs)))
                  (str_size (unplus (form_text segs) ++ unplus v)));
        [|form_sizes].
      rewrite substr_tail. subst body. simpl segment_text.
      rewrite !unplus_app. reflexivity.
Qed.

(** X14.  [HttpRequest::ParseFromUrlencoded_] on a body without [%], made of
    segments "key=value" or "word" separated by [&].  In the body and in
    what is stored every [+] has become a blank.  A segment followed by [&]
    stores its key with its value, a word being stored as the value of the
    empty key.  The last segment stores its key with its value; but with
    an empty value nothing is stored, with an empty key the value is
    stored as a key with an empty value, and a word is stored as a key
    with an empty value. *)
Theorem ParseFromUrlencoded_plain_segments (segs : list segment)
    (last : segment) (r : t) :
  Forall segment_plain segs -> segment_plain last ->
  let body := (form_text segs ++ segment_text last)%string in
  ParseFromUrlencoded_ (set_body body r)
  = Ok (set_post (store_last last (fold_left store_segment segs (post_ r)))
          (set_body (unplus body) r)).
Proof. exact (ParseFromUrlencoded_segments segs last r). Qed.

Variable UserVerify : string -> string -> bool -> result bool.

(** X15.  [HttpRequest::ParsePost_] on the login and registration form: for a
    POST with the urlencoded content type, the path [/login.html] or
    [/register.html], and the body "username=N&password=P" with a
    password that is not empty, the decoded name and password are handed
    to [UserVerify], with the login flag set for [/login.html] only, and
    the path becomes [/welcome.html] or [/error.html] after its answer. *)
Theorem ParsePost_login_form (r : t) (name pwd : string) :
  method_ r = "POST"%string ->
  header_ r !! "Content-Type"%string
  = Some "application/x-www-form-urlencoded"%string ->
  (path_ r = "/login.html" \/ path_ r = "/register.html")%string ->
  form_plain name = true -> form_plain pwd = true -> pwd <> EmptyString ->
  body_ r = ("username=" ++ name ++ "&password=" ++ pwd)%string ->
  ParsePost_ UserVerify r
  = (ok ← UserVerify (unplus name) (unplus pwd)
            (bool_decide (path_ r = "/login.html"%string));
     Ok (set_path (if ok : bool then "/welcome.html" else "/error.html")
           (set_post
              (<["password"%string := unplus pwd]>
                 (<["username"%string := unplus name]> (post_ r)))
              (set_body (unplus (body_ r)) r)))).
Proof.
  intros Hm Hct Hpath Hname Hpwd Hne Hbody. unfold ParsePost_.
  rewrite Hm. simpl (String.eqb "POST" "POST").
  unfold map_index at 1. rewrite Hct.
  simpl (String.eqb _ "application/x-www-form-urlencoded").
  replace (set_header (header_ r) r) with r by (now destruct r).
  pose proof (ParseFromUrlencoded_segments [(Some "username", name)]
                (Some "password", pwd) r
                ltac:(repeat constructor; assumption)
                ltac:(split; [reflexivity|assumption])) as Hform.
  assert (Hb : (form_text [(Some "username"%string, name)]
                  ++ segment_text (Some "password"%string, pwd))%string
               = body_ r).
  { rewrite Hbody. unfold form_text, segment_text.
    rewrite !string_app_assoc. reflexivity. }
  cbv zeta in Hform. rewrite Hb in Hform.
  replace (set_body (body_ r) r) with r in Hform by (now destruct r).
  unfold store_last in Hform. simpl fold_left in Hform.
  unfold store_segment in Hform.
  destruct (String.eqb_spec pwd EmptyString) as [|_]; [contradiction|].
  simpl (String.eqb "password" EmptyString) in Hform. cbv iota in Hform.
  simpl unplus in Hform.
  rewrite Hform. cbn [mbind result_bind].
  simpl path_. simpl post_.
  assert (Htag : exists tag, DEFAULT_HTML_TAG !! path_ r = Some tag
                   /\ (tag =? 0) || (tag =? 1) = true
                   /\ (tag =? 1) = bool_decide (path_ r = "/login.html"%string)).
  { destruct Hpath as [-> | ->]; [exists 1|exists 0]; repeat split. }
  destruct Htag as (tag & -> & -> & ->).
  unfold map_index.
  rewrite lookup_insert_ne by discriminate.
  rewrite lookup_insert_eq.
  rewrite lookup_insert_eq.
  destruct (UserVerify _ _ _) as [[]|]; reflexivity.
Qed.

End FormDecoding.

(** * More of the response builder *)

Section ResponseSuffix.
Import HttpResponse.

Variable fs : gmap string file.

(** X16.  [HttpResponse::GetFileType_] goes by what follows the last dot of the
    path: a path without a dot is [text/plain], and a path that ends in a
    dot and an extension has the type that [SUFFIX_TYPE] gives for the
    extension, [text/plain] when it gives none. *)
Theorem GetFileType_by_suffix (r : t) :
  (forall p, free_of "." p = true ->
     GetFileType_ (set_path p r) = "text/plain"%string)
  /\ (forall stem ext, free_of "." ext = true ->
        GetFileType_ (set_path (stem ++ "." ++ ext) r)
        = default "text/plain"%string (SUFFIX_TYPE !! ("." ++ ext)%string)).
Proof.
  split.
  - intros p Hp. unfold GetFileType_. simpl path_.
    now rewrite (find_last_of_free _ _ Hp).
  - intros stem ext Hext. unfold GetFileType_. simpl path_.
    change ("." ++ ext)%string with (String "." ext).
    rewrite (find_last_of_app _ stem _ Hext), substring_skip.
    rewrite substring_whole.
    2:{ rewrite length_append_string. lia. }
    destruct (SUFFIX_TYPE !! String "." ext); reflexivity.
Qed.

(** X17.  After [HttpResponse::MakeResponse] the status code is one of 200,
    400, 403, 404 and 500: the code settled before the status line is
    written, or 400 when that one has no reason phrase; the path is the
    one settled before.  So a readable file asked for with an initial code
    that has no reason phrase is answered with status 400 and the path of
    the file itself, not with the page of status 400. *)
Theorem MakeResponse_code_is_known (buff buff' : Buffer.t) (r r' : t) :
  MakeResponse fs buff r = Ok (buff', r') ->
  code_ r' ∈ known_codes
  /\ code_ r'
     = (if bool_decide (code_ (resolve fs r) ∈ known_codes)
        then code_ (resolve fs r) else 400)
  /\ path_ r' = path_ (resolve fs r)
  /\ (forall f, fs !! (srcDir_ r ++ path_ r)%string = Some f ->
        S_ISDIR (st_mode f) = false -> Z.land (st_mode f) S_IROTH <> 0 ->
        code_ r <> -1 -> code_ r ∉ known_codes ->
        code_ r' = 400 /\ path_ r' = path_ r).
Proof.
  unfold MakeResponse. intros H.
  destruct (AddStateLine_ buff (resolve fs r)) as [[b1 r1]|] eqn:E1;
    simpl in H; [|discriminate].
  destruct (AddHeader_ b1 r1) as [b2|]; simpl in H; [|discriminate].
  apply AddContent_fields in H as [Hc Hp].
  apply AddStateLine_code in E1.
  assert (Hcode : code_ r'
     = (if bool_decide (code_ (resolve fs r) ∈ known_codes)
        then code_ (resolve fs r) else 400)).
  { rewrite Hc, E1. now destruct (bool_decide _). }
  assert (Hpath : path_ r' = path_ (resolve fs r)).
  { rewrite Hp, E1. now destruct (bool_decide _). }
  split; [|split; [exact Hcode|split; [exact Hpath|]]].
  - rewrite Hcode. destruct (bool_decide_reflect (code_ (resolve fs r) ∈ known_codes));
      [assumption|]. unfold known_codes. repeat constructor.
  - intros f Hf Hdir Hro Hm1 Hunknown.
    assert (Hres : resolve fs r = set_stat (st_mode f, st_size f) r).
    { unfold resolve, check_file, stat. rewrite Hf. simpl.
      rewrite Hdir. simpl.
      destruct (Z.eqb_spec (Z.land (st_mode f) S_IROTH) 0); [contradiction|].
      destruct (Z.eqb_spec (code_ r) (-1)); [contradiction|].
      unfold ErrorHtml_. simpl.
      destruct (CODE_PATH !! code_ r) eqn:Ecp; [|reflexivity].
      exfalso. apply Hunknown.
      rewrite CODE_PATH_error_codes in Ecp.
      destruct (bool_decide_reflect (code_ r ∈ error_codes)) as [Hin|];
        [|discriminate].
      apply elem_of_cons. right. exact Hin. }
    rewrite Hcode, Hpath, Hres. simpl.
    rewrite bool_decide_eq_false_2 by assumption. auto.
Qed.

Lemma ErrorHtml_path r p :
  CODE_PATH !! code_ r = Some p -> path_ (ErrorHtml_ fs r) = p.
Proof.
  intros H. unfold ErrorHtml_. rewrite H. unfold stat. simpl.
  destruct (fs !! _); reflexivity.
Qed.

(** X18.  When the first step of [MakeResponse] ends in one of the statuses
    400, 403, 404 and 500, the path becomes the page of that status, and
    the content type written is [text/html]. *)
Theorem error_pages_are_html (r : t) :
  code_ (check_file fs r) ∈ error_codes ->
  path_ (resolve fs r) = error_page (code_ (check_file fs r))
  /\ GetFileType_ (resolve fs r) = "text/html"%string.
Proof.
  intros Hin.
  assert (Hpath : path_ (resolve fs r) = error_page (code_ (check_file fs r))).
  { apply ErrorHtml_path.
    now rewrite CODE_PATH_error_codes, bool_decide_eq_true_2. }
  split; [exact Hpath|].
  unfold GetFileType_. rewrite Hpath.
  unfold error_codes in Hin.
  repeat (apply elem_of_cons in Hin as [->|Hin]; [reflexivity|]).
  now apply elem_of_nil in Hin.
Qed.

End ResponseSuffix.

(** * More of the connection pool *)

Section PoolLeases.
Import SqlConnPool.

(** X19.  A block that holds a [SqlConnRAII] object, on a pool in which the
    semaphore counts the idle connections: the block returns, and the
    pool has the same number of idle connections and the same semaphore
    value as before.  From an empty pool the block gets the null pointer,
    the destructor does not call [FreeConn], and the pool is unchanged;
    otherwise it gets the connection at the front, which ends up at the
    back. *)
Theorem scoped_lease_returns_the_connection (s : t) :
  pool_settled s ->
  exists c s', scoped s = Returns c s'
    /\ pool_settled s'
    /\ semId_ s' = semId_ s
    /\ GetFreeConnCount s' = GetFreeConnCount s
    /\ match connQue_ s with
       | [] => c = nullptr /\ s' = s
       | front :: rest => c = front /\ connQue_ s' = rest ++ [front]
       end.
Proof.
  intros Hs. pose proof (GetConn_settled s Hs) as Hg.
  pose proof Hs as [Hsem Hall].
  unfold scoped, SqlConnRAII, SqlConnRAII_destroy.
  destruct (connQue_ s) as [|front rest] eqn:Eq.
  - rewrite Hg. simpl. exists nullptr, s.
    split; [reflexivity|]. split; [exact Hs|]. auto.
  - destruct Hg as (Hne & -> & Hs1).
    destruct (Z.eqb_spec front nullptr) as [|_]; [contradiction|].
    unfold FreeConn. destruct (Z.eqb_spec front nullptr) as [|_]; [contradiction|].
    simpl. eexists _, _. split; [reflexivity|].
    unfold pool_settled, GetFreeConnCount in *. rewrite Eq in *. simpl in *.
    rewrite length_app. simpl.
    inversion Hall as [|? ? ? Hrest]; subst.
    repeat split; try lia.
    apply Forall_app. split; [assumption|]. now constructor.
Qed.

Lemma run_first_gets connect k : forall a n M sem got,
  (k <= n)%nat -> Z.of_nat k <= sem ->
  run (mk M (map connect (seq a n)) sem) got (repeat CallGet k)
  = Some (mk M (map connect (seq (a + k) (n - k))) (sem - Z.of_nat k),
          rev (map connect (seq a k)) ++ got).
Proof.
  induction k as [|k IH]; intros a n M sem got Hk Hsem.
  - simpl. rewrite Nat.add_0_r, Nat.sub_0_r, Z.sub_0_r. reflexivity.
  - destruct n as [|n]; [lia|].
    simpl repeat. simpl seq. simpl map. simpl run. unfold GetConn. simpl.
    destruct (Z.ltb_spec 0 sem); [|lia].
    rewrite IH by lia.
    replace (S a + k)%nat with (a + S k)%nat by lia.
    replace (sem - 1 - Z.of_nat k) with (sem - Z.of_nat (S k)) by lia.
    rewrite <- app_assoc. reflexivity.
Qed.

(** X20.  After [Init] with [M] connections, the first [k] calls of [GetConn],
    [k] no larger than [M], return what the first [k] calls of
    [mysql_real_connect] returned, in that order, a null pointer for each
    connection that failed; the other connections stay in the pool and the
    semaphore is down by [k]. *)
Theorem GetConn_hands_out_in_connect_order (M : Z) (connect : nat -> MYSQL)
    (s0 : t) (k : nat) :
  Init M connect fresh = Returns tt s0 ->
  Z.of_nat k <= M ->
  run s0 [] (repeat CallGet k)
  = Some (mk M (map connect (seq k (Z.to_nat M - k))) (M - Z.of_nat k),
          rev (map connect (seq 0 k))).
Proof.
  unfold Init. destruct (Z.ltb_spec 0 M); [|discriminate].
  intros [= <-] Hk. simpl app.
  rewrite (run_first_gets connect k 0 (Z.to_nat M) M M []) by lia.
  now rewrite app_nil_r.
Qed.

Lemma run_conserves calls : forall s got0 s' got,
  pool_settled s -> run s got0 calls = Some (s', got) ->
  exists new, got = new ++ got0
    /\ leased new ++ connQue_ s' ≡ₚ connQue_ s ++ freed calls.
Proof.
  induction calls as [|[|c] calls IH]; intros s got0 s' got Hs; simpl.
  - intros [= <- <-]. exists []. split; [reflexivity|].
    unfold freed. simpl. now rewrite app_nil_r.
  - pose proof (GetConn_settled s Hs) as Hg.
    destruct (connQue_ s) as [|c rest] eqn:Eq.
    + rewrite Hg. intros Hrun.
      apply IH in Hrun as (new & -> & Hperm); [|assumption].
      rewrite Eq in Hperm.
      change (freed (CallGet :: calls)) with (freed calls).
      exists (new ++ [nullptr]). split; [now rewrite <- app_assoc|].
      unfold leased in *. rewrite filter_app.
      rewrite filter_cons_False by (intros H; now apply H).
      rewrite filter_nil, app_nil_r, Hperm. reflexivity.
    + destruct Hg as (Hne & -> & Hs1). intros Hrun.
      apply IH in Hrun as (new & -> & Hperm); [|assumption].
      exists (new ++ [c]). split; [now rewrite <- app_assoc|].
      unfold leased in *. rewrite filter_app.
      rewrite filter_cons_True by assumption.
      rewrite filter_nil. simpl in Hperm.
      change (freed (CallGet :: calls)) with (freed calls).
      rewrite <- app_assoc. simpl.
      rewrite <- Permutation_middle, Hperm. reflexivity.
  - destruct (FreeConn c s) as [[] s1| |] eqn:Ef; try discriminate.
    intros Hrun.
    pose proof (FreeConn_settled c s s1 Hs Ef) as Hs1.
    apply IH in Hrun as (new & -> & Hperm); [|assumption].
    exists new. split; [reflexivity|].
    unfold FreeConn in Ef. destruct (c =? nullptr); [discriminate|].
    injection Ef as <-. simpl in Hperm.
    change (freed (CallFree c :: calls)) with (c :: freed calls).
    rewrite Hperm, <- app_assoc. reflexivity.
Qed.

(** X21.  Over any run of [GetConn] and [FreeConn] calls that return, on a pool
    in which the semaphore counts the idle connections: the connections
    handed out together with the idle ones are, up to order, the ones
    idle at the start together with the ones given back. *)
Theorem pool_neither_loses_nor_invents_connections (s s' : t)
    (calls : list call) (got : list MYSQL) :
  pool_settled s ->
  run s [] calls = Some (s', got) ->
  leased got ++ connQue_ s' ≡ₚ connQue_ s ++ freed calls
  /\ GetFreeConnCount s' + Z.of_nat (length (leased got))
     = GetFreeConnCount s + Z.of_nat (length (freed calls)).
Proof.
  intros Hs Hrun.
  apply run_conserves in Hrun as (new & -> & Hperm); [|assumption].
  rewrite app_nil_r. split; [assumption|].
  apply Permutation_length in Hperm. rewrite !length_app in Hperm.
  unfold GetFreeConnCount. lia.
Qed.

End PoolLeases.

(** * The blocking queue and the thread pool *)

Section QueueProperties.
Import BlockQueue.
Context {T : Type}.

Lemma exec_bounded (es : list (event T)) : forall s tr s' tr',
  exec es s tr = (s', tr') ->
  size s <= capacity_ s ->
  size s' <= capacity_ s' /\ capacity_ s' = capacity_ s.
Proof.
  induction es as [|e es IH]; intros s tr s' tr'; simpl.
  - intros [= <- _]. auto.
  - destruct (step e s tr) as [s1 tr1] eqn:Es. intros Hexec Hbound.
    assert (H1 : size s1 <= capacity_ s1 /\ capacity_ s1 = capacity_ s).
    { clear Hexec IH. unfold size in *.
      destruct e; simpl in Es; unfold push_back, push_front, pop_woken,
        pop_timed_woken, pop_timed, pop, after_push, after_pop, size in Es;
        repeat (match type of Es with
                | context [if ?c then _ else _] => destruct c eqn:?
                | context [match deq_ ?s with _ => _ end] =>
                    destruct (deq_ s) eqn:?
                end; simpl in Es);
        injection Es as <- _; simpl in *; rewrite ?length_app; simpl;
        repeat match goal with
               | H : (_ <=? _) = false |- _ => apply Z.leb_gt in H
               | H : deq_ _ = _ |- _ => rewrite H
               end;
        split; try reflexivity; simpl; try lia. }
    destruct H1 as [H1 Hc].
    destruct (IH s1 tr1 s' tr' Hexec H1) as [Ha Hb].
    split; [assumption|congruence].
Qed.

(** X22.  Over any sequence of critical sections on a [BlockQueue] built with
    a capacity [maxsize]: the capacity stays [maxsize], which is positive,
    and the queue never holds more items than that. *)
Theorem BlockQueue_never_exceeds_capacity (maxsize : Z) (s0 s : t T)
    (es : list (event T)) (tr : trace T) :
  init maxsize = Ok s0 ->
  exec es s0 (mk_trace [] []) = (s, tr) ->
  0 < maxsize /\ capacity s = maxsize /\ 0 <= size s <= maxsize.
Proof.
  unfold init. destruct (Z.ltb_spec 0 maxsize); [|discriminate].
  simpl. intros [= <-] Hexec.
  apply exec_bounded in Hexec as [Hb Hc]; [|simpl; unfold size; simpl; lia].
  simpl in Hc. unfold capacity. rewrite Hc in *. unfold size in *. lia.
Qed.

Lemma exec_fifo (es : list (event T)) : forall s tr s' tr',
  plain_events es ->
  exec es s tr = (s', tr') ->
  delivered tr ++ deq_ s = accepted tr ->
  delivered tr' ++ deq_ s' = accepted tr'.
Proof.
  induction es as [|e es IH]; intros s tr s' tr' Hplain; simpl.
  - now intros [= <- <-].
  - apply Forall_cons in Hplain as [He Hplain].
    destruct (step e s tr) as [s1 tr1] eqn:Es. intros Hexec Hinv.
    apply (IH s1 tr1 s' tr' Hplain Hexec). clear Hexec IH.
    destruct e; try contradiction; simpl in Es;
      unfold push_back, pop_woken, pop_timed_woken, pop_timed, pop,
        after_push, after_pop in Es;
      repeat (match type of Es with
              | context [if ?c then _ else _] => destruct c eqn:?
              | context [match deq_ ?s with _ => _ end] =>
                  destruct (deq_ s) eqn:?
              end; simpl in Es);
      injection Es as <- <-; simpl in *;
      repeat match goal with
             | H : deq_ _ = _ |- _ => rewrite H
             end;
      rewrite <- ?Hinv, <- ?app_assoc; try reflexivity; try assumption.
Qed.

(** X23.  First in, first out: without [push_front], [clear] and [Close], the
    items that the pops have delivered, followed by the items still in the
    queue, are the items whose [push_back] has returned, in the order in
    which they were accepted. *)
Theorem BlockQueue_delivers_in_push_order (maxsize : Z) (s0 s : t T)
    (es : list (event T)) (tr : trace T) :
  init maxsize = Ok s0 ->
  plain_events es ->
  exec es s0 (mk_trace [] []) = (s, tr) ->
  delivered tr ++ deq_ s = accepted tr.
Proof.
  unfold init. destruct (0 <? maxsize); [|discriminate]. simpl.
  intros [= <-] Hplain Hexec.
  now apply (exec_fifo es _ _ _ _ Hplain Hexec).
Qed.

(** X24.  A closed [BlockQueue] still accepts [push_back].  The item is never
    delivered by [pop(item)], which waits and returns [false] once woken;
    [pop(item, timeout)] delivers the item at the front. *)
Theorem closed_BlockQueue_delivers_to_timed_pop_only (s : t T) (item : T) :
  isClose_ s = true -> size s < capacity_ s ->
  exists s1, push_back item s = Returns tt s1
    /\ deq_ s1 = deq_ s ++ [item]
    /\ pop s1 = Waits s1
    /\ pop_woken s1 = Returns None s1
    /\ exists first s2, pop_timed s1 = Returns (Some first) s2
         /\ head (deq_ s1) = Some first.
Proof.
  intros Hclosed Hroom. unfold push_back.
  destruct (Z.leb_spec (capacity_ s) (size s)); [lia|].
  eexists. split; [reflexivity|]. split; [reflexivity|].
  unfold pop, pop_woken, pop_timed. simpl. rewrite Hclosed.
  destruct (deq_ s) as [|x l]; simpl; eauto 10.
Qed.

End QueueProperties.

Section WorkerProperties.
Import ThreadPool.
Context {Task : Type}.

Lemma exec_tasks (es : list (event Task)) : forall s,
  started (exec es s) ++ tasks_ (pool (exec es s))
  = started s ++ tasks_ (pool s) ++ added es.
Proof.
  induction es as [|e es IH]; intros s.
  - simpl. now rewrite app_nil_r.
  - unfold exec in *. simpl fold_left. rewrite IH. clear IH.
    destruct e as [task|w|]; simpl.
    + now rewrite <- !app_assoc.
    + change (added (Worker w :: es)) with (added es).
      destruct (bool_decide _); [reflexivity|].
      unfold worker. destruct (tasks_ (pool s)) as [|task rest] eqn:Et; simpl.
      * destruct (closed_ (pool s)); simpl; now rewrite Et.
      * now rewrite <- !app_assoc.
    + reflexivity.
Qed.

Lemma exec_closed (es : list (event Task)) : forall s,
  closed_ (pool (exec es s)) = closed_ (pool s) || closes es.
Proof.
  induction es as [|e es IH]; intros s.
  - simpl. now rewrite orb_false_r.
  - unfold exec in *. simpl fold_left. rewrite IH. clear IH.
    destruct e as [task|w|]; simpl.
    + reflexivity.
    + destruct (bool_decide _); [reflexivity|].
      unfold worker. destruct (tasks_ (pool s)); [|reflexivity].
      destruct (closed_ (pool s)) eqn:Ec; simpl; now rewrite Ec.
    + now rewrite orb_true_r.
Qed.

Lemma exec_exited (es : list (event Task)) : forall s w,
  w ∈ exited (exec es s) ->
  w ∈ exited s \/ closed_ (pool (exec es s)) = true.
Proof.
  induction es as [|e es IH]; intros s w; [simpl; auto|].
  unfold exec in *. simpl fold_left. intros Hw.
  apply IH in Hw as [Hw|Hw]; [|auto].
  fold (exec es (step e s)). rewrite exec_closed.
  destruct e as [task|w'|]; simpl in *; auto.
  destruct (bool_decide _); [auto|].
  unfold worker in *. destruct (tasks_ (pool s)); simpl in *; [|auto].
  destruct (closed_ (pool s)) eqn:Ec; simpl in *; [|auto].
  apply elem_of_cons in Hw as [->|Hw]; [|auto].
  right. now rewrite Ec.
Qed.

(** X25.  Over any interleaving of [AddTask] calls, worker passes and the
    destructor: the tasks started so far, followed by the tasks still
    queued, are the tasks added, in the order of the [AddTask] calls; the
    flag [closed_] is set exactly when the destructor has run; and a
    worker leaves its loop only after that. *)
Theorem ThreadPool_starts_tasks_in_order (es : list (event Task)) :
  let s := exec es (mk_state init [] []) in
  started s ++ tasks_ (pool s) = added es
  /\ closed_ (pool s) = closes es
  /\ (forall w, w ∈ exited s -> closes es = true).
Proof.
  intros s. subst s. split; [now rewrite exec_tasks|].
  split; [now rewrite exec_closed|].
  intros w Hw. apply exec_exited in Hw as [Hw|Hw].
  - now apply elem_of_nil in Hw.
  - now rewrite exec_closed in Hw.
Qed.

End WorkerProperties.

(** * The line of a log entry *)

Section LogLine.
Import Buffer.

Lemma Append_in_place data b :
  Buffer_inv b -> Buffer_fits b ->
  writePos_ b + Z.of_nat (length data) <= size b ->
  exists v,
    Append data b
    = Ok (mk v (readPos_ b) (writePos_ b + Z.of_nat (length data)))
    /\ length v = length (buffer_ b)
    /\ readable (mk v (readPos_ b) (writePos_ b + Z.of_nat (length data)))
       = readable b ++ data.
Proof.
  intros Hi Hf Hroom. pose proof Hi as [H0 Hrw Hws].
  unfold Buffer_fits, vector_max_size in Hf.
  unfold Append, EnsureWriteable.
  rewrite (WritableBytes_inv _ Hi Hf).
  rewrite (size_t_small (Z.of_nat (length data))) by lia.
  destruct (Z.ltb_spec (size b - writePos_ b) (Z.of_nat (length data))); [lia|].
  simpl. rewrite (WritableBytes_inv _ Hi Hf).
  destruct (Z.leb_spec (Z.of_nat (length data)) (size b - writePos_ b)); [|lia].
  simpl. unfold BeginWrite.
  rewrite copy_in_spec by (unfold size in *; lia). simpl.
  unfold HasWritten. simpl. rewrite size_t_small by lia.
  eexists. split; [reflexivity|]. split.
  - rewrite !length_app, length_take, length_drop. unfold size in *. lia.
  - unfold readable. simpl. apply range_write_at; unfold size in *; lia.
Qed.

Lemma range_shorter v from to k :
  0 <= from <= to -> 0 <= k ->
  range v from to = take (Z.to_nat (to - from)) (range v from (to + k)).
Proof.
  intros Hft Hk. unfold range. rewrite take_take. f_equal. lia.
Qed.

Lemma print_at_fits size text b :
  Buffer_inv b -> Buffer_fits b ->
  str_size text < size ->
  writePos_ b + str_size text + 1 <= Buffer.size b ->
  exists v,
    Log.print_at size text b
    = Ok (str_size text, mk v (readPos_ b) (writePos_ b))
    /\ length v = length (buffer_ b)
    /\ readable (HasWritten (str_size text) (mk v (readPos_ b) (writePos_ b)))
       = readable b ++ list_ascii_of_string text.
Proof.
  intros Hi Hf Hsize Hroom. pose proof Hi as [H0 Hrw Hws].
  unfold Buffer_fits, vector_max_size in Hf.
  assert (Hts : 0 <= str_size text) by (unfold str_size; lia).
  unfold Log.print_at. destruct (Z.eqb_spec size 0); [lia|].
  rewrite take_ge by (rewrite length_list_ascii_of_string; unfold str_size in *; lia).
  unfold BeginWrite.
  set (data := list_ascii_of_string text ++ [NUL]).
  assert (Hl : length data = S (String.length text)).
  { unfold data. rewrite length_app, length_list_ascii_of_string. simpl. lia. }
  rewrite copy_in_spec by (rewrite Hl; unfold Buffer.size, str_size in *; lia).
  simpl. eexists. split; [reflexivity|]. split.
  - rewrite !length_app, length_take, length_drop, Hl.
    simpl. unfold Buffer.size, str_size in *. lia.
  - unfold readable, HasWritten. simpl.
    rewrite size_t_small by lia.
    rewrite (range_shorter _ _ _ 1) by lia.
    replace (writePos_ b + str_size text + 1)
      with (writePos_ b + Z.of_nat (length data))
      by (rewrite Hl; unfold str_size; lia).
    rewrite range_write_at by (rewrite ?Hl; unfold Buffer.size, str_size in *; lia).
    pose proof (length_readable b Hi) as Hlr. unfold readable in Hlr.
    unfold data. rewrite app_assoc, take_app_length'; [reflexivity|].
    rewrite length_app, length_list_ascii_of_string.
    unfold str_size in *. lia.
Qed.

Lemma c_str_terminated text rest :
  Forall (fun c => c <> NUL) text ->
  Log.c_str (text ++ NUL :: rest) = Ok text.
Proof.
  induction 1 as [|c text Hc _ IH]; simpl.
  - reflexivity.
  - destruct (Ascii.eqb_spec c NUL); [contradiction|]. now rewrite IH.
Qed.

Lemma until_NUL_terminated text rest :
  Forall (fun c => c <> NUL) text ->
  Log.until_NUL (text ++ NUL :: rest) = text.
Proof.
  induction 1 as [|c text Hc _ IH]; simpl.
  - reflexivity.
  - destruct (Ascii.eqb_spec c NUL); [contradiction|]. now rewrite IH.
Qed.

Lemma free_of_Forall c s :
  free_of c s = true -> Forall (fun d => d <> c) (list_ascii_of_string s).
Proof.
  induction s as [|d s IH]; simpl; intros H; constructor.
  - apply andb_prop in H as [H _]. apply negb_true_iff in H.
    now destruct (Ascii.eqb_spec d c).
  - apply andb_prop in H as [_ H]. now apply IH.
Qed.

Lemma level_title_text level :
  take 9 (list_ascii_of_string (Log.level_title level))
  = list_ascii_of_string (Log.level_title level)
  /\ length (list_ascii_of_string (Log.level_title level)) = 9%nat
  /\ free_of NUL (Log.level_title level) = true.
Proof.
  unfold Log.level_title.
  repeat (destruct (_ =? _); [repeat split|]). repeat split.
Qed.

Lemma drop_readable b :
  drop (Z.to_nat (readPos_ b)) (buffer_ b)
  = readable b
    ++ drop (Z.to_nat (writePos_ b - readPos_ b))
         (drop (Z.to_nat (readPos_ b)) (buffer_ b)).
Proof. unfold readable, range. now rewrite take_drop. Qed.

(** The state of the buffer after the time stamp and the title have been
    put in, when both fit. *)
Lemma write_line_title stamp level buff :
  readPos_ buff = 0 -> writePos_ buff = 0 -> Buffer_fits buff ->
  str_size stamp < 48 -> str_size stamp + 9 <= size buff ->
  exists v1 v2,
    let b2 := mk v2 0 (str_size stamp + 9) in
    Log.print_at 48 stamp buff = Ok (str_size stamp, mk v1 0 0)
    /\ Log.AppendLogLevelTitle_ level (HasWritten (str_size stamp) (mk v1 0 0))
       = Ok b2
    /\ Buffer_inv b2 /\ Buffer_fits b2 /\ size b2 = size buff
    /\ readable b2
       = list_ascii_of_string stamp
         ++ list_ascii_of_string (Log.level_title level).
Proof.
  intros Hrp Hwp Hf Hstamp Hroom.
  assert (Hs : 0 <= str_size stamp) by (unfold str_size; lia).
  pose proof Hf as Hf'. unfold Buffer_fits, vector_max_size in Hf'.
  assert (Hi : Buffer_inv buff) by (split; lia).
  destruct (print_at_fits 48 stamp buff Hi Hf Hstamp ltac:(lia))
    as (v1 & Hp1 & Hl1 & Hr1).
  rewrite Hrp, Hwp in Hp1, Hr1.
  assert (Hr0 : readable buff = []).
  { unfold readable, range. now rewrite Hrp, Hwp. }
  rewrite Hr0 in Hr1. simpl in Hr1.
  set (b1 := HasWritten (str_size stamp) (mk v1 0 0)) in *.
  assert (Hw1 : writePos_ b1 = str_size stamp).
  { unfold b1, HasWritten. simpl. apply size_t_small. lia. }
  assert (Hz1 : size b1 = size buff).
  { unfold b1, HasWritten, size. simpl. now rewrite Hl1. }
  assert (Hi1 : Buffer_inv b1) by (split; rewrite ?Hw1, ?Hz1; simpl; lia).
  assert (Hf1 : Buffer_fits b1) by (unfold Buffer_fits; now rewrite Hz1).
  destruct (level_title_text level) as (Ht9 & Htl & _).
  destruct (Append_in_place (list_ascii_of_string (Log.level_title level)) b1
              Hi1 Hf1 ltac:(rewrite Hw1, Hz1, Htl; lia))
    as (v2 & Ha2 & Hl2 & Hr2).
  rewrite Htl, Hw1 in Ha2, Hr2. change (readPos_ b1) with 0 in Ha2, Hr2.
  exists v1, v2. cbv zeta.
  change (Z.of_nat 9) with 9 in *.
  set (b2 := mk v2 0 (str_size stamp + 9)) in *.
  assert (Hz2 : size b2 = size buff).
  { unfold b2, size in *. simpl. now rewrite Hl2. }
  split; [exact Hp1|]. split.
  { unfold Log.AppendLogLevelTitle_. rewrite Ht9. exact Ha2. }
  split; [split; rewrite ?Hz2; simpl; lia|].
  split; [unfold Buffer_fits; now rewrite Hz2|].
  split; [exact Hz2|]. now rewrite Hr2, Hr1.
Qed.

(** The same after the message, when it fits too. *)
Lemma write_line_head stamp level message buff :
  readPos_ buff = 0 -> writePos_ buff = 0 -> Buffer_fits buff ->
  str_size stamp < 48 ->
  str_size stamp + 9 + str_size message + 1 <= size buff ->
  exists v1 b2 v3,
    Log.print_at 48 stamp buff = Ok (str_size stamp, mk v1 0 0)
    /\ Log.AppendLogLevelTitle_ level (HasWritten (str_size stamp) (mk v1 0 0))
       = Ok b2
    /\ Log.print_at (WritableBytes b2) message b2
       = Ok (str_size message, mk v3 (readPos_ b2) (writePos_ b2))
    /\ let b3 := HasWritten (str_size message)
                   (mk v3 (readPos_ b2) (writePos_ b2)) in
       Buffer_inv b3 /\ Buffer_fits b3
       /\ writePos_ b3 = str_size stamp + 9 + str_size message
       /\ size b3 = size buff
       /\ readable b3
          = list_ascii_of_string stamp
            ++ list_ascii_of_string (Log.level_title level)
            ++ list_ascii_of_string message.
Proof.
  intros Hrp Hwp Hf Hstamp Hroom.
  assert (Hs : 0 <= str_size stamp) by (unfold str_size; lia).
  assert (Hm : 0 <= str_size message) by (unfold str_size; lia).
  pose proof Hf as Hf'. unfold Buffer_fits, vector_max_size in Hf'.
  destruct (write_line_title stamp level buff Hrp Hwp Hf Hstamp ltac:(lia))
    as (v1 & v2 & Hp1 & Ha2 & Hi2 & Hf2 & Hz2 & Hr2).
  cbv zeta in *. set (b2 := mk v2 0 (str_size stamp + 9)) in *.
  assert (Hwr2 : WritableBytes b2 = size buff - (str_size stamp + 9)).
  { rewrite (WritableBytes_inv _ Hi2 Hf2), Hz2. reflexivity. }
  destruct (print_at_fits (WritableBytes b2) message b2 Hi2 Hf2
              ltac:(rewrite Hwr2; lia) ltac:(rewrite Hz2; simpl; lia))
    as (v3 & Hp3 & Hl3 & Hr3).
  exists v1, b2, v3. split; [exact Hp1|]. split; [exact Ha2|].
  split; [exact Hp3|]. cbv zeta.
  set (b3 := HasWritten (str_size message) (mk v3 (readPos_ b2) (writePos_ b2)))
    in *.
  assert (Hw3 : writePos_ b3 = str_size stamp + 9 + str_size message).
  { unfold b3, HasWritten. simpl. apply size_t_small. lia. }
  assert (Hz3 : size b3 = size buff).
  { unfold b3, HasWritten, size in *. simpl. now rewrite Hl3. }
  split; [split; rewrite ?Hw3, ?Hz3; simpl; lia|].
  split; [unfold Buffer_fits; now rewrite Hz3|].
  split; [exact Hw3|]. split; [exact Hz3|].
  rewrite Hr3, Hr2, <- app_assoc. reflexivity.
Qed.

(** X26.  The second block of [Log::write] on an empty buffer in which the
    time stamp, the nine bytes of the title, the message and its
    terminator fit: what [fputs] writes is the time stamp, the title, the
    message and a line feed.  In the asynchronous case the string put into
    the queue holds a zero byte after the line feed, and [AsyncWrite_]
    writes the same line.  The buffer is empty again afterwards. *)
Theorem write_line_formats (stamp message : string) (level : Z)
    (buff : Buffer.t) :
  readPos_ buff = 0 -> writePos_ buff = 0 ->
  size buff + 2 < vector_max_size ->
  str_size stamp < 48 ->
  str_size stamp + 9 + str_size message + 1 <= size buff ->
  free_of NUL stamp = true -> free_of NUL message = true ->
  let line :=
    list_ascii_of_string stamp
    ++ list_ascii_of_string (Log.level_title level)
    ++ list_ascii_of_string message ++ [LF] in
  (exists b', Log.write_line stamp level message false buff
              = Ok (Log.Written line, b')
      /\ readPos_ b' = 0 /\ writePos_ b' = 0)
  /\ (exists b', Log.write_line stamp level message true buff
                 = Ok (Log.Queued (string_of_list_ascii (line ++ [NUL])), b')
         /\ readPos_ b' = 0 /\ writePos_ b' = 0)
  /\ Log.AsyncWrite_text (string_of_list_ascii (line ++ [NUL])) = line.
Proof.
  intros Hrp Hwp Hmax Hstamp Hroom Hfs Hfm line.
  assert (Hf : Buffer_fits buff) by (unfold Buffer_fits; lia).
  destruct (write_line_head stamp level message buff Hrp Hwp Hf Hstamp Hroom)
    as (v1 & b2 & v3 & Hp1 & Ha2 & Hp3 & Hi3 & Hf3 & Hw3 & Hz3 & Hr3).
  set (b3 := HasWritten (str_size message)
               (mk v3 (readPos_ b2) (writePos_ b2))) in *.
  destruct (Append_spec [LF; NUL] b3 Hi3 Hf3
              ltac:(rewrite Hw3; simpl; lia))
    as (b4 & Ha4 & Hi4 & Hf4 & Hr4).
  assert (Hline : readable b4 = line ++ [NUL]).
  { rewrite Hr4, Hr3. unfold line. rewrite <- !app_assoc. reflexivity. }
  assert (Hfree : Forall (fun c => c <> NUL) line).
  { unfold line. destruct (level_title_text level) as (_ & _ & Hft).
    repeat (apply Forall_app; split); try (apply free_of_Forall; assumption).
    constructor; [discriminate|constructor]. }
  unfold Log.write_line.
  rewrite Hp1. cbn [mbind result_bind]. rewrite Ha2. cbn [mbind result_bind].
  rewrite Hp3. cbn [mbind result_bind]. fold b3. rewrite Ha4.
  cbn [mbind result_bind].
  split; [|split].
  - unfold Peek. rewrite drop_readable, Hline, <- app_assoc. simpl app.
    rewrite (c_str_terminated _ _ Hfree). cbn [mbind result_bind].
    eexists. split; [reflexivity|]. split; reflexivity.
  - unfold RetrieveAllToStr. rewrite Hline.
    eexists. split; [reflexivity|]. split; reflexivity.
  - unfold Log.AsyncWrite_text.
    rewrite list_ascii_of_string_of_list_ascii.
    now apply until_NUL_terminated.
Qed.

Lemma print_at_ok size text b :
  0 <= writePos_ b -> 0 <= size -> writePos_ b + size <= Buffer.size b ->
  exists v,
    Log.print_at size text b
    = Ok (str_size text, mk v (readPos_ b) (writePos_ b))
    /\ length v = length (buffer_ b).
Proof.
  intros Hw Hsize Hroom. unfold Log.print_at.
  destruct (Z.eqb_spec size 0).
  { exists (buffer_ b). split; [now destruct b|reflexivity]. }
  unfold BeginWrite.
  set (data := take (Z.to_nat (size - 1)) (list_ascii_of_string text) ++ [NUL]).
  assert (Hl : (length data <= Z.to_nat size)%nat).
  { unfold data. rewrite length_app, length_take. simpl. lia. }
  rewrite copy_in_spec by (unfold Buffer.size in *; lia).
  simpl. eexists. split; [reflexivity|].
  rewrite !length_app, length_take, length_drop. unfold Buffer.size in *. lia.
Qed.

(** X27.  The second block of [Log::write] with a message longer than what
    is left of the buffer after the time stamp and the title: [vsnprintf]
    cuts the message, [HasWritten] moves the write cursor by the full
    length, beyond the end of the storage, and the next [Append] writes
    outside the vector. *)
Theorem write_line_overflows (stamp message : string) (level : Z)
    (to_queue : bool) (buff : Buffer.t) :
  readPos_ buff = 0 -> writePos_ buff = 0 -> Buffer_fits buff ->
  str_size stamp < 48 -> str_size stamp + 9 <= size buff ->
  size buff - str_size stamp - 9 < str_size message ->
  str_size message < 2 ^ 31 ->
  Log.write_line stamp level message to_queue buff = Fault Undefined.
Proof.
  intros Hrp Hwp Hf Hstamp Hroom Hlong Hint.
  assert (Hs : 0 <= str_size stamp) by (unfold str_size; lia).
  destruct (write_line_title stamp level buff Hrp Hwp Hf Hstamp Hroom)
    as (v1 & v2 & Hp1 & Ha2 & Hi2 & Hf2 & Hz2 & _).
  cbv zeta in *. set (b2 := mk v2 0 (str_size stamp + 9)) in *.
  assert (Hw2 : writePos_ b2 = str_size stamp + 9) by reflexivity.
  pose proof Hf as Hf'. unfold Buffer_fits, vector_max_size in Hf'.
  assert (Hwr2 : WritableBytes b2 = size buff - str_size stamp - 9).
  { unfold WritableBytes. rewrite Hz2, Hw2.
    rewrite size_t_small by lia. lia. }
  destruct (print_at_ok (WritableBytes b2) message b2
              ltac:(lia) ltac:(lia) ltac:(lia)) as (v3 & Hp3 & Hl3).
  unfold Log.write_line.
  rewrite Hp1. cbn [mbind result_bind]. rewrite Ha2. cbn [mbind result_bind].
  rewrite Hp3. cbn [mbind result_bind].
  set (b3 := HasWritten (str_size message) (mk v3 (readPos_ b2) (writePos_ b2))).
  assert (Hw3 : writePos_ b3 = str_size stamp + 9 + str_size message).
  { unfold b3, HasWritten. simpl. rewrite ?Hw2. apply size_t_small. lia. }
  assert (Hz3 : size b3 = size buff).
  { unfold b3, HasWritten, size in *. simpl. now rewrite Hl3. }
  assert (Hwr3 : WritableBytes b3
                 = size buff - (str_size stamp + 9 + str_size message) + 2 ^ 64).
  { unfold WritableBytes, size_t. rewrite Hz3, Hw3.
    symmetry. apply (Z.mod_unique _ _ (-1)); lia. }
  unfold Append, EnsureWriteable. simpl length.
  rewrite (size_t_small (Z.of_nat 2)) by lia.
  destruct (Z.ltb_spec (WritableBytes b3) (Z.of_nat 2)); [lia|].
  cbn [mbind result_bind].
  destruct (Z.leb_spec (Z.of_nat 2) (WritableBytes b3)); [|lia].
  simpl assert. cbn [mbind result_bind].
  unfold BeginWrite. rewrite Hw3. simpl copy_in.
  destruct (decide _) as [Hlt|_]; [|reflexivity].
  exfalso. unfold size in *. subst b3. simpl in *. lia.
Qed.

End LogLine.

(** * The further theorems at concrete inputs *)

Lemma Append_adds_at_the_end_witness :
  Buffer_inv sample_buffer /\ Buffer_fits sample_buffer
  /\ exists b', Buffer.Append (list_ascii_of_string "xyz") sample_buffer = Ok b'
       /\ Buffer.readable b'
          = Buffer.readable sample_buffer ++ list_ascii_of_string "xyz"
       /\ Buffer.ReadableBytes b' = Buffer.ReadableBytes sample_buffer + 3.
Proof.
  split; [exact sample_buffer_inv|]. split; [exact sample_buffer_fits|].
  exact (Append_adds_at_the_end (list_ascii_of_string "xyz") sample_buffer
           sample_buffer_inv sample_buffer_fits ltac:(reflexivity)).
Defined.

Lemma Retrieve_drops_the_front_witness :
  Buffer_inv sample_buffer /\ Buffer_fits sample_buffer /\ 0 <= 3
  /\ 3 <= Buffer.ReadableBytes sample_buffer
  /\ exists b', Buffer.Retrieve 3 sample_buffer = Ok b'
       /\ Buffer.buffer_ b' = Buffer.buffer_ sample_buffer
       /\ Buffer.readable b' = drop 3 (Buffer.readable sample_buffer).
Proof.
  split; [exact sample_buffer_inv|]. split; [exact sample_buffer_fits|].
  split; [discriminate|]. split; [discriminate|].
  exact (proj1 (Retrieve_drops_the_front 3 sample_buffer
                  sample_buffer_inv sample_buffer_fits ltac:(discriminate))
           ltac:(discriminate)).
Defined.

Lemma Append_then_RetrieveAllToStr_witness :
  Buffer_inv sample_buffer /\ Buffer_fits sample_buffer
  /\ exists b', Buffer.Append_str "xyz" sample_buffer = Ok b'
       /\ fst (Buffer.RetrieveAllToStr b') = "cdefxyz"%string
       /\ Buffer.readable (snd (Buffer.RetrieveAllToStr b')) = [].
Proof.
  split; [exact sample_buffer_inv|]. split; [exact sample_buffer_fits|].
  exact (Append_then_RetrieveAllToStr "xyz" sample_buffer
           sample_buffer_inv sample_buffer_fits ltac:(reflexivity)).
Defined.

Lemma WriteFd_keeps_the_unsent_rest_witness :
  Buffer_inv sample_buffer /\ Buffer_fits sample_buffer
  /\ 0 <= 3 <= Buffer.ReadableBytes sample_buffer
  /\ exists b', Buffer.WriteFd 3 0 sample_buffer = (3, b', None)
       /\ Buffer_inv b'
       /\ Buffer.readable b' = drop 3 (Buffer.readable sample_buffer).
Proof.
  split; [exact sample_buffer_inv|]. split; [exact sample_buffer_fits|].
  split; [split; discriminate|].
  exact (proj1 (WriteFd_keeps_the_unsent_rest 3 0 sample_buffer
                  sample_buffer_inv sample_buffer_fits)
           ltac:(split; discriminate)).
Defined.

Lemma EnsureWriteable_makes_room_witness :
  Buffer_inv sample_buffer /\ Buffer_fits sample_buffer /\ 0 <= 3
  /\ exists b', Buffer.EnsureWriteable 3 sample_buffer = Ok b'
       /\ 3 <= Buffer.WritableBytes b'
       /\ Buffer.readable b' = Buffer.readable sample_buffer
       /\ (3 <= Buffer.WritableBytes sample_buffer -> b' = sample_buffer).
Proof.
  split; [exact sample_buffer_inv|]. split; [exact sample_buffer_fits|].
  split; [discriminate|].
  exact (EnsureWriteable_makes_room 3 sample_buffer
           sample_buffer_inv sample_buffer_fits ltac:(discriminate)
           ltac:(reflexivity)).
Defined.

Lemma ParseHeader_stores_the_field_witness :
  free_of ":" "Host" = true /\ one_line "example.org" = true
  /\ HttpRequest.header_
       (HttpRequest.ParseHeader_ "Host: example.org" HttpRequest.Init)
     !! "Host"%string = Some "example.org"%string.
Proof.
  split; [reflexivity|]. split; [reflexivity|].
  exact (proj1 (proj2 (ParseHeader_stores_the_field "Host" "example.org"
                         HttpRequest.Init eq_refl eq_refl))).
Defined.

Lemma parse_consumes_whole_lines_witness :
  Buffer_inv (received sample_request) /\ Buffer_fits (received sample_request)
  /\ exists b' r',
       HttpRequest.parse no_database (received sample_request) HttpRequest.Init
       = Ok (true, b', r')
       /\ Buffer_inv b'
       /\ (exists k, Buffer.readable b'
                     = drop k (Buffer.readable (received sample_request)))
       /\ (true = true -> HttpRequest.state_ r' <> HttpRequest.FINISH ->
           next_line b' = None).
Proof.
  assert (Hi : Buffer_inv (received sample_request))
    by (split; vm_compute; discriminate).
  assert (Hf : Buffer_fits (received sample_request))
    by (vm_compute; discriminate).
  split; [exact Hi|]. split; [exact Hf|].
  destruct (HttpRequest.parse no_database (received sample_request)
              HttpRequest.Init) as [[[[] b'] r']|f] eqn:E.
  - exists b', r'. split; [reflexivity|].
    exact (parse_consumes_whole_lines no_database (received sample_request)
             HttpRequest.Init true b' r' Hi Hf E).
  - exfalso. revert E. vm_compute. discriminate.
  - exfalso. revert E. vm_compute. discriminate.
Defined.

Lemma parse_reads_only_the_readable_bytes_witness :
  let req := HttpRequest.set_state HttpRequest.HEADERS HttpRequest.Init in
  let other := received ("bad header" ++ crlf ++ "Ho") in
  Buffer_inv sample_headers /\ Buffer_fits sample_headers
  /\ Buffer_inv other /\ Buffer_fits other
  /\ Buffer.readable sample_headers = Buffer.readable other
  /\ match HttpRequest.parse no_database sample_headers req,
           HttpRequest.parse no_database other req with
     | Ok (ok1, b1', r1), Ok (ok2, b2', r2) =>
         ok1 = ok2 /\ r1 = r2 /\ Buffer.readable b1' = Buffer.readable b2'
     | Fault f1, Fault f2 => f1 = f2
     | _, _ => False
     end.
Proof.
  intros req other.
  assert (Hi : Buffer_inv other) by (split; vm_compute; discriminate).
  assert (Hf : Buffer_fits other) by (vm_compute; discriminate).
  split; [exact sample_headers_inv|]. split; [exact sample_headers_fits|].
  split; [exact Hi|]. split; [exact Hf|]. split; [reflexivity|].
  exact (parse_reads_only_the_readable_bytes no_database sample_headers other
           req sample_headers_inv sample_headers_fits Hi Hf eq_refl).
Defined.

Lemma parse_reads_a_complete_head_witness :
  let buff :=
    received ("GET /login HTTP/1.1" ++ crlf ++ "Host: x" ++ crlf ++ crlf
                ++ "next") in
  let r1 :=
    HttpRequest.mk HttpRequest.REQUEST_LINE "GET" "/login.html" "1.1"
      EmptyString ∅ ∅ in
  Buffer_inv buff /\ Buffer_fits buff
  /\ free_of CR "GET /login HTTP/1.1" = true
  /\ HttpRequest.ParseRequestLine_ "GET /login HTTP/1.1" HttpRequest.Init
     = Ok (true, r1)
  /\ Forall header_line ["Host: x"%string]
  /\ exists buff',
       Buffer.readable buff' = list_ascii_of_string "next"
       /\ HttpRequest.parse no_database buff HttpRequest.Init
          = Ok (true, buff',
                HttpRequest.set_state HttpRequest.FINISH
                  (parse_headers ["Host: x"%string]
                     (HttpRequest.set_state HttpRequest.HEADERS r1))).
Proof.
  intros buff r1.
  assert (Hi : Buffer_inv buff) by (split; vm_compute; discriminate).
  assert (Hf : Buffer_fits buff) by (vm_compute; discriminate).
  assert (Hh : Forall header_line ["Host: x"%string]).
  { repeat constructor. discriminate. }
  split; [exact Hi|]. split; [exact Hf|]. split; [reflexivity|].
  split; [reflexivity|]. split; [exact Hh|].
  destruct (parse_reads_a_complete_head no_database buff HttpRequest.Init r1
              "GET /login HTTP/1.1" ["Host: x"%string]
              (list_ascii_of_string "next") Hi Hf eq_refl eq_refl eq_refl Hh
              eq_refl) as (buff' & Hrest & Hfinish & _).
  exists buff'. split; [exact Hrest|]. exact (Hfinish eq_refl).
Defined.

Lemma parse_past_the_request_line_witness :
  exists b' r',
    HttpRequest.parse no_database (received sample_request) HttpRequest.Init
    = Ok (true, b', r')
    /\ HttpRequest.state_ r' <> HttpRequest.REQUEST_LINE
    /\ (HttpRequest.method_ r' = "GET" \/ HttpRequest.method_ r' = "POST")%string
    /\ find_last_of "/" (HttpRequest.path_ r') <> None.
Proof.
  destruct (HttpRequest.parse no_database (received sample_request)
              HttpRequest.Init) as [[[[] b'] r']|f] eqn:E.
  - assert (Hst : HttpRequest.state_ r' <> HttpRequest.REQUEST_LINE).
    { revert E. vm_compute. intros [= _ <-]. discriminate. }
    exists b', r'. split; [reflexivity|]. split; [exact Hst|].
    exact (proj2 (parse_past_the_request_line no_database
                    (received sample_request) HttpRequest.Init true b' r'
                    eq_refl E Hst)).
  - exfalso. revert E. vm_compute. discriminate.
  - exfalso. revert E. vm_compute. discriminate.
Defined.

Lemma ParseFromUrlencoded_plain_segments_witness :
  let segs : list segment :=
    [(Some "name", "a+b"); (None, "flag")]%string in
  let last : segment := (Some "x", "1")%string in
  Forall segment_plain segs /\ segment_plain last
  /\ HttpRequest.ParseFromUrlencoded_
       (HttpRequest.set_body "name=a+b&flag&x=1" HttpRequest.Init)
     = Ok (HttpRequest.set_post
             (<["x"%string := "1"%string]>
                (<[EmptyString := "flag"%string]>
                   (<["name"%string := "a b"%string]> ∅)))
             (HttpRequest.set_body "name=a b&flag&x=1" HttpRequest.Init)).
Proof.
  intros segs last.
  assert (Hs : Forall segment_plain segs).
  { repeat constructor. }
  assert (Hl : segment_plain last) by (split; reflexivity).
  split; [exact Hs|]. split; [exact Hl|].
  exact (ParseFromUrlencoded_plain_segments segs last HttpRequest.Init Hs Hl).
Defined.

Lemma ParsePost_login_form_witness :
  let r :=
    HttpRequest.mk HttpRequest.BODY "POST" "/login.html" "1.1"
      "username=ann&password=a+b"
      {[ "Content-Type"%string := "application/x-www-form-urlencoded"%string ]}
      ∅ in
  form_plain "ann" = true /\ form_plain "a+b" = true
  /\ exists r', HttpRequest.ParsePost_ no_database r = Ok r'
       /\ HttpRequest.path_ r' = "/error.html"%string
       /\ HttpRequest.post_ r' !! "password"%string = Some "a b"%string.
Proof.
  intros r. split; [reflexivity|]. split; [reflexivity|].
  eexists. split.
  - exact (ParsePost_login_form no_database r "ann" "a+b" eq_refl eq_refl
             (or_introl eq_refl) eq_refl eq_refl ltac:(discriminate) eq_refl).
  - split; reflexivity.
Defined.

Lemma MakeResponse_code_is_known_witness :
  let index := HttpResponse.mk_file (HttpResponse.S_IFREG + 420) 2 true true in
  let fs : gmap string HttpResponse.file := {[ "/srv/index.html"%string := index ]} in
  exists buff' r',
    HttpResponse.MakeResponse fs (Buffer.init 16)
      (HttpResponse.Init "/srv" "/index.html" true 302) = Ok (buff', r')
    /\ HttpResponse.code_ r' ∈ known_codes
    /\ HttpResponse.code_ r' = 400
    /\ HttpResponse.path_ r' = "/index.html"%string.
Proof.
  intros index fs.
  destruct (HttpResponse.MakeResponse fs (Buffer.init 16)
              (HttpResponse.Init "/srv" "/index.html" true 302))
    as [[buff' r']|f] eqn:E.
  - exists buff', r'. split; [reflexivity|].
    destruct (MakeResponse_code_is_known fs (Buffer.init 16) buff'
                (HttpResponse.Init "/srv" "/index.html" true 302) r' E)
      as (Hknown & _ & _ & Hfile).
    split; [exact Hknown|].
    apply (Hfile index); [reflexivity|reflexivity|discriminate|discriminate|].
    unfold known_codes. intros H.
    repeat (apply elem_of_cons in H as [H|H]; [discriminate|]).
    now apply elem_of_nil in H.
  - exfalso. revert E. vm_compute. discriminate.
Defined.

Lemma error_pages_are_html_witness :
  let r := HttpResponse.Init "/srv" "/missing" false (-1) in
  HttpResponse.code_ (HttpResponse.check_file ∅ r) ∈ error_codes
  /\ HttpResponse.path_ (HttpResponse.resolve ∅ r) = "/404.html"%string
  /\ HttpResponse.GetFileType_ (HttpResponse.resolve ∅ r) = "text/html"%string.
Proof.
  intros r.
  assert (H : HttpResponse.code_ (HttpResponse.check_file ∅ r) ∈ error_codes).
  { change (404 ∈ error_codes). unfold error_codes. repeat constructor. }
  split; [exact H|]. exact (error_pages_are_html ∅ r H).
Defined.

Lemma sample_pool_settled : pool_settled (SqlConnPool.mk 2 [7; 8] 2).
Proof.
  split; [reflexivity|]. repeat constructor; discriminate.
Defined.

Lemma scoped_lease_returns_the_connection_witness :
  pool_settled (SqlConnPool.mk 2 [7; 8] 2)
  /\ SqlConnPool.scoped (SqlConnPool.mk 2 [7; 8] 2)
     = SqlConnPool.Returns 7 (SqlConnPool.mk 2 [8; 7] 2)
  /\ exists c s', SqlConnPool.scoped (SqlConnPool.mk 2 [7; 8] 2)
                  = SqlConnPool.Returns c s'
       /\ pool_settled s'
       /\ SqlConnPool.semId_ s' = 2
       /\ SqlConnPool.GetFreeConnCount s' = 2.
Proof.
  split; [exact sample_pool_settled|]. split; [reflexivity|].
  destruct (scoped_lease_returns_the_connection (SqlConnPool.mk 2 [7; 8] 2)
              sample_pool_settled) as (c & s' & H1 & H2 & H3 & H4 & _).
  exists c, s'. split; [exact H1|]. split; [exact H2|].
  split; [exact H3|exact H4].
Defined.

Lemma GetConn_hands_out_in_connect_order_witness :
  let connect := fun i : nat => if (i =? 1)%nat then 0 else Z.of_nat i + 5 in
  SqlConnPool.Init 3 connect SqlConnPool.fresh
  = SqlConnPool.Returns tt (SqlConnPool.mk 3 [5; 0; 7] 3)
  /\ Z.of_nat 2 <= 3
  /\ SqlConnPool.run (SqlConnPool.mk 3 [5; 0; 7] 3) []
       [SqlConnPool.CallGet; SqlConnPool.CallGet]
     = Some (SqlConnPool.mk 3 [7] 1, [SqlConnPool.nullptr; 5]).
Proof.
  intros connect. split; [reflexivity|]. split; [discriminate|].
  exact (GetConn_hands_out_in_connect_order 3 connect
           (SqlConnPool.mk 3 [5; 0; 7] 3) 2 eq_refl ltac:(discriminate)).
Defined.

Lemma pool_neither_loses_nor_invents_connections_witness :
  let calls := [SqlConnPool.CallGet; SqlConnPool.CallFree 7; SqlConnPool.CallGet;
                SqlConnPool.CallGet; SqlConnPool.CallGet] in
  pool_settled (SqlConnPool.mk 2 [7; 8] 2)
  /\ SqlConnPool.run (SqlConnPool.mk 2 [7; 8] 2) [] calls
     = Some (SqlConnPool.mk 2 [] 0, [SqlConnPool.nullptr; 7; 8; 7])
  /\ [7; 8; 7] ++ [] ≡ₚ [7; 8] ++ [7].
Proof.
  intros calls. split; [exact sample_pool_settled|]. split; [reflexivity|].
  exact (proj1 (pool_neither_loses_nor_invents_connections
                  (SqlConnPool.mk 2 [7; 8] 2) (SqlConnPool.mk 2 [] 0) calls
                  [SqlConnPool.nullptr; 7; 8; 7] sample_pool_settled eq_refl)).
Defined.

Lemma BlockQueue_never_exceeds_capacity_witness :
  let es := [BlockQueue.PushBack 1%nat; BlockQueue.PushBack 2%nat;
             BlockQueue.Pop; BlockQueue.PushFront 3%nat] in
  BlockQueue.init 1 = Ok (BlockQueue.mk ([] : list nat) false 1)
  /\ BlockQueue.exec es (BlockQueue.mk [] false 1) (BlockQueue.mk_trace [] [])
     = (BlockQueue.mk [3%nat] false 1, BlockQueue.mk_trace [1%nat; 3%nat] [1%nat])
  /\ 0 <= BlockQueue.size (BlockQueue.mk [3%nat] false 1) <= 1.
Proof.
  intros es. split; [reflexivity|]. split; [reflexivity|].
  exact (proj2 (proj2 (BlockQueue_never_exceeds_capacity 1
                         (BlockQueue.mk [] false 1)
                         (BlockQueue.mk [3%nat] false 1) es
                         (BlockQueue.mk_trace [1%nat; 3%nat] [1%nat])
                         eq_refl eq_refl))).
Defined.

Lemma BlockQueue_delivers_in_push_order_witness :
  let es := [BlockQueue.PushBack 1%nat; BlockQueue.PushBack 2%nat;
             BlockQueue.PushBack 3%nat; BlockQueue.Pop;
             BlockQueue.PushBack 3%nat; BlockQueue.PopTimed] in
  BlockQueue.init 2 = Ok (BlockQueue.mk ([] : list nat) false 2)
  /\ BlockQueue.plain_events es
  /\ BlockQueue.exec es (BlockQueue.mk [] false 2) (BlockQueue.mk_trace [] [])
     = (BlockQueue.mk [3%nat] false 2,
        BlockQueue.mk_trace [1%nat; 2%nat; 3%nat] [1%nat; 2%nat])
  /\ [1%nat; 2%nat] ++ [3%nat] = [1%nat; 2%nat; 3%nat].
Proof.
  intros es.
  assert (Hp : BlockQueue.plain_events es) by (repeat constructor).
  split; [reflexivity|]. split; [exact Hp|]. split; [reflexivity|].
  exact (BlockQueue_delivers_in_push_order 2 (BlockQueue.mk [] false 2)
           (BlockQueue.mk [3%nat] false 2) es
           (BlockQueue.mk_trace [1%nat; 2%nat; 3%nat] [1%nat; 2%nat])
           eq_refl Hp eq_refl).
Defined.

Lemma closed_BlockQueue_delivers_to_timed_pop_only_witness :
  let s := BlockQueue.Close (BlockQueue.mk [1%nat] false 2) in
  BlockQueue.isClose_ s = true /\ BlockQueue.size s < BlockQueue.capacity_ s
  /\ exists s1, BlockQueue.push_back 5%nat s = BlockQueue.Returns tt s1
       /\ BlockQueue.deq_ s1 = [5%nat]
       /\ BlockQueue.pop s1 = BlockQueue.Waits s1
       /\ BlockQueue.pop_woken s1 = BlockQueue.Returns None s1
       /\ exists first s2,
            BlockQueue.pop_timed s1 = BlockQueue.Returns (Some first) s2
            /\ head (BlockQueue.deq_ s1) = Some first.
Proof.
  intros s. split; [reflexivity|]. split; [reflexivity|].
  exact (closed_BlockQueue_delivers_to_timed_pop_only s 5%nat eq_refl eq_refl).
Defined.

Lemma write_line_formats_witness :
  let stamp := "2026-10-30 12:00:00.000000 "%string in
  let buff := Buffer.init 64 in
  Buffer.size buff + 2 < vector_max_size
  /\ str_size stamp < 48
  /\ str_size stamp + 9 + str_size "started" + 1 <= Buffer.size buff
  /\ exists b',
       Log.write_line stamp 1 "started" false buff
       = Ok (Log.Written
               (list_ascii_of_string
                  "2026-10-30 12:00:00.000000 [info] : started" ++ [LF]), b')
       /\ Buffer.readPos_ b' = 0 /\ Buffer.writePos_ b' = 0.
Proof.
  intros stamp buff.
  assert (H1 : Buffer.size buff + 2 < vector_max_size) by reflexivity.
  assert (H2 : str_size stamp < 48) by reflexivity.
  assert (H3 : str_size stamp + 9 + str_size "started" + 1 <= Buffer.size buff)
    by (vm_compute; discriminate).
  split; [exact H1|]. split; [exact H2|]. split; [exact H3|].
  exact (proj1 (write_line_formats stamp "started" 1 buff eq_refl eq_refl
                  H1 H2 H3 eq_refl eq_refl)).
Defined.

Lemma write_line_overflows_witness :
  let stamp := "2026-10-30 12:00:00.000000 "%string in
  let message := "a message of thirty-two letters."%string in
  let buff := Buffer.init 64 in
  Buffer_fits buff /\ str_size stamp + 9 <= Buffer.size buff
  /\ Buffer.size buff - str_size stamp - 9 < str_size message
  /\ Log.write_line stamp 1 message false buff = Fault Undefined.
Proof.
  intros stamp message buff.
  assert (H1 : Buffer_fits buff) by (vm_compute; discriminate).
  assert (H2 : str_size stamp + 9 <= Buffer.size buff)
    by (vm_compute; discriminate).
  assert (H3 : Buffer.size buff - str_size stamp - 9 < str_size message)
    by reflexivity.
  split; [exact H1|]. split; [exact H2|]. split; [exact H3|].
  exact (write_line_overflows stamp message 1 false buff eq_refl eq_refl
           H1 eq_refl H2 H3 eq_refl).
Defined.
